(** * The coercion optimizer of MonetDB5 (optimizer/opt_coercion.c)

    A shallow embedding of [OPTcoercionImplementation] and of its two
    helpers [coercionOptimizerStep] and [coercionOptimizerCalcStep],
    followed by the properties of the pass.

    Conventions of the embedding.
    - A MAL block is a record of its statement array ([stmt], of length
      [stop]) and of its variable table ([var], of length [vtop]); both are
      lists read with the total lookup [!!!] and written with [<[_:=_]>].
      The C code reads and writes these arrays without bounds checks, so
      the model agrees with the code on well-formed blocks ([wf_MalBlk]):
      every argument of every instruction indexes the variable table.  Out
      of range, where the C code has no defined behaviour, a read gives the
      zero record and a write does nothing.
    - Variable identifiers, instruction indices and counters are [nat]
      (they are non-negative C [int]s, bounded by the array sizes); type
      codes, digits and scales are [Z].
    - Module and function identifiers are interned strings: pointer
      equality in the C code is equality of names here, and a NULL
      identifier is [None]. *)

From Stdlib Require Import Ascii.
From stdpp Require Import base numbers list strings.

Open Scope string_scope.
Open Scope list_scope.
Open Scope nat_scope.

(** ** The MAL data model (as far as the optimizer reads it) *)

(** Modelled from the spec: the instruction record of the MAL kernel
    ([InstrPtr]), declared outside this file: module and function
    identifier, number of results and the argument vector; the first [retc]
    arguments are the results, and [argc] is the length of the vector. *)
Record InstrRecord := mkInstr {
  modname : option string;
  fcnname : option string;
  retc : nat;
  argv : list nat
}.

(** Modelled from the spec: the variable record of the MAL kernel: the
    static type of a variable, whether it is a compile-time constant, and
    the integer value of the constant. *)
Record VarRecord := mkVar {
  vtype : Z;
  isConstant : bool;
  ival : Z
}.

(** Modelled from the spec: the MAL block ([MalBlkPtr]): the instructions
    [stmt[0..stop-1]] and the variables [var[0..vtop-1]]. *)
Record MalBlkRecord := mkMalBlk {
  stmt : list InstrRecord;
  var : list VarRecord
}.

(** The scratch record of the optimizer, [typedef struct {...} Coercion]. *)
Record Coercion := mkCoercion {
  pc : nat;
  fromtype : Z;
  totype : Z;
  src : nat;
  digits : Z;
  scale : Z
}.

(** A zero-filled table entry, as [GDKzalloc] hands it out. *)
Definition Coercion_zero : Coercion := mkCoercion 0 0 0 0 0 0.

#[global] Instance InstrRecord_inhabited : Inhabited InstrRecord :=
  populate (mkInstr None None 0 []).
#[global] Instance VarRecord_inhabited : Inhabited VarRecord :=
  populate (mkVar 0 false 0).
#[global] Instance Coercion_inhabited : Inhabited Coercion :=
  populate Coercion_zero.

#[global] Instance InstrRecord_eq_dec : EqDecision InstrRecord.
Proof. solve_decision. Defined.
#[global] Instance VarRecord_eq_dec : EqDecision VarRecord.
Proof. solve_decision. Defined.
#[global] Instance Coercion_eq_dec : EqDecision Coercion.
Proof. solve_decision. Defined.
#[global] Instance MalBlkRecord_eq_dec : EqDecision MalBlkRecord.
Proof. solve_decision. Defined.

(** Modelled from the spec: the accessor macros of the MAL kernel, by
    their names in the source. *)
Definition stop (mb : MalBlkRecord) : nat := length (stmt mb).
Definition vtop (mb : MalBlkRecord) : nat := length (var mb).
Definition argc (p : InstrRecord) : nat := length (argv p).

Definition getInstrPtr (mb : MalBlkRecord) (i : nat) : InstrRecord := stmt mb !!! i.
Definition getArg (p : InstrRecord) (k : nat) : nat := argv p !!! k.
Definition getModuleId (p : InstrRecord) : option string := modname p.
Definition getFunctionId (p : InstrRecord) : option string := fcnname p.
Definition getVarType (mb : MalBlkRecord) (v : nat) : Z := vtype (var mb !!! v).
Definition getArgType (mb : MalBlkRecord) (p : InstrRecord) (k : nat) : Z :=
  getVarType mb (getArg p k).
Definition isVarConstant (mb : MalBlkRecord) (v : nat) : bool := isConstant (var mb !!! v).
Definition getVarConstant (mb : MalBlkRecord) (v : nat) : Z := ival (var mb !!! v).

(** [getArg(p,k) = v]: the assignment to an argument slot. *)
Definition setArg (p : InstrRecord) (k v : nat) : InstrRecord :=
  mkInstr (modname p) (fcnname p) (retc p) (<[k := v]> (argv p)).

(** The instruction behind the pointer [getInstrPtr(mb,i)] is updated in
    place. *)
Definition setInstr (mb : MalBlkRecord) (i : nat) (p : InstrRecord) : MalBlkRecord :=
  mkMalBlk (<[i := p]> (stmt mb)) (var mb).

(** Modelled from the spec: [removeInstruction] lives in the MAL kernel, not
    in this file; it removes the instruction from the block and shifts the
    following ones down by one, decrementing [stop].  The instruction is
    named here by its index: the driver always passes
    [p = getInstrPtr(mb,i)]. *)
Definition removeInstruction (mb : MalBlkRecord) (i : nat) : MalBlkRecord :=
  mkMalBlk (delete i (stmt mb)) (var mb).

(** Modelled from the spec: the interned names of the MAL name space
    ([putName]); an identifier equals one of them exactly when the names
    are equal. *)
Definition calcRef : string := "calc".
Definition batcalcRef : string := "batcalc".
Definition plusRef : string := "+".
Definition minusRef : string := "-".
Definition mulRef : string := "*".
Definition divRef : string := "/".
Definition hgeRef : string := "hge".

(** [id == ref] for a possibly NULL identifier. *)
Definition isRef (id : option string) (ref : string) : bool :=
  bool_decide (id = Some ref).

(** [*s == '%']: the first character of a C string. *)
Definition startsWithPercent (s : string) : bool :=
  match s with
  | String c _ => bool_decide (c = "%"%char)
  | EmptyString => false
  end.

(** [strcmp(getFunctionId(p), nme) == 0]; the C code does not guard
    against a NULL function identifier here, the model answers [false]. *)
Definition strcmp0 (id : option string) (nme : string) : bool :=
  match id with
  | Some f => bool_decide (f = nme)
  | None => false
  end.

(** Well-formed blocks: argument vectors index the variable table, results
    come first, and an instruction with a module has a function. *)
Definition wf_Instr (nvars : nat) (p : InstrRecord) : bool :=
  bool_decide (retc p ≤ argc p)
  && forallb (λ v, bool_decide (v < nvars)) (argv p)
  && (bool_decide (modname p = None) || bool_decide (fcnname p ≠ None)).

Definition wf_MalBlk (mb : MalBlkRecord) : bool :=
  forallb (wf_Instr (vtop mb)) (stmt mb).

(** ** The optimizer *)

Section Optimizer.

(** What the file takes from the GDK and MAL headers: the macro
    [getColumnType] stripping the BAT wrapper from a type code, the table of
    atom names [ATOMname], the type code [TYPE_hge], and whether the build
    has 128-bit integers ([#ifdef HAVE_HGE]). *)
Variable getColumnType : Z → Z.
Variable ATOMname : Z → string.
Variable TYPE_hge : Z.
Variable HAVE_HGE : bool.

(** *** [coercionOptimizerStep] *)

(** [for (k = p->retc; k < p->argc; k++) if (p->argv[k] == a) p->argv[k] = b;]
    run for [n] more rounds from slot [k]. *)
Fixpoint replaceArgs (n k a b : nat) (av : list nat) : list nat :=
  match n with
  | 0 => av
  | S n' =>
      replaceArgs n' (S k) a b
        (if bool_decide (av !!! k = a) then <[k := b]> av else av)
  end.

Definition replaceUses (a b : nat) (p : InstrRecord) : InstrRecord :=
  mkInstr (modname p) (fcnname p) (retc p)
    (replaceArgs (argc p - retc p) (retc p) a b (argv p)).

(** [for (; i < mb->stop; i++) { p = getInstrPtr(mb, i); ... }]
    run for [n] more rounds from index [i]. *)
Fixpoint rewriteFrom (n i a b : nat) (mb : MalBlkRecord) : MalBlkRecord :=
  match n with
  | 0 => mb
  | S n' => rewriteFrom n' (S i) a b (setInstr mb i (replaceUses a b (getInstrPtr mb i)))
  end.

Definition coercionOptimizerStep (mb : MalBlkRecord) (i : nat) (p : InstrRecord)
  : MalBlkRecord * nat :=
  let a := getArg p 0 in
  let b := getArg p 1 in
  let t := getVarType mb b in
  if negb (bool_decide (getVarType mb a = t)) then (mb, 0)
  else if strcmp0 (getFunctionId p) (ATOMname t) then
    let mb := removeInstruction mb i in
    (rewriteFrom (stop mb - i) i a b mb, 1)
  else (mb, 0).

(** *** [coercionOptimizerCalcStep] *)

(** The operator test of line 59: four pointer comparisons with interned
    names, and [*getFunctionId(p) == '%']. *)
Definition isCalcOperator (id : option string) : bool :=
  isRef id plusRef || isRef id minusRef || isRef id mulRef || isRef id divRef
  || match id with Some f => startsWithPercent f | None => false end.

(** The guard of lines 65 and 67 for the operand of base type [a] held in a
    slot naming variable [v], [r] being the base type of the result. *)
Definition narrowable (coerce : list Coercion) (r a : Z) (v : nat) : bool :=
  bool_decide (a = r)
  && negb (bool_decide (src (coerce !!! v) = 0))
  && bool_decide (fromtype (coerce !!! v) < r)%Z.

Definition coercionOptimizerCalcStep (mb : MalBlkRecord) (i : nat)
    (coerce : list Coercion) : MalBlkRecord :=
  let p := getInstrPtr mb i in
  if negb (isRef (getModuleId p) batcalcRef) || bool_decide (getFunctionId p = None)
  then mb
  else if negb (isCalcOperator (getFunctionId p)) || negb (bool_decide (argc p = 3))
  then mb
  else
    let r := getColumnType (getVarType mb (getArg p 0)) in
    let a := getColumnType (getVarType mb (getArg p 1)) in
    let b := getColumnType (getVarType mb (getArg p 2)) in
    let p1 :=
      if narrowable coerce r a (getArg p 1)
      then setArg p 1 (src (coerce !!! getArg p 1)) else p in
    let p2 :=
      if narrowable coerce r b (getArg p1 2)
      then setArg p1 2 (src (coerce !!! getArg p1 2)) else p1 in
    setInstr mb i p2.

(** *** [OPTcoercionImplementation] *)

(** The test of line 95 and the six assignments below it. *)
Definition isHgeConstructor (mb : MalBlkRecord) (p : InstrRecord) : bool :=
  isRef (getModuleId p) batcalcRef && isRef (getFunctionId p) hgeRef
  && bool_decide (retc p = 1) && bool_decide (argc p = 5)
  && isVarConstant mb (getArg p 4) && isVarConstant mb (getArg p 3).

Definition recordCoercion (mb : MalBlkRecord) (i : nat) (p : InstrRecord)
    (coerce : list Coercion) : list Coercion :=
  if HAVE_HGE && isHgeConstructor mb p then
    let k := getArg p 0 in
    <[k := mkCoercion i
             (getColumnType (getArgType mb p 2))
             TYPE_hge
             (getArg p 2)
             (getVarConstant mb (getArg p 3))
             (getVarConstant mb (getArg p 4))]> coerce
  else coerce.

(** The variables of the [for] loop of the driver. *)
Record LoopState := mkLoop {
  ls_mb : MalBlkRecord;
  ls_i : nat;
  ls_coerce : list Coercion;
  ls_actions : nat
}.

(** One round of the body of the loop; it returns with [i] as the body
    leaves it, before the [i++] of the loop header. *)
Definition loopBody (s : LoopState) : LoopState :=
  let mb := ls_mb s in
  let i := ls_i s in
  let p := getInstrPtr mb i in
  match getModuleId p with
  | None => s
  | Some _ =>
      let coerce := recordCoercion mb i p (ls_coerce s) in
      let mb := coercionOptimizerCalcStep mb i coerce in
      let p := getInstrPtr mb i in
      if isRef (getModuleId p) calcRef && bool_decide (argc p = 2) then
        let '(mb, k) := coercionOptimizerStep mb i p in
        mkLoop mb (if bool_decide (k = 0) then i else i - 1) coerce (ls_actions s + k)
      else mkLoop mb i coerce (ls_actions s)
  end.

(** [for (...; i < mb->stop; i++) body], for at most [fuel] rounds. *)
Fixpoint loop (fuel : nat) (s : LoopState) : LoopState :=
  match fuel with
  | 0 => s
  | S fuel' =>
      if bool_decide (ls_i s < stop (ls_mb s)) then
        let s' := loopBody s in
        loop fuel' (mkLoop (ls_mb s') (S (ls_i s')) (ls_coerce s') (ls_actions s'))
      else s
  end.

(** [GDKzalloc(sizeof(Coercion) * mb->vtop)]: [None] is the NULL pointer.
    Whether the allocation succeeds is decided outside the program.  *)
Definition GDKzalloc (succeeds : bool) (n : nat) : option (list Coercion) :=
  if succeeds then Some (replicate n Coercion_zero) else None.

(** The state in which the loop is entered. *)
Definition loopInit (mb : MalBlkRecord) (coerce : list Coercion) : LoopState :=
  mkLoop mb 1 coerce 0.

(** The pass: the block it leaves and the number it returns.  Every round
    either moves [i] forward or removes an instruction, so [stop mb] rounds
    are enough (see [loop_exits]). *)
Definition OPTcoercionImplementation (succeeds : bool) (mb : MalBlkRecord)
  : MalBlkRecord * nat :=
  match GDKzalloc succeeds (vtop mb) with
  | None => (mb, 0)
  | Some coerce =>
      let s := loop (stop mb) (loopInit mb coerce) in
      (ls_mb s, ls_actions s)
  end.

(** *** The pass read instruction by instruction

    The definitions below describe the same computation on the list of
    instructions that the loop has not visited yet; the theorems
    [coercionOptimizerCalcStep_instr], [coercionOptimizerStep_split] and
    [loop_sweep] relate them to the code above. *)

(** What the two nested loops of [coercionOptimizerStep] do to one later
    instruction: operand slots naming [a] name [b] afterwards. *)
Definition renameVar (a b v : nat) : nat := if bool_decide (v = a) then b else v.

Definition substOperands (a b : nat) (p : InstrRecord) : InstrRecord :=
  mkInstr (modname p) (fcnname p) (retc p)
    (take (retc p) (argv p) ++ (renameVar a b <$> drop (retc p) (argv p))).

(** What [coercionOptimizerCalcStep] does to the instruction it is pointed
    at. *)
Definition narrowInstr (mb : MalBlkRecord) (coerce : list Coercion)
    (p : InstrRecord) : InstrRecord :=
  if isRef (getModuleId p) batcalcRef && isCalcOperator (getFunctionId p)
     && bool_decide (argc p = 3) then
    let r := getColumnType (getVarType mb (getArg p 0)) in
    let a := getColumnType (getVarType mb (getArg p 1)) in
    let b := getColumnType (getVarType mb (getArg p 2)) in
    mkInstr (modname p) (fcnname p) (retc p)
      [ getArg p 0;
        if narrowable coerce r a (getArg p 1) then src (coerce !!! getArg p 1) else getArg p 1;
        if narrowable coerce r b (getArg p 2) then src (coerce !!! getArg p 2) else getArg p 2 ]
  else p.

(** The instructions that the driver hands to [coercionOptimizerStep] and
    that the latter removes. *)
Definition isIdentityCoercion (mb : MalBlkRecord) (p : InstrRecord) : bool :=
  isRef (getModuleId p) calcRef && bool_decide (argc p = 2)
  && bool_decide (getVarType mb (getArg p 0) = getVarType mb (getArg p 1))
  && strcmp0 (getFunctionId p) (ATOMname (getVarType mb (getArg p 1))).

(** The loop on the instructions [rest] from index [i] on; [mb0] gives the
    variable table.  It returns the instructions left, the table and the
    number of removals. *)
Fixpoint sweep (n i : nat) (mb0 : MalBlkRecord) (coerce : list Coercion)
    (rest : list InstrRecord) : list InstrRecord * list Coercion * nat :=
  match n, rest with
  | S n', p :: rest' =>
      match getModuleId p with
      | None =>
          let '(out, T, c) := sweep n' (S i) mb0 coerce rest' in (p :: out, T, c)
      | Some _ =>
          let coerce1 := recordCoercion mb0 i p coerce in
          let p1 := narrowInstr mb0 coerce1 p in
          if isIdentityCoercion mb0 p1 then
            let '(out, T, c) :=
              sweep n' i mb0 coerce1
                (substOperands (getArg p1 0) (getArg p1 1) <$> rest') in
            (out, T, S c)
          else
            let '(out, T, c) := sweep n' (S i) mb0 coerce1 rest' in
            (p1 :: out, T, c)
      end
  | _, _ => (rest, coerce, 0)
  end.

(** *** Predicates of the statements *)

(** A Narrowing Candidate is recorded for variable [o]: the entry of [o] is
    no longer the zero-filled entry that the table starts with.  The
    recorder writes the index of the constructor into the entry, and the
    loop starts at index 1, so that an entry it has written is never the
    zero-filled one (see [record_marks] and [recorded_by_constructor]). *)
Definition CandidateRecorded (coerce : list Coercion) (o : nat) : Prop :=
  coerce !!! o ≠ Coercion_zero.

(** The three conditions that the specification gives for the operand
    variable [o] of an instruction with result variable [res]: the base
    types agree, a candidate is recorded for [o], and its recorded source
    type is below the base type of the result. *)
Definition ClaimedEligible (mb : MalBlkRecord) (coerce : list Coercion)
    (res o : nat) : Prop :=
  getColumnType (getVarType mb o) = getColumnType (getVarType mb res)
  ∧ CandidateRecorded coerce o
  ∧ (fromtype (coerce !!! o) < getColumnType (getVarType mb res))%Z.

(** The same three conditions, and a fourth one: the recorded source is not
    variable 0. *)
Definition NarrowingEligible (mb : MalBlkRecord) (coerce : list Coercion)
    (res o : nat) : Prop :=
  ClaimedEligible mb coerce res o ∧ src (coerce !!! o) ≠ 0.

(** Every recorded candidate carries the base type of its source. *)
Definition coerce_sound (mb : MalBlkRecord) (coerce : list Coercion) : Prop :=
  ∀ v, src (coerce !!! v) ≠ 0 →
       fromtype (coerce !!! v) = getColumnType (getVarType mb (src (coerce !!! v))).

End Optimizer.

(** An instruction [v := batcalc.hge(_,_,_,_)]: the opcode and shape of the
    wide constructor, with result variable [v]. *)
Definition isHgeCallOf (v : nat) (p : InstrRecord) : bool :=
  isRef (getModuleId p) batcalcRef && isRef (getFunctionId p) hgeRef
  && bool_decide (retc p = 1) && bool_decide (argc p = 5)
  && bool_decide (getArg p 0 = v).

(** No instruction of the block is a call of the wide constructor with
    result variable [v]. *)
Definition neverHgeResult (v : nat) (mb : MalBlkRecord) : bool :=
  forallb (λ q, negb (isHgeCallOf v q)) (stmt mb).

(** The arithmetic family of the Narrowing Rewriter: [batcalc] with one of
    the five operator names, one result and two operands. *)
Definition isCalcFamily (p : InstrRecord) : bool :=
  isRef (getModuleId p) batcalcRef
  && (isRef (getFunctionId p) "+" || isRef (getFunctionId p) "-"
      || isRef (getFunctionId p) "*" || isRef (getFunctionId p) "/"
      || isRef (getFunctionId p) "%")
  && bool_decide (retc p = 1) && bool_decide (argc p = 3).

(** Variable [a] is in a result slot of [p]. *)
Definition inResultSlot (a : nat) (p : InstrRecord) : Prop :=
  ∃ k, k < retc p ∧ argv p !! k = Some a.

(** The instructions of the scenarios: [w := batcalc.hge(s1, x, d, s)],
    [r := batcalc.+(a, b)] and [r := calc.nme(a)]. *)
Definition hgeCons (w s1 x d s : nat) : InstrRecord :=
  mkInstr (Some batcalcRef) (Some hgeRef) 1 [w; s1; x; d; s].

Definition addInstr (r a b : nat) : InstrRecord :=
  mkInstr (Some batcalcRef) (Some plusRef) 1 [r; a; b].

Definition castInstr (nme : string) (r a : nat) : InstrRecord :=
  mkInstr (Some calcRef) (Some nme) 1 [r; a].

(** ** An instance of the header parameters, and the scenarios *)

Module Gdk.

(** Modelled from the spec: the type codes of the GDK atoms (the
    numeric-width ordering bte < sht < int < lng < hge), the BAT wrapper as a
    flag above the low byte, and [getColumnType] masking the low byte. *)
Definition TYPE_bte : Z := 2.
Definition TYPE_sht : Z := 3.
Definition TYPE_int : Z := 5.
Definition TYPE_lng : Z := 11.
Definition TYPE_hge : Z := 12.
Definition newBatType (t : Z) : Z := Z.lor (Z.shiftl 1 16) (Z.land t 255).
Definition getColumnType (t : Z) : Z := Z.land t 255.

(** Modelled from the spec: the canonical names of the atoms. *)
Definition ATOMname (t : Z) : string :=
  if bool_decide (t = TYPE_bte) then "bte"
  else if bool_decide (t = TYPE_sht) then "sht"
  else if bool_decide (t = TYPE_int) then "int"
  else if bool_decide (t = TYPE_lng) then "lng"
  else if bool_decide (t = TYPE_hge) then "hge"
  else "".

(** The pass of a build with [HAVE_HGE]. *)
Definition pass : bool → MalBlkRecord → MalBlkRecord * nat :=
  OPTcoercionImplementation getColumnType ATOMname TYPE_hge true.

(** The signature instruction at index 0, [user.main], defining variable 0. *)
Definition sig : InstrRecord := mkInstr (Some "user") (Some "main") 1 [0].

(** Scenarios 2 and 3.  Variables: 1 is [x], a column of [lng]; 2 is [w], a
    column of [hge]; 3 is [r], of type [tr]; 4, 5 and 6 are the constants 1,
    18 and 2. *)
Definition wideVars (tr : Z) : list VarRecord :=
  [ mkVar 0 false 0; mkVar (newBatType TYPE_lng) false 0;
    mkVar (newBatType TYPE_hge) false 0; mkVar tr false 0;
    mkVar TYPE_int true 1; mkVar TYPE_int true 18; mkVar TYPE_int true 2 ].

Definition wideCons : InstrRecord := hgeCons 2 4 1 5 6.

Definition wideProg (tr : Z) : MalBlkRecord :=
  mkMalBlk [sig; wideCons; addInstr 3 2 2] (wideVars tr).

(** Scenario 4.  Variables 1 to 4 are [x], [y], [z] and [u], all [int]. *)
Definition intVars : list VarRecord :=
  [ mkVar 0 false 0; mkVar TYPE_int false 0; mkVar TYPE_int false 0;
    mkVar TYPE_int false 0; mkVar TYPE_int false 0 ].

Definition chainProg : MalBlkRecord :=
  mkMalBlk [sig; castInstr "int" 2 1; castInstr "int" 3 2;
            mkInstr (Some "calc") (Some "+") 1 [4; 3; 2]] intVars.

(** Scenario 1: [y := calc.int(x); z := calc.+(y, u)]. *)
Definition castProg : MalBlkRecord :=
  mkMalBlk [sig; castInstr "int" 2 1; mkInstr (Some "calc") (Some "+") 1 [3; 2; 4]]
    intVars.

(** A table in which variable 2 ([w]) has the candidate that [wideCons]
    records at index 1: source [x], source type [lng]. *)
Definition wideTable : list Coercion :=
  <[2 := mkCoercion 1 TYPE_lng TYPE_hge 1 18 2]> (replicate 7 Coercion_zero).

(** [w := batcalc.hge(s1, f, 18, 2); r := batcalc.+(w, w)] where the source
    of the constructor is variable 0, here a column of [lng]; variables 2
    and 3 are [w] and [r], columns of [hge]; 4, 5 and 6 are the constants
    1, 18 and 2. *)
Definition zeroSrcVars : list VarRecord :=
  [ mkVar (newBatType TYPE_lng) false 0; mkVar TYPE_int false 0;
    mkVar (newBatType TYPE_hge) false 0; mkVar (newBatType TYPE_hge) false 0;
    mkVar TYPE_int true 1; mkVar TYPE_int true 18; mkVar TYPE_int true 2 ].

Definition zeroSrcProg : MalBlkRecord :=
  mkMalBlk [sig; hgeCons 2 4 0 5 6; addInstr 3 2 2] zeroSrcVars.

(** [y := calc.int(x); y := calc.+(y, y)]: variable 2 is assigned twice. *)
Definition reassignProg : MalBlkRecord :=
  mkMalBlk [sig; castInstr "int" 2 1; mkInstr (Some "calc") (Some "+") 1 [2; 2; 2]]
    intVars.

(** [(x, y) := calc.int(); z := user.f(x)]: an instruction of module [calc]
    with two arguments, both of them results. *)
Definition twoResultProg : MalBlkRecord :=
  mkMalBlk [sig; mkInstr (Some "calc") (Some "int") 2 [1; 2];
            mkInstr (Some "user") (Some "f") 1 [3; 1]] intVars.

(** [w := batcalc.hge(s1, x, 18, 2); a := calc.hge(w); r := batcalc.+(a, a)]:
    variable 1 is [x], of type [lng]; 2, 3 and 4 are [w], [a] and [r], of
    type [hge]; 5, 6 and 7 are the constants 1, 18 and 2.  Every variable is
    assigned once, before it is used. *)
Definition castWideVars : list VarRecord :=
  [ mkVar 0 false 0; mkVar TYPE_lng false 0; mkVar TYPE_hge false 0;
    mkVar TYPE_hge false 0; mkVar TYPE_hge false 0;
    mkVar TYPE_int true 1; mkVar TYPE_int true 18; mkVar TYPE_int true 2 ].

Definition castWideProg : MalBlkRecord :=
  mkMalBlk [sig; hgeCons 2 5 1 6 7; castInstr "hge" 3 2; addInstr 4 3 3] castWideVars.

(** The chain of scenario 4 behind another instruction:
    [u := calc.+(x, x); y := calc.int(x); z := calc.int(y); v := calc.+(z, y)].
    Variables 1 to 5 are [x], [y], [z], [v] and [u], all [int]. *)
Definition lateChainVars : list VarRecord := intVars ++ [mkVar TYPE_int false 0].

Definition lateChainProg : MalBlkRecord :=
  mkMalBlk [sig; mkInstr (Some "calc") (Some "+") 1 [5; 1; 1];
            castInstr "int" 2 1; castInstr "int" 3 2;
            mkInstr (Some "calc") (Some "+") 1 [4; 3; 2]] lateChainVars.

End Gdk.

(** ** Views of a block for the properties of the whole pass *)

(** What the pass never changes in an instruction that it keeps. *)
Definition opcode (p : InstrRecord) : option string * option string * nat * nat :=
  (modname p, fcnname p, retc p, argc p).

(** The opcode of an instruction with the static types of its arguments. *)
Definition signature (mb : MalBlkRecord) (p : InstrRecord)
  : option string * option string * nat * list Z :=
  (modname p, fcnname p, retc p, getVarType mb <$> argv p).

(** A call [batcalc.hge], whatever its shape. *)
Definition isHgeCall (p : InstrRecord) : bool :=
  isRef (getModuleId p) batcalcRef && isRef (getFunctionId p) hgeRef.

(** The instructions from index 1 on: the ones the loop visits. *)
Definition body_of (mb : MalBlkRecord) : list InstrRecord := drop 1 (stmt mb).

Section Views.

Variable getColumnType : Z → Z.
Variable TYPE_hge : Z.

(** Instruction [q'] descends from [q0]: it has the opcode of [q0], and each
    of its slots names a variable of the type of the variable that [q0]
    names there, unless [q0] is a three-argument [batcalc] operator, the
    slot is 1 or 2, the operand of [q0] has the base type of its result and
    the new variable has a base type below it. *)
Definition Descends (mb : MalBlkRecord) (q' q0 : InstrRecord) : Prop :=
  opcode q' = opcode q0
  ∧ ∀ k v' v0, argv q' !! k = Some v' → argv q0 !! k = Some v0 →
      getVarType mb v' = getVarType mb v0
      ∨ (isRef (getModuleId q0) batcalcRef = true
         ∧ isCalcOperator (getFunctionId q0) = true ∧ argc q0 = 3
         ∧ (k = 1 ∨ k = 2)
         ∧ getColumnType (getVarType mb v0)
           = getColumnType (getVarType mb (getArg q0 0))
         ∧ (getColumnType (getVarType mb v') < getColumnType (getVarType mb v0))%Z).

(** The entry of variable [v] in table [T], when the loop stands at index
    [i] of block [mb], describes a constructor that the loop has passed:
    the instruction at [pc] is a wide constructor with constant digits and
    scale, result [v] and source [src], and the other fields are read off
    it. *)
Definition CandidateOf (mb : MalBlkRecord) (i : nat) (T : list Coercion) (v : nat)
  : Prop :=
  let e := T !!! v in
  let q := getInstrPtr mb (pc e) in
  1 ≤ pc e ∧ pc e < i
  ∧ isHgeConstructor mb q = true ∧ getArg q 0 = v ∧ getArg q 2 = src e
  ∧ fromtype e = getColumnType (getVarType mb (src e))
  ∧ totype e = TYPE_hge
  ∧ digits e = getVarConstant mb (getArg q 3)
  ∧ scale e = getVarConstant mb (getArg q 4).

End Views.

(** Every argument of every instruction satisfies [P]. *)
Definition ArgsIn (P : nat → Prop) (l : list InstrRecord) : Prop :=
  ∀ q v, q ∈ l → v ∈ argv q → P v.

(** Variable [v] is an argument of some instruction of the block. *)
Definition occursIn (mb : MalBlkRecord) (v : nat) : Prop :=
  ∃ q, q ∈ stmt mb ∧ v ∈ argv q.

(** ** The function checker of Pathfinder (compiler/semantics/functions.c)

    The abstract syntax tree, the function descriptors and the environment
    are declared in other files.  The tree and the descriptors are modelled
    by what this file reads and writes of them; the types of names, of
    XQuery types, of locations and of environments, the bound on the number
    of children and the two operations of the environment are parameters.
    [PFoops] and [PFoops_loc] do not return: they end the computation with
    an error code.  A failed [assert] and the dereference of a NULL
    pointer end it as well, each with an outcome of its own. *)

Module Pathfinder.

(** The node kinds that the file distinguishes; [p_other] stands for all the
    others. *)
Inductive PFptype_t : Set :=
  | p_nil | p_params | p_args | p_fun_decls | p_fun_decl | p_fun_ref
  | p_apply | p_fun | p_other (k : nat).

Inductive PFoops_t : Set := OOPS_FATAL | OOPS_APPLYERROR | OOPS_FUNCREDEF.

Inductive result (A : Type) : Type :=
  | Ok (a : A)
  | Oops (e : PFoops_t)
  | AssertFailed
  | Undefined.
Arguments Ok {A} a.
Arguments Oops {A} e.
Arguments AssertFailed {A}.
Arguments Undefined {A}.

Definition andThen {A B : Type} (r : result A) (k : A → result B) : result B :=
  match r with
  | Ok a => k a
  | Oops e => Oops e
  | AssertFailed => AssertFailed
  | Undefined => Undefined
  end.

Notation "x <- r ;; k" := (andThen r (λ x, k))
  (at level 100, r at next level, right associativity).

#[global] Instance PFptype_eq_dec : EqDecision PFptype_t.
Proof. solve_decision. Defined.

(** The kind that [check_fun_usage] gives to a node of kind [k]. *)
Definition resolved_kind (k : PFptype_t) : PFptype_t :=
  match k with
  | p_fun_ref => p_apply
  | p_fun_decl => p_fun
  | _ => k
  end.

(** [unsigned int] arithmetic. *)
Definition UINT_MOD : Z := 2 ^ 32.

Section Checker.

Variables PFqname_t PFty_t PFloc_t PFenv_t : Type.

(** [PFfun_t]: name, arity, whether built in, parameter types (NULL is
    [None]) and return type. *)
Record PFfun_t := mkFun {
  qname : PFqname_t;
  arity : Z;
  builtin : bool;
  par_ty : option (list PFty_t);
  ret_ty : PFty_t
}.

(** The semantic value of a node, a union: a name, a pointer to a function
    descriptor, or one of the members that this file does not touch. *)
Inductive PFpsem_t :=
  | sem_qname (q : PFqname_t)
  | sem_fun (f : PFfun_t)
  | sem_other (k : nat).

(** [PFpnode_t]: [child] is the array of pointers to the children, NULL
    being [None]. *)
Unset Elimination Schemes.
Inductive PFpnode_t :=
  | PNode (kind : PFptype_t) (sem : PFpsem_t) (child : list (option PFpnode_t))
      (loc : PFloc_t).
Set Elimination Schemes.

(** Induction on trees: the property holds of a node when it holds of its
    children. *)
Definition OnChild (P : PFpnode_t → Prop) (oc : option PFpnode_t) : Prop :=
  match oc with Some c => P c | None => True end.

Fixpoint PFpnode_ind (P : PFpnode_t → Prop)
    (step : ∀ k s ch l, Forall (OnChild P) ch → P (PNode k s ch l))
    (n : PFpnode_t) : P n :=
  match n with
  | PNode k s ch l =>
      step k s ch l
        ((fix all (cs : list (option PFpnode_t)) : Forall (OnChild P) cs :=
            match cs with
            | [] => @List.Forall_nil _ (OnChild P)
            | oc :: cs' =>
                @List.Forall_cons _ (OnChild P) oc cs'
                  (match oc return OnChild P oc with
                   | Some c => PFpnode_ind P step c
                   | None => I
                   end)
                  (all cs')
            end) ch)
  end.

Definition kind (n : PFpnode_t) : PFptype_t := let 'PNode k _ _ _ := n in k.
Definition sem (n : PFpnode_t) : PFpsem_t := let 'PNode _ s _ _ := n in s.
Definition child (n : PFpnode_t) : list (option PFpnode_t) := let 'PNode _ _ c _ := n in c.
Definition loc (n : PFpnode_t) : PFloc_t := let 'PNode _ _ _ l := n in l.

Variable PFPNODE_MAXCHILD : nat.
Variable PFty_untyped : PFty_t.

(** [PFenv_lookup]: the array of descriptors bound to a name, or NULL. *)
Variable PFenv_lookup : PFenv_t → PFqname_t → option (list PFfun_t).

(** [PFenv_bind]: the environment with the new binding, and whether the
    pointer returned is not NULL. *)
Variable PFenv_bind : PFenv_t → PFqname_t → PFfun_t → PFenv_t * bool.

(** [n->sem.qname]. *)
Definition sem_read_qname (s : PFpsem_t) : result PFqname_t :=
  match s with sem_qname q => Ok q | _ => Undefined end.

(** [*((PFfun_t ** ) PFarray_at (funs, 0))]. *)
Definition PFarray_at0 (funs : list PFfun_t) : result PFfun_t :=
  match funs with f :: _ => Ok f | [] => Undefined end.

Fixpoint formal_args (n : PFpnode_t) : result Z :=
  match n with
  | PNode p_nil _ _ _ => Ok 0%Z
  | PNode p_params _ ch _ =>
      match ch with
      | _ :: Some c :: _ =>
          match formal_args c with
          | Ok r => Ok ((1 + r) mod UINT_MOD)%Z
          | Oops e => Oops e
          | AssertFailed => AssertFailed
          | Undefined => Undefined
          end
      | _ => Undefined
      end
  | PNode _ _ _ _ => Oops OOPS_FATAL
  end.

Fixpoint actual_args (n : PFpnode_t) : result Z :=
  match n with
  | PNode p_nil _ _ _ => Ok 0%Z
  | PNode p_args _ ch _ =>
      match ch with
      | _ :: Some c :: _ =>
          match actual_args c with
          | Ok r => Ok ((1 + r) mod UINT_MOD)%Z
          | Oops e => Oops e
          | AssertFailed => AssertFailed
          | Undefined => Undefined
          end
      | _ => Undefined
      end
  | PNode _ _ _ _ => Oops OOPS_FATAL
  end.

Definition PFfun_new (qn : PFqname_t) (ar : Z) (bi : bool)
    (par_tys : option (list PFty_t)) (ret : option PFty_t) : PFfun_t :=
  mkFun qn ar bi
    (match par_tys with
     | Some tys => if bool_decide (0 < ar)%Z then Some (take (Z.to_nat ar) tys) else None
     | None => None
     end)
    (match ret with Some t => t | None => PFty_untyped end).

Definition fun_add_user (env : PFenv_t) (qn : PFqname_t) (ar : Z) : result PFenv_t :=
  let '(env', bound) := PFenv_bind env qn (PFfun_new qn ar false None None) in
  if bound then Oops OOPS_FUNCREDEF else Ok env'.

Definition add_ufun (env : PFenv_t) (n : PFpnode_t) : result PFenv_t :=
  match child n with
  | Some c0 :: _ =>
      ar <- formal_args c0 ;;
      qn <- sem_read_qname (sem n) ;;
      fun_add_user env qn ar
  | _ => Undefined
  end.

Fixpoint add_ufuns (env : PFenv_t) (n : PFpnode_t) : result PFenv_t :=
  match n with
  | PNode p_nil _ _ _ => Ok env
  | PNode p_fun_decls _ ch _ =>
      match ch with
      | Some d :: rest =>
          match add_ufun env d with
          | Ok env' =>
              match rest with
              | Some c :: _ => add_ufuns env' c
              | _ => Undefined
              end
          | Oops e => Oops e
          | AssertFailed => AssertFailed
          | Undefined => Undefined
          end
      | _ => Undefined
      end
  | PNode _ _ _ _ => Oops OOPS_FATAL
  end.

(** The [switch] of [check_fun_usage], once the children are done. *)
Definition check_node (env : PFenv_t) (k : PFptype_t) (s : PFpsem_t)
    (ch : list (option PFpnode_t)) (l : PFloc_t) : result PFpnode_t :=
  match k with
  | p_fun_ref =>
      qn <- sem_read_qname s ;;
      match PFenv_lookup env qn with
      | None => Oops OOPS_APPLYERROR
      | Some funs =>
          f <- PFarray_at0 funs ;;
          ar <- match ch with Some c0 :: _ => actual_args c0 | _ => Undefined end ;;
          if bool_decide (ar ≠ arity f) then Oops OOPS_APPLYERROR
          else Ok (PNode p_apply (sem_fun f) ch l)
      end
  | p_fun_decl =>
      qn <- sem_read_qname s ;;
      match PFenv_lookup env qn with
      | None => Oops OOPS_FATAL
      | Some funs =>
          f <- PFarray_at0 funs ;;
          Ok (PNode p_fun (sem_fun f) ch l)
      end
  | _ => Ok (PNode k s ch l)
  end.

Fixpoint check_fun_usage (env : PFenv_t) (n : PFpnode_t) {struct n}
  : result PFpnode_t :=
  match n with
  | PNode k s ch l =>
      match
        (fix children (i : nat) (cs : list (option PFpnode_t)) {struct cs}
           : result (list (option PFpnode_t)) :=
           match i, cs with
           | S i', Some c :: cs' =>
               match check_fun_usage env c with
               | Ok c' =>
                   match children i' cs' with
                   | Ok cs'' => Ok (Some c' :: cs'')
                   | Oops e => Oops e
                   | AssertFailed => AssertFailed
                   | Undefined => Undefined
                   end
               | Oops e => Oops e
               | AssertFailed => AssertFailed
               | Undefined => Undefined
               end
           | _, _ => Ok cs
           end) PFPNODE_MAXCHILD ch
      with
      | Ok ch' => check_node env k s ch' l
      | Oops e => Oops e
      | AssertFailed => AssertFailed
      | Undefined => Undefined
      end
  end.

(** The loop over the children, on its own. *)
Fixpoint check_children (env : PFenv_t) (i : nat) (cs : list (option PFpnode_t))
  : result (list (option PFpnode_t)) :=
  match i, cs with
  | S i', Some c :: cs' =>
      c' <- check_fun_usage env c ;;
      cs'' <- check_children env i' cs' ;;
      Ok (Some c' :: cs'')
  | _, _ => Ok cs
  end.

(** [PFfun_clear] sets the global pointer to NULL. *)
Definition PFfun_clear (null : PFenv_t) (_ : PFenv_t) : PFenv_t := null.

(** [PFfun_check]: the environment and the tree that it leaves. *)
Definition PFfun_check (env : PFenv_t) (root : option PFpnode_t)
  : result (PFenv_t * PFpnode_t) :=
  match root with
  | Some r =>
      match child r with
      | Some prolog :: _ =>
          match child prolog with
          | _ :: Some decls :: _ =>
              env' <- add_ufuns env decls ;;
              r' <- check_fun_usage env' r ;;
              Ok (env', r')
          | _ => AssertFailed
          end
      | _ => AssertFailed
      end
  | None => AssertFailed
  end.

(** *** Notions of the statements *)

(** A chain of [k] nodes of kind [kd] linked by their second child and
    closed by a [p_nil] node: the form of parameter and argument lists. *)
Inductive Chain (kd : PFptype_t) : nat → PFpnode_t → Prop :=
  | Chain_nil s ch l : Chain kd 0 (PNode p_nil s ch l)
  | Chain_cons k s c0 c cs l :
      kd ≠ p_nil → Chain kd k c →
      Chain kd (S k) (PNode kd s (c0 :: Some c :: cs) l).

(** The nodes that [check_fun_usage] visits, in the order in which it
    leaves them: below a node, the children up to the first NULL one or up
    to the bound. *)
Fixpoint visited (n : PFpnode_t) : list PFpnode_t :=
  match n with
  | PNode _ _ ch _ =>
      (fix below (i : nat) (cs : list (option PFpnode_t)) {struct cs}
         : list PFpnode_t :=
         match i, cs with
         | S i', Some c :: cs' => visited c ++ below i' cs'
         | _, _ => []
         end) PFPNODE_MAXCHILD ch ++ [n]
  end.

Fixpoint visited_below (i : nat) (cs : list (option PFpnode_t)) : list PFpnode_t :=
  match i, cs with
  | S i', Some c :: cs' => visited c ++ visited_below i' cs'
  | _, _ => []
  end.

(** How the loop over the children takes the array [cs] to [cs']: it
    stops where it visits nothing (at the bound, at the end or at a NULL
    child), or it checks the first child, and the results are related by
    [R]. *)
Inductive Walk (env : PFenv_t) (R : PFpnode_t → PFpnode_t → Prop)
  : nat → list (option PFpnode_t) → list (option PFpnode_t) → Prop :=
  | Walk_stop i cs : visited_below i cs = [] → Walk env R i cs cs
  | Walk_step i c t c' t' :
      check_fun_usage env c = Ok c' → R c c' → Walk env R i t t' →
      Walk env R (S i) (Some c :: t) (Some c' :: t').

(** What the walk leaves of a node whatever the environment: its kind once
    resolved, and its location. *)
Definition walk_tag (n : PFpnode_t) : PFptype_t * PFloc_t :=
  (resolved_kind (kind n), loc n).

(** A reference to a function is resolved in [env]: the node holds a name,
    the name is bound, and the first descriptor bound to it has as many
    parameters as the node has arguments. *)
Definition RefBound (env : PFenv_t) (m : PFpnode_t) : Prop :=
  ∃ q f funs c0 cs,
    sem m = sem_qname q ∧ PFenv_lookup env q = Some (f :: funs)
    ∧ child m = Some c0 :: cs ∧ actual_args c0 = Ok (arity f).

(** A declaration of a function is known in [env]. *)
Definition DeclBound (env : PFenv_t) (m : PFpnode_t) : Prop :=
  ∃ q f funs, sem m = sem_qname q ∧ PFenv_lookup env q = Some (f :: funs).

(** No node that the checker would visit is an unresolved reference or
    declaration. *)
Definition Resolved (n : PFpnode_t) : Prop :=
  ∀ m, m ∈ visited n → kind m ≠ p_fun_ref ∧ kind m ≠ p_fun_decl.

End Checker.

Arguments PNode {PFqname_t PFty_t PFloc_t} kind sem child loc.
Arguments sem_qname {PFqname_t PFty_t} q.
Arguments sem_fun {PFqname_t PFty_t} f.
Arguments sem_other {PFqname_t PFty_t} k.
Arguments mkFun {PFqname_t PFty_t} qname arity builtin par_ty ret_ty.

(** *** An instance of the parameters, and a small query

    Names are strings, types and locations are numbers, at most two children
    per node; the environment is an association list, newest binding first.
    The query declares [f] with one parameter and calls it with one
    argument. *)

Module Example.

Definition env_t : Type := list (string * list (PFfun_t string nat)).

Definition lookup (e : env_t) (q : string) : option (list (PFfun_t string nat)) :=
  snd <$> List.find (λ b, bool_decide (fst b = q)) e.

Definition bind (e : env_t) (q : string) (f : PFfun_t string nat) : env_t * bool :=
  ((q, [f]) :: e, bool_decide (is_Some (lookup e q))).

Definition leaf (k : PFptype_t) (l : nat) : PFpnode_t string nat nat :=
  PNode k (sem_other 0) [None; None] l.

Definition params1 : PFpnode_t string nat nat :=
  PNode p_params (sem_other 0) [Some (leaf (p_other 7) 11); Some (leaf p_nil 12)] 10.

Definition decl_f : PFpnode_t string nat nat :=
  PNode p_fun_decl (sem_qname "f") [Some params1; Some (leaf (p_other 8) 13)] 9.

Definition decls : PFpnode_t string nat nat :=
  PNode p_fun_decls (sem_other 0) [Some decl_f; Some (leaf p_nil 14)] 8.

Definition args1 : PFpnode_t string nat nat :=
  PNode p_args (sem_other 0) [Some (leaf (p_other 9) 21); Some (leaf p_nil 22)] 20.

Definition call_f : PFpnode_t string nat nat :=
  PNode p_fun_ref (sem_qname "f") [Some args1; None] 19.

Definition prolog : PFpnode_t string nat nat :=
  PNode (p_other 1) (sem_other 0) [Some (leaf p_nil 2); Some decls] 1.

Definition query : PFpnode_t string nat nat :=
  PNode (p_other 0) (sem_other 0) [Some prolog; Some call_f] 0.

Definition fun_f : PFfun_t string nat := mkFun "f" 1 false None 0.

Definition env_f : env_t := [("f", [fun_f])].

Definition check_fun_usage_ex :=
  check_fun_usage string nat nat env_t 2 lookup.

Definition PFfun_check_ex :=
  PFfun_check string nat nat env_t 2 0 lookup bind.

End Example.

End Pathfinder.

(** ** Properties *)

Section Properties.

Set Default Proof Using "Type".

Variable getColumnType : Z → Z.
Variable ATOMname : Z → string.
Variable TYPE_hge : Z.
Variable HAVE_HGE : bool.

Local Abbreviation Step := (coercionOptimizerStep ATOMname).
Local Abbreviation CalcStep := (coercionOptimizerCalcStep getColumnType).
Local Abbreviation record := (recordCoercion getColumnType TYPE_hge HAVE_HGE).
Local Abbreviation narrow := (narrowInstr getColumnType).
Local Abbreviation identity := (isIdentityCoercion ATOMname).
Local Abbreviation body := (loopBody getColumnType ATOMname TYPE_hge HAVE_HGE).
Local Abbreviation run := (loop getColumnType ATOMname TYPE_hge HAVE_HGE).
Local Abbreviation sweeps := (sweep getColumnType ATOMname TYPE_hge HAVE_HGE).
Local Abbreviation OPT := (OPTcoercionImplementation getColumnType ATOMname TYPE_hge HAVE_HGE).
Local Abbreviation sound := (coerce_sound getColumnType).
Local Abbreviation Eligible := (NarrowingEligible getColumnType).

(** *** Arrays *)

Lemma insert_lookup_total_id {A} `{!Inhabited A} (l : list A) (i : nat) :
  <[i := l !!! i]> l = l.
Proof.
  destruct (decide (i < length l)) as [Hi|Hi].
  - apply list_insert_id. by apply list_lookup_lookup_total_lt.
  - apply list_insert_ge. lia.
Qed.

Lemma insert_lookup_total_alter {A} `{!Inhabited A} (f : A → A) (l : list A) (i : nat) :
  <[i := f (l !!! i)]> l = alter f i l.
Proof.
  apply list_eq; intros j.
  destruct (decide (i = j)) as [->|Hne].
  - rewrite list_lookup_alter_eq.
    destruct (decide (j < length l)) as [Hj|Hj].
    + rewrite list_lookup_insert_eq by done.
      by rewrite (list_lookup_lookup_total_lt l j Hj).
    + rewrite list_insert_ge by lia.
      rewrite (lookup_ge_None_2 l j) by lia. done.
  - rewrite list_lookup_insert_ne by done. by rewrite list_lookup_alter_ne.
Qed.

Lemma lookup_total_middle {A} `{!Inhabited A} (l1 l2 : list A) (x : A) :
  (l1 ++ x :: l2) !!! length l1 = x.
Proof. by apply list_lookup_total_middle. Qed.

Lemma insert_middle {A} (l1 l2 : list A) (x y : A) :
  <[length l1 := y]> (l1 ++ x :: l2) = l1 ++ y :: l2.
Proof.
  replace (length l1) with (length l1 + 0) by lia.
  by rewrite insert_app_r.
Qed.

(** *** The inner loops of [coercionOptimizerStep] *)

Lemma replaceArgs_lookup (n k a b : nat) (av : list nat) (j : nat) :
  replaceArgs n k a b av !! j =
  if bool_decide (k ≤ j < k + n) then renameVar a b <$> av !! j else av !! j.
Proof.
  revert k av. induction n as [|n IH]; intros k av; simpl.
  - rewrite bool_decide_eq_false_2 by lia. done.
  - rewrite IH.
    assert ((if bool_decide (av !!! k = a) then <[k:=b]> av else av)
            = alter (renameVar a b) k av) as ->.
    { rewrite <- insert_lookup_total_alter. unfold renameVar.
      case_bool_decide; [done|]. by rewrite insert_lookup_total_id. }
    destruct (decide (k = j)) as [->|Hne].
    + rewrite list_lookup_alter_eq.
      rewrite bool_decide_eq_false_2 by lia.
      rewrite bool_decide_eq_true_2 by lia. done.
    + rewrite list_lookup_alter_ne by done.
      repeat case_bool_decide; try done; lia.
Qed.

Lemma replaceUses_substOperands (a b : nat) (p : InstrRecord) :
  replaceUses a b p = substOperands a b p.
Proof.
  unfold replaceUses, substOperands. f_equal.
  apply list_eq; intros j. rewrite replaceArgs_lookup. unfold argc.
  destruct (decide (j < retc p)) as [Hj|Hj].
  - rewrite bool_decide_eq_false_2 by lia.
    destruct (decide (j < length (argv p))) as [Hl|Hl].
    + rewrite lookup_app_l by (rewrite length_take; lia).
      by rewrite lookup_take_lt.
    + rewrite (lookup_ge_None_2 (argv p)) by lia.
      symmetry. apply lookup_ge_None_2.
      rewrite length_app, length_take, length_fmap, length_drop. lia.
  - destruct (decide (j < length (argv p))) as [Hl|Hl].
    + rewrite bool_decide_eq_true_2 by lia.
      rewrite lookup_app_r by (rewrite length_take; lia).
      rewrite length_take, list_lookup_fmap, lookup_drop.
      do 2 f_equal. lia.
    + rewrite (lookup_ge_None_2 (argv p)) by lia.
      rewrite lookup_ge_None_2.
      * by case_bool_decide.
      * rewrite length_app, length_take, length_fmap, length_drop. lia.
Qed.

Lemma rewriteFrom_var (n i a b : nat) (mb : MalBlkRecord) :
  var (rewriteFrom n i a b mb) = var mb.
Proof. revert i mb. induction n as [|n IH]; intros i mb; simpl; [done|]. by rewrite IH. Qed.

Lemma rewriteFrom_lookup (n i a b : nat) (mb : MalBlkRecord) (j : nat) :
  stmt (rewriteFrom n i a b mb) !! j =
  if bool_decide (i ≤ j < i + n) then substOperands a b <$> stmt mb !! j
  else stmt mb !! j.
Proof.
  revert i mb. induction n as [|n IH]; intros i mb; simpl.
  - rewrite bool_decide_eq_false_2 by lia. done.
  - rewrite IH. unfold setInstr, getInstrPtr; simpl.
    rewrite (insert_lookup_total_alter (replaceUses a b)).
    destruct (decide (i = j)) as [->|Hne].
    + rewrite list_lookup_alter_eq.
      rewrite bool_decide_eq_false_2 by lia.
      rewrite bool_decide_eq_true_2 by lia.
      destruct (stmt mb !! j); simpl; [|done].
      by rewrite replaceUses_substOperands.
    + rewrite list_lookup_alter_ne by done.
      repeat case_bool_decide; try done; lia.
Qed.

(** The outer loop, started at the index of the removed instruction and run
    to the end of the block, renames the operands of the whole suffix. *)
Lemma rewriteFrom_split (a b : nat) (pre rest : list InstrRecord) (vars : list VarRecord) :
  rewriteFrom (length rest) (length pre) a b (mkMalBlk (pre ++ rest) vars)
  = mkMalBlk (pre ++ (substOperands a b <$> rest)) vars.
Proof.
  pose proof (rewriteFrom_var (length rest) (length pre) a b (mkMalBlk (pre ++ rest) vars)) as Hv.
  pose proof (rewriteFrom_lookup (length rest) (length pre) a b (mkMalBlk (pre ++ rest) vars)) as Hs.
  destruct (rewriteFrom _ _ _ _ _) as [st vs]; simpl in *. subst vs. f_equal.
  apply list_eq; intros j. rewrite Hs.
  destruct (decide (j < length pre)) as [Hj|Hj].
  - rewrite bool_decide_eq_false_2 by lia. by rewrite !lookup_app_l by done.
  - rewrite !lookup_app_r by lia. rewrite list_lookup_fmap.
    destruct (decide (j < length pre + length rest)) as [Hl|Hl].
    + by rewrite bool_decide_eq_true_2 by lia.
    + rewrite bool_decide_eq_false_2 by lia.
      rewrite lookup_ge_None_2 by lia. done.
Qed.

(** *** [coercionOptimizerStep] and [coercionOptimizerCalcStep] on a block
    split at the current index *)

Lemma coercionOptimizerStep_split (pre rest : list InstrRecord) (p : InstrRecord)
    (vars : list VarRecord) :
  let mb := mkMalBlk (pre ++ p :: rest) vars in
  Step mb (length pre) p =
  if bool_decide (getVarType mb (getArg p 0) = getVarType mb (getArg p 1))
     && strcmp0 (getFunctionId p) (ATOMname (getVarType mb (getArg p 1)))
  then (mkMalBlk (pre ++ (substOperands (getArg p 0) (getArg p 1) <$> rest)) vars, 1)
  else (mb, 0).
Proof.
  intros mb. unfold coercionOptimizerStep.
  case_bool_decide; simpl; [|done].
  destruct (strcmp0 _ _); [|done].
  unfold removeInstruction, mb; simpl. rewrite delete_middle.
  unfold stop; simpl. rewrite length_app.
  replace (length pre + length rest - length pre) with (length rest) by lia.
  by rewrite rewriteFrom_split.
Qed.

Lemma narrow_shape (mb : MalBlkRecord) (T : list Coercion) (p : InstrRecord) :
  modname (narrow mb T p) = modname p ∧ fcnname (narrow mb T p) = fcnname p
  ∧ retc (narrow mb T p) = retc p ∧ argc (narrow mb T p) = argc p
  ∧ getArg (narrow mb T p) 0 = getArg p 0.
Proof.
  unfold narrowInstr.
  destruct (isRef _ _ && isCalcOperator _ && bool_decide (argc p = 3)) eqn:E; [|done].
  simpl. repeat split; try done.
  apply andb_prop in E as [_ E]. by apply bool_decide_eq_true in E.
Qed.

Lemma coercionOptimizerCalcStep_instr (mb : MalBlkRecord) (i : nat) (T : list Coercion) :
  CalcStep mb i T = setInstr mb i (narrow mb T (getInstrPtr mb i)).
Proof.
  assert (setInstr mb i (getInstrPtr mb i) = mb) as Hid.
  { unfold setInstr, getInstrPtr. rewrite insert_lookup_total_id. by destruct mb. }
  unfold coercionOptimizerCalcStep, narrowInstr.
  revert Hid. generalize (getInstrPtr mb i). intros [m f r av] Hid.
  unfold getModuleId, getFunctionId, argc, getArg, setArg; simpl.
  destruct (isRef m batcalcRef); simpl; [|done].
  case_bool_decide as Hf; simpl.
  { subst f. simpl. by rewrite Hid. }
  destruct (isCalcOperator f); simpl; [|done].
  case_bool_decide as Hc; simpl; [|done].
  destruct av as [|x0 [|x1 [|x2 [|]]]]; simplify_eq/=.
  f_equal.
  destruct (narrowable _ _ _ x1); simpl; by destruct (narrowable _ _ _ x2).
Qed.

Lemma coercionOptimizerCalcStep_split (pre rest : list InstrRecord) (p : InstrRecord)
    (vars : list VarRecord) (T : list Coercion) :
  let mb := mkMalBlk (pre ++ p :: rest) vars in
  CalcStep mb (length pre) T = mkMalBlk (pre ++ narrow mb T p :: rest) vars.
Proof.
  intros mb. rewrite coercionOptimizerCalcStep_instr.
  unfold setInstr, getInstrPtr, mb; simpl.
  by rewrite lookup_total_middle, insert_middle.
Qed.

(** *** The loop, one round at a time *)

(** The helpers read a block through its variable table only. *)
Lemma record_ext (mb mb' : MalBlkRecord) (i : nat) (p : InstrRecord) (T : list Coercion) :
  var mb = var mb' → record mb i p T = record mb' i p T.
Proof.
  intros H. unfold recordCoercion, isHgeConstructor, isVarConstant,
    getVarConstant, getArgType, getVarType. by rewrite H.
Qed.

Lemma narrow_ext (mb mb' : MalBlkRecord) (T : list Coercion) (p : InstrRecord) :
  var mb = var mb' → narrow mb T p = narrow mb' T p.
Proof. intros H. unfold narrowInstr, getVarType. by rewrite H. Qed.

Lemma identity_ext (mb mb' : MalBlkRecord) (p : InstrRecord) :
  var mb = var mb' → identity mb p = identity mb' p.
Proof. intros H. unfold isIdentityCoercion, getVarType. by rewrite H. Qed.

Lemma loopBody_split (pre rest : list InstrRecord) (p : InstrRecord)
    (vars : list VarRecord) (T : list Coercion) (acts : nat) :
  let mb := mkMalBlk (pre ++ p :: rest) vars in
  body (mkLoop mb (length pre) T acts) =
  match getModuleId p with
  | None => mkLoop mb (length pre) T acts
  | Some _ =>
      let T1 := record mb (length pre) p T in
      let p1 := narrow mb T1 p in
      if identity mb p1 then
        mkLoop (mkMalBlk (pre ++ (substOperands (getArg p1 0) (getArg p1 1) <$> rest)) vars)
          (length pre - 1) T1 (acts + 1)
      else mkLoop (mkMalBlk (pre ++ p1 :: rest) vars) (length pre) T1 acts
  end.
Proof.
  intros mb.
  assert (getInstrPtr mb (length pre) = p) as Hp.
  { unfold getInstrPtr, mb; simpl. apply lookup_total_middle. }
  unfold loopBody. cbn [ls_mb ls_i ls_coerce ls_actions]. rewrite Hp.
  destruct (getModuleId p) eqn:Hm; [|done].
  cbv zeta.
  set (T1 := record mb (length pre) p T).
  set (p1 := narrow mb T1 p).
  assert (CalcStep mb (length pre) T1 = mkMalBlk (pre ++ p1 :: rest) vars) as Hc
    by apply coercionOptimizerCalcStep_split.
  rewrite !Hc.
  assert (getInstrPtr (mkMalBlk (pre ++ p1 :: rest) vars) (length pre) = p1) as Hp1.
  { unfold getInstrPtr; simpl. apply lookup_total_middle. }
  rewrite Hp1. unfold isIdentityCoercion.
  destruct (isRef (getModuleId p1) calcRef && bool_decide (argc p1 = 2)) eqn:E;
    simpl; [|done].
  rewrite coercionOptimizerStep_split. unfold getVarType; simpl.
  destruct (bool_decide _ && strcmp0 _ _); simpl; [done|].
  by rewrite Nat.add_0_r.
Qed.

Lemma loop_S (n : nat) (s : LoopState) :
  run (S n) s =
  if bool_decide (ls_i s < stop (ls_mb s)) then
    run n (mkLoop (ls_mb (body s)) (S (ls_i (body s))) (ls_coerce (body s))
             (ls_actions (body s)))
  else s.
Proof. done. Qed.

Lemma sweep_cons (n i : nat) (mb0 : MalBlkRecord) (T : list Coercion)
    (p : InstrRecord) (rest : list InstrRecord) :
  sweeps (S n) i mb0 T (p :: rest) =
  match getModuleId p with
  | None => let '(out, T', c) := sweeps n (S i) mb0 T rest in (p :: out, T', c)
  | Some _ =>
      let T1 := record mb0 i p T in
      let p1 := narrow mb0 T1 p in
      if identity mb0 p1 then
        let '(out, T', c) :=
          sweeps n i mb0 T1 (substOperands (getArg p1 0) (getArg p1 1) <$> rest) in
        (out, T', S c)
      else let '(out, T', c) := sweeps n (S i) mb0 T1 rest in (p1 :: out, T', c)
  end.
Proof. done. Qed.

(** The loop computes [sweep]: on a block split into the instructions
    already passed and those still ahead, it leaves the former alone and
    replaces the latter by what [sweep] returns. *)
Lemma loop_sweep (n : nat) :
  ∀ (pre rest : list InstrRecord) (vars : list VarRecord) (T : list Coercion)
    (acts : nat) (mb0 : MalBlkRecord) (s : LoopState)
    (out : list InstrRecord) (T' : list Coercion) (c : nat),
    var mb0 = vars → pre ≠ [] →
    run n (mkLoop (mkMalBlk (pre ++ rest) vars) (length pre) T acts) = s →
    sweeps n (length pre) mb0 T rest = (out, T', c) →
    ls_mb s = mkMalBlk (pre ++ out) vars ∧ ls_coerce s = T'
    ∧ ls_actions s = acts + c
    ∧ (length rest ≤ n → ls_i s = length (pre ++ out)).
Proof.
  induction n as [|n IH]; intros pre rest vars T acts mb0 s out T' c Hv Hpre Hs Hw.
  { simpl in Hs, Hw. simplify_eq. simpl. rewrite Nat.add_0_r.
    repeat split; try done.
    intros Hl. destruct out; [by rewrite app_nil_r|]. simpl in Hl. lia. }
  destruct rest as [|p rest].
  { simpl in Hw. simplify_eq. rewrite loop_S.
    unfold stop; simpl.
    rewrite bool_decide_eq_false_2 by (rewrite app_nil_r; lia).
    simpl. rewrite Nat.add_0_r, app_nil_r. done. }
  assert (0 < length pre) as Hlen by (destruct pre; [done|simpl; lia]).
  assert (pre ++ [p] ≠ []) as Hpre1 by (by destruct pre).
  rewrite loop_S in Hs. unfold stop in Hs. cbn [ls_i ls_mb stmt] in Hs.
  rewrite bool_decide_eq_true_2 in Hs by (rewrite length_app; simpl; lia).
  rewrite loopBody_split in Hs. rewrite sweep_cons in Hw.
  set (mb := mkMalBlk (pre ++ p :: rest) vars) in *.
  destruct (getModuleId p) eqn:Hm.
  - cbv zeta in Hs, Hw.
    rewrite (record_ext mb0 mb) in Hw by done.
    set (T1 := record mb (length pre) p T) in *.
    rewrite (narrow_ext mb0 mb) in Hw by done.
    set (p1 := narrow mb T1 p) in *.
    rewrite (identity_ext mb0 mb) in Hw by done.
    destruct (identity mb p1) eqn:Hid; cbn [ls_mb ls_i ls_coerce ls_actions] in Hs.
    + replace (S (length pre - 1)) with (length pre) in Hs by lia.
      destruct (sweeps n (length pre) mb0 T1 _) as [[out1 T1'] c1] eqn:Hw1.
      simplify_eq.
      destruct (IH pre _ (var mb0) T1 (acts + 1) mb0 _ _ _ _ eq_refl Hpre eq_refl Hw1)
        as (H1 & H2 & H3 & H4).
      repeat split; try done; [lia|].
      intros Hl. apply H4. rewrite length_fmap. simpl in Hl. lia.
    + destruct (sweeps n (S (length pre)) mb0 T1 rest) as [[out1 T1'] c1] eqn:Hw1.
      simplify_eq.
      replace (pre ++ p1 :: rest) with ((pre ++ [p1]) ++ rest)
        by (by rewrite <- (assoc_L (++))).
      replace (S (length pre)) with (length (pre ++ [p1])) in *
        by (rewrite length_app; simpl; lia).
      assert (pre ++ [p1] ≠ []) as Hpre2 by (by destruct pre).
      destruct (IH (pre ++ [p1]) rest (var mb0) T1 acts mb0 _ _ _ _ eq_refl Hpre2 eq_refl Hw1)
        as (H1 & H2 & H3 & H4).
      replace (pre ++ p1 :: out1) with ((pre ++ [p1]) ++ out1)
        by (by rewrite <- (assoc_L (++))).
      split; [done|]. split; [done|]. split; [done|].
      intros Hl. apply H4. simpl in Hl. lia.
  - cbn [ls_mb ls_i ls_coerce ls_actions] in Hs.
    destruct (sweeps n (S (length pre)) mb0 T rest) as [[out1 T1'] c1] eqn:Hw1.
    simplify_eq. unfold mb.
    replace (pre ++ p :: rest) with ((pre ++ [p]) ++ rest)
      by (by rewrite <- (assoc_L (++))).
    replace (S (length pre)) with (length (pre ++ [p])) in *
      by (rewrite length_app; simpl; lia).
    destruct (IH (pre ++ [p]) rest (var mb0) T acts mb0 _ _ _ _ eq_refl Hpre1 eq_refl Hw1)
      as (H1 & H2 & H3 & H4).
    replace (pre ++ p :: out1) with ((pre ++ [p]) ++ out1)
      by (by rewrite <- (assoc_L (++))).
    split; [done|]. split; [done|]. split; [done|].
    intros Hl. apply H4. simpl in Hl. lia.
Qed.

(** *** Facts about the table and the two rewriters *)

Lemma isCalcOperator_not_hge (id : option string) :
  isCalcOperator id = true → isRef id hgeRef = false.
Proof.
  unfold isCalcOperator, isRef. intros H.
  apply bool_decide_eq_false. intros ->. by vm_compute in H.
Qed.

Lemma isRef_calc_not_batcalc (id : option string) :
  isRef id calcRef = true → isRef id batcalcRef = false.
Proof.
  unfold isRef. intros H%bool_decide_eq_true. subst id.
  by apply bool_decide_eq_false.
Qed.

Lemma narrow_not_batcalc (mb : MalBlkRecord) (T : list Coercion) (p : InstrRecord) :
  isRef (getModuleId p) batcalcRef = false → narrow mb T p = p.
Proof. intros H. unfold narrowInstr. by rewrite H. Qed.

Lemma narrow_not_operator (mb : MalBlkRecord) (T : list Coercion) (p : InstrRecord) :
  isCalcOperator (getFunctionId p) = false → narrow mb T p = p.
Proof. intros H. unfold narrowInstr. rewrite H. by rewrite andb_false_r. Qed.

Lemma record_not_hge (mb : MalBlkRecord) (i : nat) (p : InstrRecord) (T : list Coercion) :
  isRef (getModuleId p) batcalcRef && isRef (getFunctionId p) hgeRef = false →
  record mb i p T = T.
Proof.
  intros H. unfold recordCoercion, isHgeConstructor. rewrite H. simpl.
  by rewrite andb_false_r.
Qed.

Lemma record_calc (mb : MalBlkRecord) (i : nat) (p : InstrRecord) (T : list Coercion) :
  isRef (getModuleId p) calcRef = true → record mb i p T = T.
Proof.
  intros H. apply record_not_hge. by rewrite (isRef_calc_not_batcalc _ H).
Qed.

Lemma record_narrow (mb : MalBlkRecord) (i : nat) (p : InstrRecord) (T T1 : list Coercion) :
  record mb i (narrow mb T1 p) T = record mb i p T.
Proof.
  destruct (isCalcOperator (getFunctionId p)) eqn:E.
  - destruct (narrow_shape mb T1 p) as (Hm & Hf & _).
    rewrite !record_not_hge; [done| |].
    + by rewrite (isCalcOperator_not_hge _ E), andb_false_r.
    + unfold getFunctionId in *. rewrite Hf.
      by rewrite (isCalcOperator_not_hge _ E), andb_false_r.
  - by rewrite narrow_not_operator.
Qed.

Lemma record_lookup (mb : MalBlkRecord) (i : nat) (p : InstrRecord) (T : list Coercion)
    (v : nat) :
  record mb i p T !!! v = T !!! v
  ∨ (HAVE_HGE = true ∧ isHgeConstructor mb p = true ∧ getArg p 0 = v
     ∧ src (record mb i p T !!! v) = getArg p 2
     ∧ fromtype (record mb i p T !!! v) = getColumnType (getArgType mb p 2)).
Proof.
  unfold recordCoercion.
  destruct (HAVE_HGE && isHgeConstructor mb p) eqn:E; [|by left].
  apply andb_prop in E as [E1 E2].
  destruct (decide (getArg p 0 = v)) as [Heq|Hne].
  - destruct (decide (v < length T)) as [Hv|Hv].
    + right. rewrite Heq. rewrite list_lookup_total_insert_eq by done. done.
    + left. rewrite list_insert_ge by lia. done.
  - left. by rewrite list_lookup_total_insert_ne.
Qed.

Lemma record_sound (mb : MalBlkRecord) (i : nat) (p : InstrRecord) (T : list Coercion) :
  sound mb T → sound mb (record mb i p T).
Proof.
  intros HT v Hv.
  destruct (record_lookup mb i p T v) as [Heq|(_ & _ & _ & Hs & Hf)].
  - rewrite Heq in *. by apply HT.
  - rewrite Hs, Hf. done.
Qed.

Lemma zero_table_lookup (n v : nat) : replicate n Coercion_zero !!! v = Coercion_zero.
Proof.
  destruct (decide (v < n)) as [Hv|Hv].
  - by apply lookup_total_replicate_2.
  - rewrite list_lookup_total_alt, (lookup_ge_None_2 _ v); [done|].
    rewrite length_replicate. lia.
Qed.

Lemma zero_table_sound (mb : MalBlkRecord) (n : nat) :
  sound mb (replicate n Coercion_zero).
Proof. intros v Hv. by rewrite zero_table_lookup in Hv. Qed.

Lemma narrow_operator (mb : MalBlkRecord) (T : list Coercion)
    (m f : option string) (r x0 x1 x2 : nat) :
  isRef m batcalcRef = true → isCalcOperator f = true →
  narrow mb T (mkInstr m f r [x0; x1; x2]) =
  mkInstr m f r
    [ x0;
      if narrowable T (getColumnType (getVarType mb x0))
           (getColumnType (getVarType mb x1)) x1 then src (T !!! x1) else x1;
      if narrowable T (getColumnType (getVarType mb x0))
           (getColumnType (getVarType mb x2)) x2 then src (T !!! x2) else x2 ].
Proof.
  intros Em Ef. unfold narrowInstr, getModuleId, getFunctionId, argc, getArg.
  cbn [modname fcnname retc argv]. rewrite Em, Ef. done.
Qed.

(** Once an operand has been narrowed it is not narrowed again: its base
    type is the recorded source type, which lies below the result type. *)
Lemma narrow_idem (mb : MalBlkRecord) (T : list Coercion) (p : InstrRecord) :
  sound mb T → narrow mb T (narrow mb T p) = narrow mb T p.
Proof.
  intros HT.
  assert (∀ r a v, narrowable T r a v = true →
            narrowable T r (getColumnType (getVarType mb (src (T !!! v))))
              (src (T !!! v)) = false) as Hn.
  { intros r a v. unfold narrowable. rewrite !andb_true_iff.
    intros [[_ H2] H3]. apply negb_true_iff, bool_decide_eq_false in H2.
    apply bool_decide_eq_true in H3. rewrite <- (HT v H2).
    rewrite (bool_decide_eq_false_2 (fromtype (T !!! v) = r)) by lia. done. }
  destruct p as [m f r av].
  destruct (isRef m batcalcRef) eqn:Em;
    [|by rewrite !(narrow_not_batcalc mb T (mkInstr m f r av)) by done].
  destruct (isCalcOperator f) eqn:Ef;
    [|by rewrite !(narrow_not_operator mb T (mkInstr m f r av)) by done].
  destruct (decide (length av = 3)) as [Hc|Hc].
  2:{ assert (∀ q, argc q ≠ 3 → narrow mb T q = q) as Hq.
      { intros q Hq. unfold narrowInstr. rewrite bool_decide_eq_false_2 by done.
        by rewrite andb_false_r. }
      by rewrite !(Hq (mkInstr m f r av)) by done. }
  destruct av as [|x0 [|x1 [|x2 [|]]]]; simplify_eq/=.
  rewrite !narrow_operator by done.
  do 2 f_equal. f_equal; [|f_equal].
  - destruct (narrowable T _ _ x1) eqn:E1.
    + by rewrite (Hn _ _ _ E1).
    + by rewrite E1.
  - destruct (narrowable T _ _ x2) eqn:E2.
    + by rewrite (Hn _ _ _ E2).
    + by rewrite E2.
Qed.

(** *** Facts about [sweep] *)

Lemma sweep_nil (n i : nat) (mb0 : MalBlkRecord) (T : list Coercion) :
  sweeps n i mb0 T [] = ([], T, 0).
Proof. by destruct n. Qed.

Lemma identity_calc (mb : MalBlkRecord) (p : InstrRecord) :
  identity mb p = true → isRef (getModuleId p) calcRef = true.
Proof. unfold isIdentityCoercion. rewrite !andb_true_iff. by intros [[[? ?] ?] ?]. Qed.

(** The instructions left and the removals counted add up to the
    instructions given. *)
Lemma sweep_length (n : nat) :
  ∀ (i : nat) (mb0 : MalBlkRecord) (T : list Coercion) (rest out : list InstrRecord)
    (T' : list Coercion) (c : nat),
    sweeps n i mb0 T rest = (out, T', c) → length out + c = length rest.
Proof.
  induction n as [|n IH]; intros i mb0 T rest out T' c Hw.
  { simpl in Hw. simplify_eq. lia. }
  destruct rest as [|p rest]; [rewrite sweep_nil in Hw; by simplify_eq|].
  rewrite sweep_cons in Hw.
  destruct (getModuleId p).
  - cbv zeta in Hw. destruct (identity mb0 _).
    + destruct (sweeps n i mb0 _ _) as [[o t] k] eqn:E. simplify_eq.
      apply IH in E. rewrite length_fmap in E. simpl. lia.
    + destruct (sweeps n (S i) mb0 _ _) as [[o t] k] eqn:E. simplify_eq.
      apply IH in E. simpl. lia.
  - destruct (sweeps n (S i) mb0 _ _) as [[o t] k] eqn:E. simplify_eq.
    apply IH in E. simpl. lia.
Qed.

(** Sweeping what a sweep has left changes nothing and removes nothing. *)
Lemma sweep_idem (n : nat) :
  ∀ (m i : nat) (mb0 : MalBlkRecord) (T : list Coercion) (rest out : list InstrRecord)
    (T' : list Coercion) (c : nat),
    length rest ≤ n → length out ≤ m → sound mb0 T →
    sweeps n i mb0 T rest = (out, T', c) →
    sweeps m i mb0 T out = (out, T', 0).
Proof.
  induction n as [|n IH]; intros m i mb0 T rest out T' c Hn Hm HT Hw.
  { destruct rest; [|simpl in Hn; lia]. simpl in Hw. simplify_eq.
    apply sweep_nil. }
  destruct rest as [|p rest].
  { rewrite sweep_nil in Hw. simplify_eq. apply sweep_nil. }
  simpl in Hn. rewrite sweep_cons in Hw.
  destruct (getModuleId p) eqn:Hmod.
  - cbv zeta in Hw.
    set (T1 := record mb0 i p T) in *.
    set (p1 := narrow mb0 T1 p) in *.
    assert (sound mb0 T1) as HT1 by (by apply record_sound).
    destruct (identity mb0 p1) eqn:Hid.
    + destruct (sweeps n i mb0 T1 _) as [[o t] k] eqn:E. simplify_eq.
      assert (T1 = T) as HTT.
      { apply record_calc. apply identity_calc in Hid.
        destruct (narrow_shape mb0 T1 p) as (Hs & _).
        unfold getModuleId in *. fold p1 in Hs. by rewrite <- Hs. }
      rewrite HTT in E.
      refine (IH m i mb0 T _ out T' k _ Hm HT E).
      rewrite length_fmap. lia.
    + destruct (sweeps n (S i) mb0 T1 rest) as [[o t] k] eqn:E. simplify_eq.
      destruct m as [|m]; [simpl in Hm; lia|]. simpl in Hm.
      rewrite sweep_cons.
      destruct (narrow_shape mb0 T1 p) as (Hs & _). fold p1 in Hs.
      assert (record mb0 i p1 T = T1) as HR by (unfold p1; apply record_narrow).
      assert (narrow mb0 T1 p1 = p1) as HN by (unfold p1; by apply narrow_idem).
      unfold getModuleId in *. rewrite Hs, Hmod. cbv zeta.
      rewrite !HR, !HN, Hid.
      rewrite (IH m (S i) mb0 T1 rest o T' c); [done|lia|lia|done|done].
  - destruct (sweeps n (S i) mb0 T rest) as [[o t] k] eqn:E. simplify_eq.
    destruct m as [|m]; [simpl in Hm; lia|]. simpl in Hm.
    rewrite sweep_cons, Hmod.
    rewrite (IH m (S i) mb0 T rest o T' c); [done|lia|lia|done|done].
Qed.

Lemma sweep_ext (n : nat) :
  ∀ (i : nat) (mb0 mb1 : MalBlkRecord) (T : list Coercion) (rest : list InstrRecord),
    var mb0 = var mb1 → sweeps n i mb0 T rest = sweeps n i mb1 T rest.
Proof.
  induction n as [|n IH]; intros i mb0 mb1 T rest Hv; [done|].
  destruct rest as [|p rest]; [done|].
  rewrite !sweep_cons. destruct (getModuleId p).
  - cbv zeta. rewrite (record_ext mb0 mb1) by done.
    rewrite (narrow_ext mb0 mb1) by done.
    rewrite (identity_ext mb0 mb1) by done.
    destruct (identity mb1 _); by rewrite (IH _ mb0 mb1).
  - by rewrite (IH _ mb0 mb1).
Qed.

(** *** The pass as a sweep *)

Lemma OPT_fail (mb : MalBlkRecord) : OPT false mb = (mb, 0).
Proof. done. Qed.

Lemma OPT_empty (vars : list VarRecord) :
  OPT true (mkMalBlk [] vars) = (mkMalBlk [] vars, 0).
Proof. done. Qed.

Lemma OPT_sweep (sig : InstrRecord) (rest out : list InstrRecord)
    (vars : list VarRecord) (T' : list Coercion) (c : nat) :
  sweeps (S (length rest)) 1 (mkMalBlk (sig :: rest) vars)
    (replicate (length vars) Coercion_zero) rest = (out, T', c) →
  OPT true (mkMalBlk (sig :: rest) vars) = (mkMalBlk (sig :: out) vars, c).
Proof.
  intros Hw. unfold OPTcoercionImplementation, GDKzalloc, loopInit, vtop, stop.
  cbn [stmt var length].
  destruct (loop_sweep (S (length rest)) [sig] rest vars
              (replicate (length vars) Coercion_zero) 0
              (mkMalBlk (sig :: rest) vars) _ out T' c eq_refl
              ltac:(done) eq_refl Hw) as (H1 & _ & H3 & _).
  f_equal; [exact H1|exact H3].
Qed.

(** The loop is left because its condition fails, not because the rounds
    granted to it are used up. *)
Lemma loop_exits (mb : MalBlkRecord) (T : list Coercion) :
  let s := run (stop mb) (loopInit mb T) in
  ¬ (ls_i s < stop (ls_mb s)).
Proof.
  destruct mb as [[|sig rest] vars].
  { simpl. unfold stop. simpl. lia. }
  cbv zeta.
  change (run (stop (mkMalBlk (sig :: rest) vars)) (loopInit _ T))
    with (run (S (length rest)) (mkLoop (mkMalBlk (sig :: rest) vars) 1 T 0)).
  destruct (sweeps (S (length rest)) 1 (mkMalBlk (sig :: rest) vars) T rest)
    as [[out T'] c] eqn:Hw.
  destruct (loop_sweep (S (length rest)) [sig] rest vars T 0
              (mkMalBlk (sig :: rest) vars) _ out T' c eq_refl
              ltac:(done) eq_refl Hw) as (H1 & _ & _ & H4).
  cbn [app length] in H1, H4. rewrite H1, H4 by lia.
  unfold stop. simpl. lia.
Qed.

Lemma sweep_fuel (n : nat) :
  ∀ (m i : nat) (mb0 : MalBlkRecord) (T : list Coercion) (rest : list InstrRecord),
    length rest ≤ n → length rest ≤ m →
    sweeps n i mb0 T rest = sweeps m i mb0 T rest.
Proof.
  induction n as [|n IH]; intros m i mb0 T rest Hn Hm.
  { destruct rest; [|simpl in Hn; lia]. by rewrite !sweep_nil. }
  destruct rest as [|p rest]; [by rewrite !sweep_nil|].
  destruct m as [|m]; [simpl in Hm; lia|]. simpl in Hn, Hm.
  rewrite !sweep_cons. destruct (getModuleId p).
  - cbv zeta. destruct (identity mb0 _).
    + rewrite (IH m) by (rewrite ?length_fmap; lia). done.
    + rewrite (IH m) by lia. done.
  - rewrite (IH m) by lia. done.
Qed.

Lemma OPT_sweep_eq (sig : InstrRecord) (rest : list InstrRecord) (vars : list VarRecord) :
  OPT true (mkMalBlk (sig :: rest) vars) =
  let '(out, _, c) :=
    sweeps (length rest) 1 (mkMalBlk [] vars) (replicate (length vars) Coercion_zero) rest in
  (mkMalBlk (sig :: out) vars, c).
Proof.
  destruct (sweeps (length rest) 1 _ _ rest) as [[out T'] c] eqn:Hw.
  apply (OPT_sweep _ _ _ _ T').
  rewrite (sweep_fuel _ (length rest)) by lia.
  by rewrite (sweep_ext _ _ _ (mkMalBlk [] vars)).
Qed.

(** ** The properties of the pass *)

(** C5.  When the allocation of the candidate table fails, the pass returns
    0 and the block it was given, untouched. *)
Theorem allocation_failure_leaves_block (mb : MalBlkRecord) :
  OPT false mb = (mb, 0).
Proof.
  unfold OPTcoercionImplementation, GDKzalloc. done.
Qed.

(** C6, amended.  The number returned is the number of instructions the
    Identity-Coercion Eliminator removed: the block handed back and the
    count add up to the length of the block handed in.  Operand slots
    rewritten by the Narrowing Rewriter are not counted. *)
Theorem actions_count_removed_instructions (succeeds : bool) (mb : MalBlkRecord) :
  stop (OPT succeeds mb).1 + (OPT succeeds mb).2 = stop mb.
Proof.
  destruct succeeds; [|rewrite OPT_fail; simpl; lia].
  destruct mb as [[|sig rest] vars]; [done|].
  rewrite OPT_sweep_eq.
  destruct (sweeps (length rest) 1 _ _ rest) as [[out T'] c] eqn:Hw.
  apply sweep_length in Hw. unfold stop. simpl. lia.
Qed.

(** C8.  A block that the pass has produced is a fixed point of the pass:
    a second run gives the same block back and returns 0, whether or not its
    own table can be allocated. *)
Theorem second_run_changes_nothing (succeeds : bool) (mb : MalBlkRecord) :
  OPT succeeds (OPT true mb).1 = ((OPT true mb).1, 0).
Proof.
  destruct succeeds; [|by rewrite OPT_fail].
  destruct mb as [[|sig rest] vars]; [done|].
  rewrite OPT_sweep_eq.
  destruct (sweeps (length rest) 1 _ _ rest) as [[out T'] c] eqn:Hw.
  simpl. rewrite OPT_sweep_eq.
  rewrite (sweep_idem (length rest) (length out) 1 _ _ rest out T' c);
    [done|lia|lia| |done].
  apply zero_table_sound.
Qed.

(** The recorder marks the entry that it writes, and it never takes a mark
    away. *)
Lemma record_marks (mb : MalBlkRecord) (i : nat) (p : InstrRecord) (T : list Coercion) :
  HAVE_HGE = true → isHgeConstructor mb p = true → getArg p 0 < length T → 1 ≤ i →
  CandidateRecorded (record mb i p T) (getArg p 0).
Proof.
  intros Hh Hc Hk Hi. unfold CandidateRecorded, recordCoercion. rewrite Hh, Hc. simpl.
  rewrite list_lookup_total_insert_eq by done.
  intros E. apply (f_equal pc) in E. simpl in E. lia.
Qed.

Lemma record_keeps_mark (mb : MalBlkRecord) (i : nat) (p : InstrRecord)
    (T : list Coercion) (v : nat) :
  1 ≤ i → CandidateRecorded T v → CandidateRecorded (record mb i p T) v.
Proof.
  intros Hi Hv. unfold CandidateRecorded, recordCoercion in *.
  destruct (HAVE_HGE && isHgeConstructor mb p); [|done].
  destruct (decide (getArg p 0 = v)) as [<-|Hne].
  - destruct (decide (getArg p 0 < length T)) as [Hk|Hk].
    + rewrite list_lookup_total_insert_eq by done.
      intros E. apply (f_equal pc) in E. simpl in E. lia.
    + by rewrite list_insert_ge by lia.
  - by rewrite list_lookup_total_insert_ne.
Qed.

Lemma narrowable_Eligible (mb : MalBlkRecord) (T : list Coercion) (res o : nat) :
  narrowable T (getColumnType (getVarType mb res)) (getColumnType (getVarType mb o)) o = true
  ↔ Eligible mb T res o.
Proof.
  unfold narrowable, NarrowingEligible, ClaimedEligible, CandidateRecorded.
  rewrite !andb_true_iff, negb_true_iff, !bool_decide_eq_true, bool_decide_eq_false.
  split; [|by intros [(? & ? & ?) ?]].
  intros [[? Hs] ?]. repeat split; try done.
  intros E. by rewrite E in Hs.
Qed.

Lemma isCalcFamily_operator (p : InstrRecord) :
  isCalcFamily p = true →
  isRef (getModuleId p) batcalcRef = true ∧ isCalcOperator (getFunctionId p) = true
  ∧ retc p = 1 ∧ argc p = 3.
Proof.
  unfold isCalcFamily. rewrite !andb_true_iff, !bool_decide_eq_true.
  intros [[[Hm Hf] Hr] Ha]. repeat split; try done.
  unfold isCalcOperator, plusRef, minusRef, mulRef, divRef.
  rewrite !orb_true_iff in Hf. rewrite !orb_true_iff.
  destruct Hf as [[[[Hf|Hf]|Hf]|Hf]|Hf];
    [by do 4 left|left; left; left; by right|left; left; by right|left; by right|].
  right. unfold isRef in Hf. apply bool_decide_eq_true in Hf. by rewrite Hf.
Qed.

Lemma getInstrPtr_setInstr (mb : MalBlkRecord) (i j : nat) (q : InstrRecord) :
  getInstrPtr (setInstr mb i q) j =
  if bool_decide (i = j ∧ i < stop mb) then q else getInstrPtr mb j.
Proof.
  unfold getInstrPtr, setInstr, stop. simpl.
  case_bool_decide as H.
  - destruct H as [-> H]. by rewrite list_lookup_total_insert_eq.
  - destruct (decide (i = j)) as [->|Hne].
    + rewrite list_insert_ge; [done|lia].
    + by rewrite list_lookup_total_insert_ne.
Qed.

(** C1, amended.  On an instruction of the arithmetic family, the Narrowing
    Rewriter puts the recorded source variable in an operand slot exactly
    when the operand has the base type of the result, has a candidate
    recorded, the recorded source type is below the base type of the
    result, and the recorded source is not variable 0; otherwise the slot
    keeps its variable.  The verdict on either slot depends on that slot
    alone; the result slot and all other instructions are left as they
    are. *)
Theorem narrowing_rewrites_exactly_eligible (mb : MalBlkRecord) (i : nat)
    (T : list Coercion) :
  isCalcFamily (getInstrPtr mb i) = true →
  let p := getInstrPtr mb i in
  let mb' := CalcStep mb i T in
  let p' := getInstrPtr mb' i in
  (∀ k, k = 1 ∨ k = 2 →
     (Eligible mb T (getArg p 0) (getArg p k) → getArg p' k = src (T !!! getArg p k))
     ∧ (¬ Eligible mb T (getArg p 0) (getArg p k) → getArg p' k = getArg p k))
  ∧ getArg p' 0 = getArg p 0 ∧ argc p' = 3
  ∧ (∀ j, j ≠ i → getInstrPtr mb' j = getInstrPtr mb j)
  ∧ var mb' = var mb.
Proof.
  intros Hfam p mb' p'.
  assert (i < stop mb) as Hi.
  { destruct (decide (i < stop mb)) as [|Hge]; [done|]. exfalso.
    unfold getInstrPtr, stop in *.
    rewrite list_lookup_total_alt, lookup_ge_None_2 in Hfam by lia.
    by vm_compute in Hfam. }
  destruct (isCalcFamily_operator _ Hfam) as (Hm & Hf & Hr & Ha).
  unfold p', mb'. rewrite coercionOptimizerCalcStep_instr.
  split; [|split; [|split; [|split]]].
  - rewrite getInstrPtr_setInstr, bool_decide_eq_true_2 by done. fold p in Hm, Hf, Ha |- *.
    destruct p as [m f r av]. unfold argc in Ha. simpl in Ha.
    destruct av as [|x0 [|x1 [|x2 [|]]]]; simplify_eq/=.
    rewrite narrow_operator by done. unfold getArg. simpl.
    intros k [->| ->]; simpl; rewrite <- narrowable_Eligible; unfold getArg; simpl.
    + destruct (narrowable T _ _ x1); split; intros H; first [done|by destruct H].
    + destruct (narrowable T _ _ x2); split; intros H; first [done|by destruct H].
  - rewrite getInstrPtr_setInstr, bool_decide_eq_true_2 by done.
    by destruct (narrow_shape mb T (getInstrPtr mb i)) as (_ & _ & _ & _ & ?).
  - rewrite getInstrPtr_setInstr, bool_decide_eq_true_2 by done.
    destruct (narrow_shape mb T (getInstrPtr mb i)) as (_ & _ & _ & H5 & _).
    by rewrite H5.
  - intros j Hj. rewrite getInstrPtr_setInstr, bool_decide_eq_false_2; [done|].
    intros [? _]. by apply Hj.
  - done.
Qed.

(** *** The effect of a removal on the later instructions *)

Lemma substOperands_argc (a b : nat) (q : InstrRecord) :
  argc (substOperands a b q) = argc q.
Proof.
  unfold argc, substOperands. simpl.
  rewrite length_app, length_fmap, length_take, length_drop. lia.
Qed.

Lemma substOperands_lookup (a b : nat) (q : InstrRecord) (k : nat) :
  argv (substOperands a b q) !! k =
  if bool_decide (retc q ≤ k) then renameVar a b <$> argv q !! k else argv q !! k.
Proof.
  rewrite <- replaceUses_substOperands. unfold replaceUses. simpl.
  rewrite replaceArgs_lookup. unfold argc.
  destruct (decide (k < length (argv q))) as [Hk|Hk].
  - repeat case_bool_decide; try done; lia.
  - rewrite (lookup_ge_None_2 (argv q)) by lia. by repeat case_bool_decide.
Qed.

Lemma substOperands_arg (a b : nat) (q : InstrRecord) (k : nat) :
  k < argc q →
  getArg (substOperands a b q) k =
  if bool_decide (retc q ≤ k ∧ getArg q k = a) then b else getArg q k.
Proof.
  intros Hk. unfold getArg. rewrite !list_lookup_total_alt, substOperands_lookup.
  destruct (lookup_lt_is_Some_2 (argv q) k Hk) as [v E]. rewrite E. simpl.
  unfold renameVar.
  destruct (decide (retc q ≤ k)) as [Hr|Hr], (decide (v = a)) as [Hv|Hv].
  - by rewrite !bool_decide_eq_true_2.
  - rewrite bool_decide_eq_true_2 by done. rewrite !bool_decide_eq_false_2; [done| |done].
    by intros [_ ?].
  - rewrite !bool_decide_eq_false_2; [done| |done]. by intros [? _].
  - rewrite !bool_decide_eq_false_2; [done| |done]. by intros [? _].
Qed.

Lemma substOperands_inResultSlot (a b v : nat) (q : InstrRecord) :
  inResultSlot v (substOperands a b q) ↔ inResultSlot v q.
Proof.
  unfold inResultSlot.
  split; intros (k & Hk & Hv); exists k; (split; [done|]);
    rewrite substOperands_lookup in *; simpl in Hk;
    by rewrite bool_decide_eq_false_2 in * by lia.
Qed.

Lemma inResultSlot_inhabitant (v : nat) : ¬ inResultSlot v inhabitant.
Proof. intros (k & Hk & _). simpl in Hk. lia. Qed.

Lemma Step_removed (mb mb' : MalBlkRecord) (i : nat) :
  i < stop mb →
  Step mb i (getInstrPtr mb i) = (mb', 1) →
  let p := getInstrPtr mb i in
  stmt mb = take i (stmt mb) ++ p :: drop (S i) (stmt mb)
  ∧ mb' = mkMalBlk (take i (stmt mb)
                     ++ (substOperands (getArg p 0) (getArg p 1) <$> drop (S i) (stmt mb)))
            (var mb).
Proof.
  intros Hi HS p.
  assert (stmt mb !! i = Some p) as Hp by (by apply list_lookup_lookup_total_lt).
  pose proof (take_drop_middle _ _ _ Hp) as Hsplit.
  split; [done|].
  assert (length (take i (stmt mb)) = i) as Hlen by (rewrite length_take; unfold stop in Hi; lia).
  pose proof (coercionOptimizerStep_split (take i (stmt mb)) (drop (S i) (stmt mb)) p (var mb)) as HS'.
  rewrite Hlen, Hsplit in HS'. cbv zeta in HS'.
  replace (mkMalBlk (stmt mb) (var mb)) with mb in HS' by (by destruct mb).
  fold p in HS. rewrite HS' in HS.
  destruct (bool_decide _ && strcmp0 _ _); by simplify_eq.
Qed.

(** What a removal by [coercionOptimizerStep] does to the block. *)
Lemma Step_effect (mb mb' : MalBlkRecord) (i : nat) :
  i < stop mb →
  Step mb i (getInstrPtr mb i) = (mb', 1) →
  let p := getInstrPtr mb i in
  let a := getArg p 0 in
  let b := getArg p 1 in
  var mb' = var mb ∧ stop mb' = stop mb - 1
  ∧ (∀ j, j < i → getInstrPtr mb' j = getInstrPtr mb j)
  ∧ (∀ j, i ≤ j → j < stop mb' →
       let q := getInstrPtr mb (S j) in
       let q' := getInstrPtr mb' j in
       getModuleId q' = getModuleId q ∧ getFunctionId q' = getFunctionId q
       ∧ retc q' = retc q ∧ argc q' = argc q
       ∧ ∀ k, k < argc q →
           getArg q' k =
           if bool_decide (retc q ≤ k ∧ getArg q k = a) then b else getArg q k)
  ∧ ((∀ j, j ≠ i → ¬ inResultSlot a (getInstrPtr mb j)) →
     ∀ j, ¬ inResultSlot a (getInstrPtr mb' j)).
Proof.
  intros Hi HS p a b.
  destruct (Step_removed mb mb' i Hi HS) as [Hsplit ->]. fold p a b.
  assert (length (take i (stmt mb)) = i) as Hlen
    by (rewrite length_take; unfold stop in Hi; lia).
  assert (∀ j, i ≤ j →
            getInstrPtr (mkMalBlk (take i (stmt mb)
                           ++ (substOperands a b <$> drop (S i) (stmt mb))) (var mb)) j
            = if bool_decide (S j < stop mb)
              then substOperands a b (getInstrPtr mb (S j)) else inhabitant) as Hsuf.
  { intros j Hj. unfold getInstrPtr, stop. simpl.
    rewrite !list_lookup_total_alt.
    rewrite lookup_app_r by lia. rewrite Hlen, list_lookup_fmap, lookup_drop.
    replace (S i + (j - i)) with (S j) by lia.
    case_bool_decide as Hlt.
    - destruct (lookup_lt_is_Some_2 (stmt mb) (S j) Hlt) as [q Hq]. by rewrite Hq.
    - by rewrite lookup_ge_None_2 by lia. }
  assert (∀ j, j < i →
            getInstrPtr (mkMalBlk (take i (stmt mb)
                           ++ (substOperands a b <$> drop (S i) (stmt mb))) (var mb)) j
            = getInstrPtr mb j) as Hpre.
  { intros j Hj. unfold getInstrPtr. simpl.
    rewrite lookup_total_app_l by lia. by rewrite lookup_total_take_lt. }
  assert (stop (mkMalBlk (take i (stmt mb)
                  ++ (substOperands a b <$> drop (S i) (stmt mb))) (var mb))
          = stop mb - 1) as Hstop.
  { unfold stop in *. simpl. rewrite length_app, length_fmap, length_drop. lia. }
  split; [done|]. split; [done|]. split; [done|]. split.
  - intros j Hj Hlt. simpl. rewrite Hstop in Hlt.
    rewrite Hsuf, bool_decide_eq_true_2 by lia.
    split; [done|]. split; [done|]. split; [done|].
    split; [apply substOperands_argc|].
    intros k Hk. by apply substOperands_arg.
  - intros Hssa j Hres.
    destruct (decide (j < i)) as [Hj|Hj].
    + rewrite Hpre in Hres by done. apply (Hssa j); [lia|done].
    + rewrite Hsuf in Hres by lia. case_bool_decide.
      * apply substOperands_inResultSlot in Hres. apply (Hssa (S j)); [lia|done].
      * by apply inResultSlot_inhabitant in Hres.
Qed.

(** *** The wide-constructor scenarios *)

Lemma sweep_wide (mb0 : MalBlkRecord) (T : list Coercion) (w s1 x d s r : nat) :
  let T1 := record mb0 1 (hgeCons w s1 x d s) T in
  sweeps 2 1 mb0 T [hgeCons w s1 x d s; addInstr r w w] =
  ([hgeCons w s1 x d s; narrow mb0 T1 (addInstr r w w)], T1, 0).
Proof.
  intros T1. rewrite sweep_cons.
  change (getModuleId (hgeCons w s1 x d s)) with (Some batcalcRef). cbv zeta. fold T1.
  rewrite (narrow_not_operator mb0 T1 (hgeCons w s1 x d s)) by done.
  change (identity mb0 (hgeCons w s1 x d s)) with false. cbv iota.
  rewrite sweep_cons.
  change (getModuleId (addInstr r w w)) with (Some batcalcRef). cbv zeta.
  rewrite (record_not_hge mb0 2 (addInstr r w w)) by done.
  assert (identity mb0 (narrow mb0 T1 (addInstr r w w)) = false) as ->.
  { unfold isIdentityCoercion.
    destruct (narrow_shape mb0 T1 (addInstr r w w)) as (Hm & _).
    unfold getModuleId. rewrite Hm. done. }
  by rewrite sweep_nil.
Qed.

(** C3, amended.  In the block [w := batcalc.hge(s1, x, d, s); r :=
    batcalc.+(w, w)] where the base type of [r] is the base type [T] of
    [x], the pass rewrites nothing: the recorded source type is [T], which
    is not below the base type of the result, so both operand slots of the
    addition keep [w]; the constructor stays in place and 0 is returned. *)
Theorem narrow_result_blocks_rewrite (succeeds : bool) (sig : InstrRecord)
    (vars : list VarRecord) (x w r s1 d s : nat) :
  let mb := mkMalBlk [sig; hgeCons w s1 x d s; addInstr r w w] vars in
  getColumnType (getVarType mb x) = getColumnType (getVarType mb r) →
  OPT succeeds mb = (mb, 0).
Proof.
  intros mb HT. destruct succeeds; [|apply OPT_fail].
  unfold mb. rewrite OPT_sweep_eq. cbn [length]. rewrite sweep_wide.
  set (mb0 := mkMalBlk [] vars). set (T0 := replicate (length vars) Coercion_zero).
  set (T1 := record mb0 1 (hgeCons w s1 x d s) T0).
  unfold addInstr. rewrite (narrow_operator mb0 T1 _ _ 1 r w w) by done.
  assert (narrowable T1 (getColumnType (getVarType mb0 r))
            (getColumnType (getVarType mb0 w)) w = false) as ->; [|done].
  unfold narrowable.
  destruct (record_lookup mb0 1 (hgeCons w s1 x d s) T0 w) as [Heq|(_ & _ & _ & Hs & Hf)];
    fold T1 in Heq || fold T1 in Hs, Hf.
  - rewrite Heq. unfold T0. rewrite zero_table_lookup. simpl.
    by rewrite andb_false_r.
  - rewrite Hf. change (getArgType mb0 (hgeCons w s1 x d s) 2) with (getVarType mb x).
    rewrite HT. change (getVarType mb r) with (getVarType mb0 r).
    rewrite (bool_decide_eq_false_2 (_ < _)%Z) by lia. by rewrite andb_false_r.
Qed.

(** C4, amended.  In the block [w := batcalc.hge(s1, x, d, s); r :=
    batcalc.+(w, w)] of a build with the wide type, where [w] and [r] have
    the wide base type, the base type of [x] is below it, [x] is not
    variable 0 and [d] and [s] are constants, the pass rewrites both
    operand slots of the addition to [x]; the constructor stays in place and
    0 is returned. *)
Theorem wide_result_allows_rewrite (sig : InstrRecord) (vars : list VarRecord)
    (x w r s1 d s : nat) :
  let mb := mkMalBlk [sig; hgeCons w s1 x d s; addInstr r w w] vars in
  HAVE_HGE = true → w < vtop mb → x ≠ 0 →
  isVarConstant mb d = true → isVarConstant mb s = true →
  getColumnType (getVarType mb w) = TYPE_hge →
  getColumnType (getVarType mb r) = TYPE_hge →
  (getColumnType (getVarType mb x) < TYPE_hge)%Z →
  OPT true mb = (mkMalBlk [sig; hgeCons w s1 x d s; addInstr r x x] vars, 0).
Proof.
  intros mb Hhge Hw Hx Hd Hs Htw Htr Htx.
  unfold mb. rewrite OPT_sweep_eq. cbn [length]. rewrite sweep_wide.
  set (mb0 := mkMalBlk [] vars). set (T0 := replicate (length vars) Coercion_zero).
  set (T1 := record mb0 1 (hgeCons w s1 x d s) T0).
  unfold addInstr. rewrite (narrow_operator mb0 T1 _ _ 1 r w w) by done.
  assert (T1 !!! w = mkCoercion 1 (getColumnType (getVarType mb x)) TYPE_hge x
                       (getVarConstant mb d) (getVarConstant mb s)) as HT1.
  { unfold T1, recordCoercion, isHgeConstructor. rewrite Hhge.
    change (isVarConstant mb0 (getArg (hgeCons w s1 x d s) 4)) with (isVarConstant mb s).
    change (isVarConstant mb0 (getArg (hgeCons w s1 x d s) 3)) with (isVarConstant mb d).
    rewrite Hd, Hs. simpl.
    rewrite list_lookup_total_insert_eq; [done|].
    unfold T0. rewrite length_replicate. done. }
  assert (narrowable T1 (getColumnType (getVarType mb0 r))
            (getColumnType (getVarType mb0 w)) w = true) as ->.
  { unfold narrowable. rewrite HT1. simpl.
    change (getVarType mb0 w) with (getVarType mb w).
    change (getVarType mb0 r) with (getVarType mb r).
    rewrite Htw, Htr.
    rewrite (bool_decide_eq_true_2 (TYPE_hge = TYPE_hge)) by done.
    rewrite (bool_decide_eq_false_2 (x = 0)) by done.
    by rewrite bool_decide_eq_true_2 by done. }
  by rewrite HT1.
Qed.

(** *** Chained identity casts *)

Lemma sweep_identity (n i : nat) (mb0 : MalBlkRecord) (T : list Coercion)
    (nme : string) (r a : nat) (rest : list InstrRecord) :
  getVarType mb0 r = getVarType mb0 a →
  ATOMname (getVarType mb0 a) = nme →
  sweeps (S n) i mb0 T (castInstr nme r a :: rest) =
  let '(out, T', c) := sweeps n i mb0 T (substOperands r a <$> rest) in
  (out, T', S c).
Proof.
  intros Ht Hn. rewrite sweep_cons.
  change (getModuleId (castInstr nme r a)) with (Some calcRef). cbv zeta.
  rewrite (record_calc mb0 i (castInstr nme r a)) by done.
  rewrite (narrow_not_batcalc mb0 T (castInstr nme r a)) by done.
  assert (identity mb0 (castInstr nme r a) = true) as ->; [|done].
  unfold isIdentityCoercion.
  change (getArg (castInstr nme r a) 0) with r.
  change (getArg (castInstr nme r a) 1) with a.
  rewrite Ht, Hn. simpl.
  by rewrite !bool_decide_eq_true_2 by done.
Qed.


(** *** The table entries of variables that no wide constructor defines *)

Lemma run_invariant (P : LoopState → Prop) :
  (∀ s, P s → ls_i s < stop (ls_mb s) →
        P (mkLoop (ls_mb (body s)) (S (ls_i (body s))) (ls_coerce (body s))
             (ls_actions (body s)))) →
  ∀ n s, P s → P (run n s).
Proof.
  intros Hstep. induction n as [|n IH]; intros s Hs; [done|].
  rewrite loop_S. case_bool_decide; [|done]. apply IH. by apply Hstep.
Qed.

Lemma isHgeCallOf_narrow (v : nat) (mb : MalBlkRecord) (T : list Coercion)
    (p : InstrRecord) :
  isHgeCallOf v (narrow mb T p) = isHgeCallOf v p.
Proof.
  destruct (narrow_shape mb T p) as (Hm & Hf & Hr & Ha & H0).
  unfold isHgeCallOf, getModuleId, getFunctionId. by rewrite Hm, Hf, Hr, Ha, H0.
Qed.

Lemma isHgeCallOf_substOperands (v a b : nat) (q : InstrRecord) :
  isHgeCallOf v (substOperands a b q) = isHgeCallOf v q.
Proof.
  unfold isHgeCallOf. rewrite substOperands_argc.
  change (getModuleId (substOperands a b q)) with (getModuleId q).
  change (getFunctionId (substOperands a b q)) with (getFunctionId q).
  change (retc (substOperands a b q)) with (retc q).
  destruct (isRef (getModuleId q) batcalcRef && isRef (getFunctionId q) hgeRef); [|done].
  simpl. case_bool_decide as Hr; [|done]. case_bool_decide as Ha; [|done]. simpl.
  rewrite substOperands_arg by lia.
  by rewrite (bool_decide_eq_false_2 (_ ∧ _)) by lia.
Qed.

Lemma record_absent (v : nat) (mb : MalBlkRecord) (i : nat) (p : InstrRecord)
    (T : list Coercion) :
  isHgeCallOf v p = false → src (T !!! v) = 0 → src (record mb i p T !!! v) = 0.
Proof.
  intros Hp HT.
  destruct (record_lookup mb i p T v) as [->|(_ & Hc & H0 & _)]; [done|].
  exfalso. unfold isHgeConstructor in Hc. unfold isHgeCallOf in Hp.
  rewrite !andb_true_iff in Hc. destruct Hc as [[[[[H1 H2] H3] H4] _] _].
  rewrite H1, H2, H3, H4 in Hp. simpl in Hp.
  by rewrite bool_decide_eq_true_2 in Hp.
Qed.

Lemma neverHgeResult_elem (v : nat) (mb : MalBlkRecord) :
  neverHgeResult v mb = true ↔ ∀ q, q ∈ stmt mb → isHgeCallOf v q = false.
Proof.
  unfold neverHgeResult. rewrite forallb_forall.
  split; intros H q Hq.
  - apply negb_true_iff, H. by apply list_elem_of_In.
  - apply negb_true_iff, H. by apply list_elem_of_In.
Qed.

Lemma getInstrPtr_absent (v : nat) (mb : MalBlkRecord) (i : nat) :
  neverHgeResult v mb = true → isHgeCallOf v (getInstrPtr mb i) = false.
Proof.
  intros H. unfold getInstrPtr.
  destruct (decide (i < length (stmt mb))) as [Hi|Hi].
  - eapply neverHgeResult_elem; [done|]. by apply list_elem_of_lookup_total_2.
  - rewrite list_lookup_total_alt, lookup_ge_None_2 by lia. done.
Qed.

(** While the loop runs, no instruction of the block becomes a wide
    constructor of [v] and the entry of [v] keeps a zero source field. *)
Lemma loop_keeps_absent (v : nat) (n : nat) (s : LoopState) :
  1 ≤ ls_i s → neverHgeResult v (ls_mb s) = true → src (ls_coerce s !!! v) = 0 →
  1 ≤ ls_i (run n s) ∧ neverHgeResult v (ls_mb (run n s)) = true
  ∧ src (ls_coerce (run n s) !!! v) = 0.
Proof.
  intros H1 H2 H3.
  apply (run_invariant (λ s, 1 ≤ ls_i s ∧ neverHgeResult v (ls_mb s) = true
                             ∧ src (ls_coerce s !!! v) = 0)); [|done].
  clear. intros [[st vars] i T acts] (Hi & Hst & HT) Hlt.
  cbn [ls_mb ls_i ls_coerce ls_actions] in *. unfold stop in Hlt. simpl in Hlt.
  destruct (lookup_lt_is_Some_2 st i Hlt) as [p Hp].
  pose proof (take_drop_middle _ _ _ Hp) as Hsplit.
  assert (length (take i st) = i) as Hlen by (rewrite length_take; lia).
  pose proof (loopBody_split (take i st) (drop (S i) st) p vars T acts) as HB.
  rewrite Hlen, Hsplit in HB. cbv zeta in HB. rewrite HB. clear HB.
  set (mb := mkMalBlk st vars) in *.
  assert (isHgeCallOf v p = false) as Hpv.
  { eapply neverHgeResult_elem; [exact Hst|]. simpl.
    by apply list_elem_of_lookup_2 in Hp. }
  destruct (getModuleId p); [|cbn; split; [lia|done]].
  set (T1 := record mb i p T). set (p1 := narrow mb T1 p).
  assert (src (T1 !!! v) = 0) as HT1 by (by apply record_absent).
  rewrite neverHgeResult_elem in Hst. simpl in Hst.
  destruct (identity mb p1); cbn [ls_mb ls_i ls_coerce ls_actions].
  - split; [lia|]. split; [|done]. apply neverHgeResult_elem. simpl.
    intros q Hq. apply elem_of_app in Hq as [Hq|Hq].
    + apply Hst. rewrite <- Hsplit. apply elem_of_app. by left.
    + apply list_elem_of_fmap in Hq as (q0 & -> & Hq0).
      rewrite isHgeCallOf_substOperands. apply Hst. rewrite <- Hsplit.
      apply elem_of_app. right. apply elem_of_cons; by right.
  - split; [lia|]. split; [|done]. apply neverHgeResult_elem. simpl.
    intros q Hq. apply elem_of_app in Hq as [Hq|Hq].
    + apply Hst. rewrite <- Hsplit. apply elem_of_app. by left.
    + apply elem_of_cons in Hq as [->|Hq].
      * unfold p1. by rewrite isHgeCallOf_narrow.
      * apply Hst. rewrite <- Hsplit.
        apply elem_of_app. right. apply elem_of_cons; by right.
Qed.

(** A slot whose variable has a zero source field in the table is left
    alone by the Narrowing Rewriter. *)
Lemma calcstep_zero_source (mb : MalBlkRecord) (i : nat) (T : list Coercion) (k : nat) :
  k = 1 ∨ k = 2 →
  src (T !!! getArg (getInstrPtr mb i) k) = 0 →
  getArg (getInstrPtr (CalcStep mb i T) i) k = getArg (getInstrPtr mb i) k.
Proof.
  intros Hk Hs. rewrite coercionOptimizerCalcStep_instr, getInstrPtr_setInstr.
  case_bool_decide; [|done].
  revert Hs. generalize (getInstrPtr mb i). intros [m f r av] Hs.
  destruct (isRef m batcalcRef) eqn:Em;
    [|by rewrite (narrow_not_batcalc mb T (mkInstr m f r av)) by done].
  destruct (isCalcOperator f) eqn:Ef;
    [|by rewrite (narrow_not_operator mb T (mkInstr m f r av)) by done].
  destruct (decide (length av = 3)) as [Hc|Hc].
  2:{ unfold narrowInstr, argc. simpl. rewrite (bool_decide_eq_false_2 (_ = 3)) by done.
      by rewrite andb_false_r. }
  destruct av as [|x0 [|x1 [|x2 [|]]]]; simplify_eq/=.
  rewrite narrow_operator by done. unfold getArg in *. simpl in *.
  unfold narrowable.
  destruct Hk as [->| ->]; simpl in *; rewrite Hs; simpl; by rewrite andb_false_r.
Qed.

(** C10.  A variable [v] that is not the result of a wide-constructor
    instruction of the block has, at every round of the loop, a zero source
    field in the zero-initialised table, also after the recording step of
    that round; and the Narrowing Rewriter leaves alone every operand slot
    whose variable has a zero source field, so that it never rewrites a
    slot naming [v], nor applies a candidate whose source is variable 0. *)
Theorem absent_candidate_is_never_applied (mb : MalBlkRecord) (v : nat) :
  neverHgeResult v mb = true →
  (∀ n, let s := run n (loopInit mb (replicate (vtop mb) Coercion_zero)) in
        let p := getInstrPtr (ls_mb s) (ls_i s) in
        let T := record (ls_mb s) (ls_i s) p (ls_coerce s) in
        src (ls_coerce s !!! v) = 0 ∧ src (T !!! v) = 0
        ∧ ∀ k, k = 1 ∨ k = 2 → getArg p k = v →
               getArg (getInstrPtr (CalcStep (ls_mb s) (ls_i s) T) (ls_i s)) k = v)
  ∧ (∀ (mb' : MalBlkRecord) (i : nat) (T : list Coercion) (k : nat),
       k = 1 ∨ k = 2 →
       src (T !!! getArg (getInstrPtr mb' i) k) = 0 →
       getArg (getInstrPtr (CalcStep mb' i T) i) k = getArg (getInstrPtr mb' i) k).
Proof.
  intros Hv. split; [|apply calcstep_zero_source].
  intros n s p T.
  destruct (loop_keeps_absent v n (loopInit mb (replicate (vtop mb) Coercion_zero)))
    as (_ & Hst & HT); [simpl; lia|done|simpl; by rewrite zero_table_lookup|].
  fold s in Hst, HT.
  assert (src (T !!! v) = 0) as HT1.
  { apply record_absent; [|done]. by apply getInstrPtr_absent. }
  split; [done|]. split; [done|].
  intros k Hk Hp. rewrite calcstep_zero_source; [done|done|].
  fold p. by rewrite Hp.
Qed.

(** ** Further properties of the pass *)

(** *** The rounds of the loop *)

Lemma round_advances (s : LoopState) :
  1 ≤ ls_i s → ls_i s < stop (ls_mb s) →
  let s' := mkLoop (ls_mb (body s)) (S (ls_i (body s))) (ls_coerce (body s))
              (ls_actions (body s)) in
  1 ≤ ls_i s' ∧ ls_i s' ≤ stop (ls_mb s')
  ∧ stop (ls_mb s') - ls_i s' = stop (ls_mb s) - ls_i s - 1.
Proof.
  destruct s as [[st vars] i T acts]. cbn [ls_mb ls_i ls_coerce ls_actions].
  unfold stop at 1. simpl. intros Hi Hlt.
  destruct (lookup_lt_is_Some_2 st i Hlt) as [p Hp].
  pose proof (take_drop_middle _ _ _ Hp) as Hsplit.
  assert (length (take i st) = i) as Hlen by (rewrite length_take; lia).
  pose proof (loopBody_split (take i st) (drop (S i) st) p vars T acts) as HB.
  rewrite Hlen, Hsplit in HB. cbv zeta in HB. rewrite HB. clear HB.
  assert (length st = i + S (length (drop (S i) st))) as Hst.
  { rewrite <- Hsplit at 1. rewrite length_app, Hlen. done. }
  destruct (getModuleId p); [destruct (identity _ _)|];
    cbn [ls_mb ls_i ls_coerce ls_actions]; unfold stop; simpl;
    rewrite ?length_app, ?length_fmap, ?Hlen; simpl; lia.
Qed.

(** X1.  On a block of [stop] instructions ([stop] at least 1) the loop
    makes [stop - 1] rounds, no more and no fewer: after [n] of them the
    distance between the index and the end of the block is [stop - 1 - n],
    since a round either moves the index forward or removes an
    instruction. *)
Theorem loop_makes_stop_minus_one_rounds (mb : MalBlkRecord) (T : list Coercion)
    (n : nat) :
  1 ≤ stop mb → n ≤ stop mb - 1 →
  let s := run n (loopInit mb T) in
  1 ≤ ls_i s ∧ ls_i s + (stop mb - 1 - n) = stop (ls_mb s).
Proof.
  intros H1 Hn.
  assert (∀ n s, 1 ≤ ls_i s → ls_i s ≤ stop (ls_mb s) →
                 n ≤ stop (ls_mb s) - ls_i s →
                 1 ≤ ls_i (run n s)
                 ∧ ls_i (run n s) + (stop (ls_mb s) - ls_i s - n)
                   = stop (ls_mb (run n s))) as Hgen.
  { clear. induction n as [|n IH]; intros s Hi Hle Hn.
    - simpl. lia.
    - rewrite loop_S. rewrite bool_decide_eq_true_2 by lia.
      destruct (round_advances s Hi ltac:(lia)) as (Ha & Hb & Hc).
      destruct (IH _ Ha Hb ltac:(lia)) as (Hd & He).
      split; [done|]. rewrite <- He. rewrite Hc. lia. }
  destruct (Hgen n (loopInit mb T)) as (Ha & Hb); simpl; try lia.
  split; [done|]. simpl in Hb. lia.
Qed.

Lemma OPT_var_header (succeeds : bool) (mb : MalBlkRecord) :
  var (OPT succeeds mb).1 = var mb
  ∧ stmt (OPT succeeds mb).1 !! 0 = stmt mb !! 0.
Proof.
  destruct succeeds; [|by rewrite OPT_fail].
  destruct mb as [[|sig rest] vars]; [done|].
  rewrite OPT_sweep_eq.
  by destruct (sweeps (length rest) 1 _ _ rest) as [[out T'] c].
Qed.

(** X2.  The pass leaves the table of variables and the instruction at
    index 0 as they are, whether its table can be allocated or not. *)
Theorem pass_keeps_variables_and_header (succeeds : bool) (mb : MalBlkRecord) :
  var (OPT succeeds mb).1 = var mb
  ∧ stmt (OPT succeeds mb).1 !! 0 = stmt mb !! 0.
Proof. apply OPT_var_header. Qed.

(** X3.  With a table in which every candidate carries the base type of
    its source, applying the Narrowing Rewriter to an instruction a second
    time changes nothing. *)
Theorem calcstep_twice (mb : MalBlkRecord) (i : nat) (T : list Coercion) :
  sound mb T → CalcStep (CalcStep mb i T) i T = CalcStep mb i T.
Proof.
  intros HT. rewrite !coercionOptimizerCalcStep_instr.
  rewrite getInstrPtr_setInstr.
  rewrite (narrow_ext (setInstr mb i (narrow mb T (getInstrPtr mb i))) mb) by done.
  unfold setInstr at 1 3. simpl. f_equal.
  case_bool_decide as Hi.
  - rewrite narrow_idem by done. by rewrite list_insert_insert_eq.
  - rewrite (list_insert_ge (stmt mb) i) by (unfold stop in Hi; lia).
    by rewrite list_insert_ge by (unfold stop in Hi; lia).
Qed.

(** *** What the pass keeps, removes and narrows *)

Local Abbreviation descends := (Descends getColumnType).

Lemma signature_opcode (mb : MalBlkRecord) (p q : InstrRecord) :
  signature mb p = signature mb q → opcode p = opcode q.
Proof.
  unfold signature, opcode, argc. intros [= Hm Hf Hr Ht].
  rewrite Hm, Hf, Hr. f_equal.
  apply (f_equal length) in Ht. by rewrite !length_fmap in Ht.
Qed.

Lemma signature_lookup (mb : MalBlkRecord) (p q : InstrRecord) (k v : nat) :
  signature mb p = signature mb q → argv q !! k = Some v →
  ∃ u, argv p !! k = Some u ∧ getVarType mb u = getVarType mb v.
Proof.
  unfold signature. intros [= _ _ _ Ht] Hv.
  apply (f_equal (λ l, l !! k)) in Ht. rewrite !list_lookup_fmap, Hv in Ht.
  destruct (argv p !! k) as [u|]; simplify_eq/=. by exists u.
Qed.

Lemma signature_getArg (mb : MalBlkRecord) (p q : InstrRecord) (k : nat) :
  signature mb p = signature mb q → k < argc q →
  getVarType mb (getArg p k) = getVarType mb (getArg q k).
Proof.
  intros Hs Hk. destruct (lookup_lt_is_Some_2 (argv q) k Hk) as [v Hv].
  destruct (signature_lookup mb p q k v Hs Hv) as (u & Hu & Ht).
  unfold getArg. by rewrite !list_lookup_total_alt, Hu, Hv.
Qed.

Lemma signature_substOperands (mb : MalBlkRecord) (a b : nat) (q : InstrRecord) :
  getVarType mb a = getVarType mb b →
  signature mb (substOperands a b q) = signature mb q.
Proof.
  intros Hab. unfold signature, substOperands. simpl. f_equal.
  rewrite fmap_app, <- list_fmap_compose.
  rewrite <- (take_drop (retc q) (argv q)) at 3. rewrite fmap_app. f_equal.
  apply list_fmap_ext. intros _ v _. simpl. unfold renameVar.
  case_bool_decide; congruence.
Qed.

Lemma identity_signature (mb : MalBlkRecord) (p q : InstrRecord) :
  signature mb p = signature mb q → identity mb p = identity mb q.
Proof.
  intros Hs. pose proof (signature_opcode mb p q Hs) as Ho.
  unfold isIdentityCoercion, getModuleId, getFunctionId.
  injection Ho as Hm Hf _ Ha. rewrite Hm, Hf, Ha.
  destruct (isRef (modname q) calcRef); [|done]. simpl.
  case_bool_decide as Hc; [|done]. simpl.
  by rewrite !(signature_getArg mb p q) by (done || lia).
Qed.

Lemma identity_narrow (mb : MalBlkRecord) (T : list Coercion) (p : InstrRecord) :
  identity mb (narrow mb T p) = identity mb p.
Proof.
  destruct (isRef (getModuleId p) batcalcRef) eqn:E;
    [|by rewrite narrow_not_batcalc].
  destruct (narrow_shape mb T p) as (Hm & _).
  unfold isIdentityCoercion, isRef, getModuleId in *. rewrite Hm.
  apply bool_decide_eq_true in E. rewrite E.
  by rewrite !(bool_decide_eq_false_2 (Some batcalcRef = Some calcRef)).
Qed.

Lemma identity_types (mb : MalBlkRecord) (p : InstrRecord) :
  identity mb p = true → getVarType mb (getArg p 0) = getVarType mb (getArg p 1).
Proof.
  unfold isIdentityCoercion. rewrite !andb_true_iff, !bool_decide_eq_true.
  by intros [[_ ?] _].
Qed.

Lemma descends_refl (mb : MalBlkRecord) (p : InstrRecord) : descends mb p p.
Proof. split; [done|]. intros k v' v0 H1 H2. left. congruence. Qed.

Lemma narrow_descends (mb : MalBlkRecord) (T : list Coercion) (p : InstrRecord) :
  sound mb T → descends mb (narrow mb T p) p.
Proof.
  intros HT. destruct p as [m f r av].
  destruct (isRef m batcalcRef) eqn:Em;
    [|rewrite (narrow_not_batcalc mb T (mkInstr m f r av)) by done; apply descends_refl].
  destruct (isCalcOperator f) eqn:Ef;
    [|rewrite (narrow_not_operator mb T (mkInstr m f r av)) by done; apply descends_refl].
  destruct (decide (length av = 3)) as [Hc|Hc].
  2:{ replace (narrow mb T (mkInstr m f r av)) with (mkInstr m f r av);
        [apply descends_refl|].
      unfold narrowInstr, argc. simpl.
      rewrite (bool_decide_eq_false_2 (_ = 3)) by done. by rewrite andb_false_r. }
  destruct av as [|x0 [|x1 [|x2 [|]]]]; simplify_eq/=.
  rewrite narrow_operator by done. split; [done|].
  assert (∀ k x v', (k = 1 ∨ k = 2) →
            v' = (if narrowable T (getColumnType (getVarType mb x0))
                       (getColumnType (getVarType mb x)) x
                  then src (T !!! x) else x) →
            getVarType mb v' = getVarType mb x
            ∨ (isRef m batcalcRef = true ∧ isCalcOperator f = true ∧ 3 = 3
               ∧ (k = 1 ∨ k = 2)
               ∧ getColumnType (getVarType mb x) = getColumnType (getVarType mb x0)
               ∧ (getColumnType (getVarType mb v') < getColumnType (getVarType mb x))%Z))
    as Hslot.
  { intros k x v' Hk ->. destruct (narrowable T _ _ x) eqn:En; [|by left].
    right. unfold narrowable in En. rewrite !andb_true_iff in En.
    destruct En as [[E1 E2] E3]. apply bool_decide_eq_true in E1, E3.
    apply negb_true_iff, bool_decide_eq_false in E2.
    rewrite <- (HT x E2). rewrite E1. done. }
  intros k v' v0 Hq' Hq0. unfold getModuleId, getFunctionId, argc, getArg. simpl.
  destruct k as [|[|[|k]]]; simpl in Hq', Hq0; simplify_eq.
  - by left.
  - apply (Hslot 1); [by left|done].
  - apply (Hslot 2); [by right|done].
Qed.

Lemma descends_signature (mb : MalBlkRecord) (q p p0 : InstrRecord) :
  signature mb p = signature mb p0 → descends mb q p → descends mb q p0.
Proof.
  intros Hs [Ho Hd]. pose proof (signature_opcode mb p p0 Hs) as Hpp.
  split; [congruence|].
  intros k v' v0 H1 H2.
  destruct (signature_lookup mb p p0 k v0 Hs H2) as (u & Hu & Hut).
  destruct (Hd k v' u H1 Hu) as [Ht|(Hm & Hf & Ha & Hk & Hc & Hlt)].
  - left. congruence.
  - right. injection Hpp as Hm' Hf' _ Ha'.
    unfold getModuleId, getFunctionId in *.
    rewrite <- Hm', <- Hf', <- Ha', <- Hut.
    rewrite <- (signature_getArg mb p p0 0 Hs) by lia. done.
Qed.

Lemma sweep_descends (mb0 : MalBlkRecord) (n : nat) :
  ∀ (i : nat) (T : list Coercion) (rest rest0 out : list InstrRecord)
    (T' : list Coercion) (c : nat),
    length rest ≤ n → sound mb0 T →
    Forall2 (λ q q0, signature mb0 q = signature mb0 q0) rest rest0 →
    sweeps n i mb0 T rest = (out, T', c) →
    Forall2 (descends mb0) out (List.filter (λ p, negb (identity mb0 p)) rest0)
    ∧ c = length (List.filter (identity mb0) rest0).
Proof.
  induction n as [|n IH]; intros i T rest rest0 out T' c Hn HT HF Hw.
  { destruct rest; [|simpl in Hn; lia]. apply Forall2_nil_inv_l in HF as ->.
    simpl in Hw. simplify_eq. simpl. split; [constructor|done]. }
  destruct HF as [|p p0 rest rest0 Hs HF].
  { rewrite sweep_nil in Hw. simplify_eq. simpl. split; [constructor|done]. }
  simpl in Hn. rewrite sweep_cons in Hw.
  pose proof (signature_opcode _ _ _ Hs) as Ho. injection Ho as Hm0 _ _ _.
  destruct (getModuleId p) eqn:Hmod.
  - cbv zeta in Hw.
    set (T1 := record mb0 i p T) in *. set (p1 := narrow mb0 T1 p) in *.
    assert (sound mb0 T1) as HT1 by (by apply record_sound).
    assert (identity mb0 p1 = identity mb0 p0) as Hid.
    { unfold p1. rewrite identity_narrow. by apply identity_signature. }
    rewrite Hid in Hw. simpl. destruct (identity mb0 p0) eqn:Hid0; simpl.
    + destruct (sweeps n i mb0 T1 _) as [[o t] k] eqn:E. injection Hw as <- <- <-.
      assert (T1 = T) as HTT.
      { apply record_calc.
        assert (identity mb0 p1 = true) as Hp1 by congruence.
        apply identity_calc in Hp1. destruct (narrow_shape mb0 T1 p) as (Hsh & _).
        fold p1 in Hsh. unfold getModuleId in *. by rewrite <- Hsh. }
      destruct (IH i T1 (substOperands (getArg p1 0) (getArg p1 1) <$> rest) rest0
                  o t k) as [HA HB]; [by rewrite length_fmap; lia|done| |done|].
      * apply Forall2_fmap_l. eapply Forall2_impl; [exact HF|].
        intros q q0 Hq. simpl. rewrite signature_substOperands; [done|].
        apply identity_types. congruence.
      * split; [done|]. by rewrite HB.
    + destruct (sweeps n (S i) mb0 T1 rest) as [[o t] k] eqn:E. injection Hw as <- <- <-.
      destruct (IH (S i) T1 rest rest0 o t k) as [HA HB]; [lia|done|done|done|].
      split; [|done]. constructor; [|done].
      apply (descends_signature mb0 p1 p p0 Hs). by apply narrow_descends.
  - assert (identity mb0 p0 = false) as Hid0.
    { unfold isIdentityCoercion, getModuleId in *. rewrite <- Hm0, Hmod. done. }
    simpl. rewrite Hid0. simpl.
    destruct (sweeps n (S i) mb0 T rest) as [[o t] k] eqn:E. injection Hw as <- <- <-.
    destruct (IH (S i) T rest rest0 o t k) as [HA HB]; [lia|done|done|done|].
    split; [|done]. constructor; [|done].
    apply (descends_signature mb0 p p p0 Hs), descends_refl.
Qed.

Lemma OPT_descends (mb : MalBlkRecord) :
  Forall2 (descends mb) (body_of (OPT true mb).1)
    (List.filter (λ p, negb (identity mb p)) (body_of mb))
  ∧ (OPT true mb).2 = length (List.filter (identity mb) (body_of mb)).
Proof.
  destruct mb as [[|sig rest] vars]; [split; [constructor|done]|].
  destruct (sweeps (S (length rest)) 1 (mkMalBlk (sig :: rest) vars)
              (replicate (length vars) Coercion_zero) rest)
    as [[out T'] c] eqn:Hw.
  rewrite (OPT_sweep _ _ _ _ _ _ Hw). unfold body_of. simpl.
  rewrite !drop_0.
  refine (sweep_descends _ _ 1 _ rest rest out T' c _ _ _ Hw); [lia| |].
  - apply zero_table_sound.
  - by apply Forall_Forall2_diag, Forall_forall.
Qed.

Lemma descends_opcodes (mb : MalBlkRecord) (l l0 : list InstrRecord) :
  Forall2 (descends mb) l l0 → opcode <$> l = opcode <$> l0.
Proof.
  induction 1 as [|q q0 l l0 [Ho _] _ IH]; [done|].
  rewrite !fmap_cons. by rewrite Ho, IH.
Qed.

(** X4.  The instructions that one run removes are exactly the identity
    coercions of the block it is given, judged on that block: a [calc]
    instruction with two arguments of one type whose function has the name
    of that type.  The opcodes left are, in order, those of the other
    instructions, and the number returned is the number of identity
    coercions from index 1 on. *)
Theorem pass_removes_the_identity_coercions (mb : MalBlkRecord) :
  opcode <$> body_of (OPT true mb).1
  = opcode <$> List.filter (λ p, negb (identity mb p)) (body_of mb)
  ∧ (OPT true mb).2 = length (List.filter (identity mb) (body_of mb)).
Proof.
  destruct (OPT_descends mb) as [HF Hc]. split; [|done].
  by apply descends_opcodes in HF.
Qed.

(** X5.  Every instruction that one run keeps descends from the
    instruction of the given block in the same place among the kept ones:
    same opcode, and in each slot a variable of the same type, or, in slot
    1 or 2 of a three-argument [batcalc] instruction whose function is [+],
    [-], [*], [/] or has a name beginning with [%], where the variable of
    the given instruction had the base type of the variable in slot 0, a
    variable of a lower base type. *)
Theorem pass_keeps_types_or_narrows (mb : MalBlkRecord) :
  Forall2 (descends mb) (body_of (OPT true mb).1)
    (List.filter (λ p, negb (identity mb p)) (body_of mb)).
Proof. apply OPT_descends. Qed.

(** *** Builds without the wide type *)

Lemma narrow_zero (mb : MalBlkRecord) (T : list Coercion) (p : InstrRecord) :
  (∀ v, src (T !!! v) = 0) → narrow mb T p = p.
Proof.
  intros HT. destruct p as [m f r av].
  destruct (isRef m batcalcRef) eqn:Em;
    [|by rewrite (narrow_not_batcalc mb T (mkInstr m f r av)) by done].
  destruct (isCalcOperator f) eqn:Ef;
    [|by rewrite (narrow_not_operator mb T (mkInstr m f r av)) by done].
  destruct (decide (length av = 3)) as [Hc|Hc].
  2:{ unfold narrowInstr, argc. simpl.
      rewrite (bool_decide_eq_false_2 (_ = 3)) by done. by rewrite andb_false_r. }
  destruct av as [|x0 [|x1 [|x2 [|]]]]; simplify_eq/=.
  rewrite narrow_operator by done. unfold narrowable. rewrite !HT. simpl.
  by rewrite !andb_false_r.
Qed.

Lemma sweep_plain (mb0 : MalBlkRecord) (n : nat) :
  ∀ (i : nat) (T : list Coercion) (rest rest0 out : list InstrRecord)
    (T' : list Coercion) (c : nat),
    HAVE_HGE = false → length rest ≤ n → (∀ v, src (T !!! v) = 0) →
    signature mb0 <$> rest = signature mb0 <$> rest0 →
    sweeps n i mb0 T rest = (out, T', c) →
    signature mb0 <$> out
    = signature mb0 <$> List.filter (λ p, negb (identity mb0 p)) rest0.
Proof.
  induction n as [|n IH]; intros i T rest rest0 out T' c Hh Hn HT HF Hw.
  { destruct rest; [|simpl in Hn; lia]. destruct rest0; [|done].
    simpl in Hw. by simplify_eq. }
  destruct rest as [|p rest].
  { rewrite sweep_nil in Hw. destruct rest0; [|done]. by simplify_eq. }
  destruct rest0 as [|p0 rest0]; [done|]. rewrite !fmap_cons in HF.
  assert (signature mb0 p = signature mb0 p0) as Hsig by congruence.
  assert (signature mb0 <$> rest = signature mb0 <$> rest0) as HF' by congruence.
  clear HF. rename HF' into HF.
  simpl in Hn. rewrite sweep_cons in Hw.
  assert (record mb0 i p T = T) as HR by (unfold recordCoercion; by rewrite Hh).
  cbv zeta in Hw. rewrite !HR, !(narrow_zero mb0 T p HT) in Hw.
  rewrite (identity_signature mb0 p p0 Hsig) in Hw. simpl.
  assert (getModuleId p = None → identity mb0 p0 = false) as Hnone.
  { intros Hm. rewrite <- (identity_signature mb0 p p0 Hsig).
    unfold isIdentityCoercion. by rewrite Hm. }
  destruct (identity mb0 p0) eqn:Hid0; simpl.
  - destruct (getModuleId p) eqn:Hmod; [|by discriminate Hnone].
    destruct (sweeps n i mb0 T _) as [[o t] k] eqn:E. injection Hw as <- <- <-.
    refine (IH i T _ rest0 o t k Hh _ HT _ E); [by rewrite length_fmap; lia|].
    rewrite <- HF, <- list_fmap_compose. apply list_fmap_ext. intros _ q _. simpl.
    apply signature_substOperands, identity_types.
    by rewrite (identity_signature mb0 p p0 Hsig).
  - assert (∃ o t k, sweeps n (S i) mb0 T rest = (o, t, k) ∧ out = p :: o)
      as (o & t & k & E & ->).
    { destruct (getModuleId p);
        destruct (sweeps n (S i) mb0 T rest) as [[o t] k];
        injection Hw as <- <- <-; eauto. }
    rewrite !fmap_cons. f_equal; [done|].
    by refine (IH (S i) T rest rest0 o t k Hh _ HT HF E); lia.
Qed.

(** X6.  In a build without [HAVE_HGE] nothing is narrowed: the
    instructions that one run keeps have, in order, the opcodes and the
    argument types of the instructions of the given block that are not
    identity coercions. *)
Theorem build_without_hge_keeps_types (mb : MalBlkRecord) :
  HAVE_HGE = false →
  signature mb <$> body_of (OPT true mb).1
  = signature mb <$> List.filter (λ p, negb (identity mb p)) (body_of mb).
Proof.
  intros Hh. destruct mb as [[|sig rest] vars]; [done|].
  destruct (sweeps (S (length rest)) 1 (mkMalBlk (sig :: rest) vars)
              (replicate (length vars) Coercion_zero) rest)
    as [[out T'] c] eqn:Hw.
  rewrite (OPT_sweep _ _ _ _ _ _ Hw). unfold body_of. simpl. rewrite !drop_0.
  refine (sweep_plain _ _ 1 _ rest rest out T' c Hh _ _ eq_refl Hw); [lia|].
  intros v. by rewrite zero_table_lookup.
Qed.

(** *** The variables that the pass puts into slots *)

Lemma ArgsIn_cons (P : nat → Prop) (p : InstrRecord) (l : list InstrRecord) :
  ArgsIn P (p :: l) ↔ (∀ v, v ∈ argv p → P v) ∧ ArgsIn P l.
Proof.
  unfold ArgsIn. split.
  - intros H. split; [intros v Hv; apply (H p v); [left|done]|].
    intros q v Hq Hv. apply (H q v); [by right|done].
  - intros [H1 H2] q v Hq Hv. apply elem_of_cons in Hq as [->|Hq]; [by apply H1|].
    by apply (H2 q v).
Qed.

Lemma getArg_elem_of (p : InstrRecord) (k : nat) : k < argc p → getArg p k ∈ argv p.
Proof. intros Hk. by apply list_elem_of_lookup_total_2. Qed.

Lemma substOperands_args (P : nat → Prop) (a b : nat) (q : InstrRecord) :
  P b → (∀ v, v ∈ argv q → P v) → ∀ v, v ∈ argv (substOperands a b q) → P v.
Proof.
  intros Hb Hq v Hv. apply list_elem_of_lookup_1 in Hv as [k Hk].
  rewrite substOperands_lookup in Hk.
  assert (∀ u, argv q !! k = Some u → P u) as Hu
    by (intros u Hu; by apply Hq, (list_elem_of_lookup_2 _ k)).
  case_bool_decide; [|by apply Hu].
  destruct (argv q !! k) as [u|]; simplify_eq/=.
  unfold renameVar. case_bool_decide; [done|by apply Hu].
Qed.

Lemma narrow_args (P : nat → Prop) (mb : MalBlkRecord) (T : list Coercion)
    (p : InstrRecord) :
  (∀ v, src (T !!! v) ≠ 0 → P (src (T !!! v))) →
  (∀ v, v ∈ argv p → P v) → ∀ v, v ∈ argv (narrow mb T p) → P v.
Proof.
  intros HT Hp. destruct p as [m f r av].
  destruct (isRef m batcalcRef) eqn:Em;
    [|by rewrite (narrow_not_batcalc mb T (mkInstr m f r av)) by done].
  destruct (isCalcOperator f) eqn:Ef;
    [|by rewrite (narrow_not_operator mb T (mkInstr m f r av)) by done].
  destruct (decide (length av = 3)) as [Hc|Hc].
  2:{ unfold narrowInstr, argc. simpl.
      rewrite (bool_decide_eq_false_2 (_ = 3)) by done. by rewrite andb_false_r. }
  destruct av as [|x0 [|x1 [|x2 [|]]]]; simplify_eq/=.
  rewrite narrow_operator by done. simpl.
  assert (∀ r a x, x ∈ [x0; x1; x2] →
            P (if narrowable T r a x then src (T !!! x) else x)) as Hx.
  { intros r' a x Hx. destruct (narrowable T r' a x) eqn:En; [|by apply Hp].
    apply HT. unfold narrowable in En. rewrite !andb_true_iff in En.
    destruct En as [[_ E2] _]. by apply negb_true_iff, bool_decide_eq_false in E2. }
  intros v Hv. rewrite !elem_of_cons in Hv.
  destruct Hv as [->|[->|[->|Hv]]].
  - apply Hp. by left.
  - apply Hx. right. by left.
  - apply Hx. right. right. by left.
  - by apply elem_of_nil in Hv.
Qed.

Lemma record_source (P : nat → Prop) (mb : MalBlkRecord) (i : nat) (p : InstrRecord)
    (T : list Coercion) :
  (∀ v, src (T !!! v) ≠ 0 → P (src (T !!! v))) → (∀ v, v ∈ argv p → P v) →
  ∀ v, src (record mb i p T !!! v) ≠ 0 → P (src (record mb i p T !!! v)).
Proof.
  intros HT Hp v Hv.
  destruct (record_lookup mb i p T v) as [Heq|(_ & Hc & _ & Hs & _)].
  - rewrite Heq in *. by apply HT.
  - rewrite Hs. apply Hp, getArg_elem_of.
    unfold isHgeConstructor in Hc. rewrite !andb_true_iff in Hc.
    destruct Hc as [[[_ Hc] _] _]. apply bool_decide_eq_true in Hc. lia.
Qed.

Lemma sweep_args (P : nat → Prop) (mb0 : MalBlkRecord) (n : nat) :
  ∀ (i : nat) (T : list Coercion) (rest out : list InstrRecord)
    (T' : list Coercion) (c : nat),
    (∀ v, src (T !!! v) ≠ 0 → P (src (T !!! v))) → ArgsIn P rest →
    sweeps n i mb0 T rest = (out, T', c) → ArgsIn P out.
Proof.
  induction n as [|n IH]; intros i T rest out T' c HT HA Hw.
  { simpl in Hw. by simplify_eq. }
  destruct rest as [|p rest]; [rewrite sweep_nil in Hw; by simplify_eq|].
  apply ArgsIn_cons in HA as [Hp HA]. rewrite sweep_cons in Hw.
  destruct (getModuleId p).
  - cbv zeta in Hw.
    set (T1 := record mb0 i p T) in *. set (p1 := narrow mb0 T1 p) in *.
    assert (∀ v, src (T1 !!! v) ≠ 0 → P (src (T1 !!! v))) as HT1
      by (by apply record_source).
    assert (∀ v, v ∈ argv p1 → P v) as Hp1 by (by apply narrow_args).
    destruct (identity mb0 p1) eqn:Hid.
    + destruct (sweeps n i mb0 T1 _) as [[o t] k] eqn:E. injection Hw as <- <- <-.
      refine (IH i T1 _ o t k HT1 _ E).
      intros q v Hq. apply list_elem_of_fmap in Hq as (q0 & -> & Hq0).
      apply substOperands_args; [|intros u Hu; by apply (HA q0 u)].
      apply Hp1, getArg_elem_of.
      unfold isIdentityCoercion in Hid. rewrite !andb_true_iff in Hid.
      destruct Hid as [[[_ Hc] _] _]. apply bool_decide_eq_true in Hc. lia.
    + destruct (sweeps n (S i) mb0 T1 rest) as [[o t] k] eqn:E. injection Hw as <- <- <-.
      apply ArgsIn_cons. split; [done|]. by apply (IH (S i) T1 rest o t k).
  - destruct (sweeps n (S i) mb0 T rest) as [[o t] k] eqn:E. injection Hw as <- <- <-.
    apply ArgsIn_cons. split; [done|]. by apply (IH (S i) T rest o t k).
Qed.

Lemma OPT_args (P : nat → Prop) (succeeds : bool) (mb : MalBlkRecord) :
  ArgsIn P (stmt mb) → ArgsIn P (stmt (OPT succeeds mb).1).
Proof.
  intros HA. destruct succeeds; [|by rewrite OPT_fail].
  destruct mb as [[|sig rest] vars]; [done|].
  destruct (sweeps (S (length rest)) 1 (mkMalBlk (sig :: rest) vars)
              (replicate (length vars) Coercion_zero) rest)
    as [[out T'] c] eqn:Hw.
  rewrite (OPT_sweep _ _ _ _ _ _ Hw). cbn [stmt fst] in HA |- *.
  apply ArgsIn_cons in HA as [Hs HA]. apply ArgsIn_cons. split; [done|].
  refine (sweep_args P _ _ 1 _ rest out T' c _ HA Hw).
  intros v Hv. by rewrite zero_table_lookup in Hv.
Qed.

(** X7.  The pass brings no variable into the block: a variable that is an
    argument of an instruction afterwards was an argument of an
    instruction before. *)
Theorem pass_introduces_no_variable (succeeds : bool) (mb : MalBlkRecord) (v : nat) :
  occursIn (OPT succeeds mb).1 v → occursIn mb v.
Proof.
  intros (q & Hq & Hv).
  apply (OPT_args (occursIn mb) succeeds mb) with q; [|done|done].
  intros q0 v0 Hq0 Hv0. by exists q0.
Qed.

Lemma wf_Instr_spec (nvars : nat) (p : InstrRecord) :
  wf_Instr nvars p = true ↔
  (retc p ≤ argc p ∧ (modname p = None ∨ fcnname p ≠ None))
  ∧ ∀ v, v ∈ argv p → v < nvars.
Proof.
  unfold wf_Instr. rewrite !andb_true_iff, orb_true_iff, !bool_decide_eq_true.
  rewrite forallb_forall.
  split.
  - intros [[H1 H2] H3]. split; [done|]. intros v Hv.
    apply list_elem_of_In, H2 in Hv. by apply bool_decide_eq_true in Hv.
  - intros [[H1 H3] H2]. split; [split; [done|]|done].
    intros v Hv. apply bool_decide_eq_true, H2. by apply list_elem_of_In.
Qed.

(** X8.  The pass keeps a block well formed: if every instruction has its
    results among its arguments, names variables of the table only and has
    a function whenever it has a module, the same holds of the block that
    the pass leaves. *)
Theorem pass_keeps_block_well_formed (succeeds : bool) (mb : MalBlkRecord) :
  wf_MalBlk mb = true → wf_MalBlk (OPT succeeds mb).1 = true.
Proof.
  unfold wf_MalBlk. rewrite !forallb_forall. intros Hwf.
  destruct succeeds; [|by rewrite OPT_fail].
  assert (ArgsIn (λ v, v < vtop mb) (stmt (OPT true mb).1)) as HA.
  { apply OPT_args. intros q v Hq Hv.
    apply list_elem_of_In, Hwf, wf_Instr_spec in Hq as [_ Hq]. by apply Hq. }
  destruct (OPT_var_header true mb) as [Hvar Hhd].
  unfold vtop. rewrite Hvar. fold (vtop mb).
  intros q Hq. apply list_elem_of_In in Hq.
  apply wf_Instr_spec. split; [|intros v Hv; by apply (HA q v)].
  apply list_elem_of_lookup_1 in Hq as [j Hj].
  destruct j as [|j].
  { rewrite Hhd in Hj. apply list_elem_of_lookup_2, list_elem_of_In, Hwf in Hj.
    by apply wf_Instr_spec in Hj as [? _]. }
  destruct (OPT_descends mb) as [HF _].
  assert (body_of (OPT true mb).1 !! j = Some q) as Hb
    by (unfold body_of; by rewrite lookup_drop).
  destruct (Forall2_lookup_l _ _ _ _ _ HF Hb) as (q0 & Hq0 & [Ho _]).
  apply list_elem_of_lookup_2, list_elem_of_In, filter_In in Hq0 as [Hq0 _].
  assert (q0 ∈ stmt mb) as Hin.
  { apply list_elem_of_In in Hq0. unfold body_of in Hq0.
    apply list_elem_of_lookup_1 in Hq0 as [k Hk]. rewrite lookup_drop in Hk.
    by apply list_elem_of_lookup_2 in Hk. }
  apply list_elem_of_In, Hwf, wf_Instr_spec in Hin as [[H1 H2] _].
  unfold opcode in Ho. injection Ho as -> -> -> ->. done.
Qed.

(** *** The candidates in the table *)

Local Abbreviation candidate := (CandidateOf getColumnType TYPE_hge).

Lemma record_entry (mb : MalBlkRecord) (i : nat) (p : InstrRecord) (T : list Coercion)
    (v : nat) :
  record mb i p T !!! v = T !!! v
  ∨ (isHgeConstructor mb p = true ∧ getArg p 0 = v
     ∧ record mb i p T !!! v
       = mkCoercion i (getColumnType (getArgType mb p 2)) TYPE_hge (getArg p 2)
           (getVarConstant mb (getArg p 3)) (getVarConstant mb (getArg p 4))).
Proof.
  unfold recordCoercion.
  destruct (HAVE_HGE && isHgeConstructor mb p) eqn:E; [|by left].
  apply andb_prop in E as [_ E2].
  destruct (decide (getArg p 0 = v)) as [Heq|Hne].
  - destruct (decide (v < length T)) as [Hv|Hv].
    + right. rewrite Heq. by rewrite list_lookup_total_insert_eq.
    + left. by rewrite list_insert_ge by lia.
  - left. by rewrite list_lookup_total_insert_ne.
Qed.

Lemma isHgeConstructor_not_operator (mb : MalBlkRecord) (p : InstrRecord) :
  isHgeConstructor mb p = true → isCalcOperator (getFunctionId p) = false.
Proof.
  unfold isHgeConstructor. rewrite !andb_true_iff.
  intros [[[[[_ Hf] _] _] _] _]. unfold isRef in Hf.
  apply bool_decide_eq_true in Hf. by rewrite Hf.
Qed.

Lemma candidate_stable (mb mb' : MalBlkRecord) (i i' : nat) (T T' : list Coercion)
    (v : nat) :
  var mb' = var mb → (∀ j, j < i → getInstrPtr mb' j = getInstrPtr mb j) →
  i ≤ i' → T' !!! v = T !!! v →
  candidate mb i T v → candidate mb' i' T' v.
Proof.
  intros Hvar Hpre Hi HT. unfold CandidateOf. rewrite HT.
  intros (H1 & H2 & H3 & H4 & H5 & H6 & H7 & H8 & H9).
  rewrite (Hpre _ H2).
  unfold isHgeConstructor, isVarConstant, getVarConstant, getVarType in *.
  rewrite Hvar. repeat split; try done. lia.
Qed.

Lemma loop_keeps_candidates (n : nat) (s : LoopState) :
  1 ≤ ls_i s →
  (∀ v, src (ls_coerce s !!! v) ≠ 0 → candidate (ls_mb s) (ls_i s) (ls_coerce s) v) →
  ∀ v, src (ls_coerce (run n s) !!! v) ≠ 0 →
       candidate (ls_mb (run n s)) (ls_i (run n s)) (ls_coerce (run n s)) v.
Proof.
  intros H1 H2.
  apply (run_invariant
           (λ s, 1 ≤ ls_i s
                 ∧ ∀ v, src (ls_coerce s !!! v) ≠ 0 →
                        candidate (ls_mb s) (ls_i s) (ls_coerce s) v)); [|done].
  clear. intros [[st vars] i T acts] (Hi & HC) Hlt.
  cbn [ls_mb ls_i ls_coerce ls_actions] in *. unfold stop in Hlt. simpl in Hlt.
  destruct (lookup_lt_is_Some_2 st i Hlt) as [p Hp].
  pose proof (take_drop_middle _ _ _ Hp) as Hsplit.
  assert (length (take i st) = i) as Hlen by (rewrite length_take; lia).
  pose proof (loopBody_split (take i st) (drop (S i) st) p vars T acts) as HB.
  rewrite Hlen, Hsplit in HB. cbv zeta in HB. rewrite HB. clear HB.
  set (mb := mkMalBlk st vars) in *.
  assert (∀ l j, j < i →
            getInstrPtr (mkMalBlk (take i st ++ l) vars) j = getInstrPtr mb j) as Hsame.
  { intros l j Hj. unfold getInstrPtr, mb. simpl.
    rewrite lookup_total_app_l by lia. by rewrite lookup_total_take_lt. }
  destruct (getModuleId p) eqn:Hmod.
  2:{ cbn [ls_mb ls_i ls_coerce ls_actions]. split; [lia|]. intros v Hv.
      apply (candidate_stable mb mb i (S i) T T v); try done; [lia|by apply HC]. }
  set (T1 := record mb i p T). set (p1 := narrow mb T1 p).
  destruct (identity mb p1) eqn:Hid; cbn [ls_mb ls_i ls_coerce ls_actions].
  - split; [lia|]. replace (S (i - 1)) with i by lia.
    assert (T1 = T) as ->.
    { apply record_calc. apply identity_calc in Hid.
      destruct (narrow_shape mb T1 p) as (Hsh & _). fold p1 in Hsh.
      unfold getModuleId in *. by rewrite <- Hsh. }
    intros v Hv.
    apply (candidate_stable mb _ i i T T v); try done; [by apply Hsame|by apply HC].
  - split; [lia|]. intros v Hv.
    destruct (record_entry mb i p T v) as [Heq|(Hc & H0 & Hent)]; fold T1 in Heq || fold T1 in Hent.
    + apply (candidate_stable mb _ i (S i) T T1 v); try done;
        [by apply Hsame|lia|]. apply HC. by rewrite <- Heq.
    + assert (p1 = p) as Hp1.
      { unfold p1. apply narrow_not_operator.
        by apply (isHgeConstructor_not_operator mb). }
      assert (getInstrPtr (mkMalBlk (take i st ++ p1 :: drop (S i) st) vars) i = p) as Hq.
      { rewrite Hp1, Hsplit. unfold getInstrPtr. simpl.
        by apply list_lookup_total_correct. }
      unfold CandidateOf. rewrite Hent. simpl. rewrite Hq.
      repeat split; try done; lia.
Qed.

(** X9.  At every round of the loop, an entry of the table with a nonzero
    source describes a wide constructor that the loop has passed and that
    is still in the block: the instruction at the recorded index, before
    the current index, is a [batcalc.hge] with one result, five arguments
    and constant digits and scale; its result is the variable of the
    entry, its third argument the recorded source, and the recorded source
    type, digits and scale are those of that instruction. *)
Theorem candidates_describe_passed_constructors (mb : MalBlkRecord) (n v : nat) :
  let s := run n (loopInit mb (replicate (vtop mb) Coercion_zero)) in
  src (ls_coerce s !!! v) ≠ 0 →
  candidate (ls_mb s) (ls_i s) (ls_coerce s) v.
Proof.
  intros s. apply loop_keeps_candidates; [simpl; lia|].
  simpl. intros u Hu. by rewrite zero_table_lookup in Hu.
Qed.

Lemma loop_keeps_recorded (n : nat) (s : LoopState) :
  1 ≤ ls_i s →
  (∀ v, CandidateRecorded (ls_coerce s) v →
        candidate (ls_mb s) (ls_i s) (ls_coerce s) v) →
  ∀ v, CandidateRecorded (ls_coerce (run n s)) v →
       candidate (ls_mb (run n s)) (ls_i (run n s)) (ls_coerce (run n s)) v.
Proof.
  intros H1 H2.
  apply (run_invariant
           (λ s, 1 ≤ ls_i s
                 ∧ ∀ v, CandidateRecorded (ls_coerce s) v →
                        candidate (ls_mb s) (ls_i s) (ls_coerce s) v)); [|done].
  clear. intros [[st vars] i T acts] (Hi & HC) Hlt.
  cbn [ls_mb ls_i ls_coerce ls_actions] in *. unfold stop in Hlt. simpl in Hlt.
  destruct (lookup_lt_is_Some_2 st i Hlt) as [p Hp].
  pose proof (take_drop_middle _ _ _ Hp) as Hsplit.
  assert (length (take i st) = i) as Hlen by (rewrite length_take; lia).
  pose proof (loopBody_split (take i st) (drop (S i) st) p vars T acts) as HB.
  rewrite Hlen, Hsplit in HB. cbv zeta in HB. rewrite HB. clear HB.
  set (mb := mkMalBlk st vars) in *.
  assert (∀ l j, j < i →
            getInstrPtr (mkMalBlk (take i st ++ l) vars) j = getInstrPtr mb j) as Hsame.
  { intros l j Hj. unfold getInstrPtr, mb. simpl.
    rewrite lookup_total_app_l by lia. by rewrite lookup_total_take_lt. }
  destruct (getModuleId p) eqn:Hmod.
  2:{ cbn [ls_mb ls_i ls_coerce ls_actions]. split; [lia|]. intros v Hv.
      apply (candidate_stable mb mb i (S i) T T v); try done; [lia|by apply HC]. }
  set (T1 := record mb i p T). set (p1 := narrow mb T1 p).
  destruct (identity mb p1) eqn:Hid; cbn [ls_mb ls_i ls_coerce ls_actions].
  - split; [lia|]. replace (S (i - 1)) with i by lia.
    assert (T1 = T) as ->.
    { apply record_calc. apply identity_calc in Hid.
      destruct (narrow_shape mb T1 p) as (Hsh & _). fold p1 in Hsh.
      unfold getModuleId in *. by rewrite <- Hsh. }
    intros v Hv.
    apply (candidate_stable mb _ i i T T v); try done; [by apply Hsame|by apply HC].
  - split; [lia|]. intros v Hv.
    destruct (record_entry mb i p T v) as [Heq|(Hc & H0 & Hent)]; fold T1 in Heq || fold T1 in Hent.
    + apply (candidate_stable mb _ i (S i) T T1 v); try done;
        [by apply Hsame|lia|]. apply HC. unfold CandidateRecorded in *. by rewrite <- Heq.
    + assert (p1 = p) as Hp1.
      { unfold p1. apply narrow_not_operator.
        by apply (isHgeConstructor_not_operator mb). }
      assert (getInstrPtr (mkMalBlk (take i st ++ p1 :: drop (S i) st) vars) i = p) as Hq.
      { rewrite Hp1, Hsplit. unfold getInstrPtr. simpl.
        by apply list_lookup_total_correct. }
      unfold CandidateOf. rewrite Hent. simpl. rewrite Hq.
      repeat split; try done; lia.
Qed.

(** In the table of a run, the entries that are recorded are those that a
    wide constructor has written: each of them describes a constructor that
    the loop has passed. *)
Lemma recorded_by_constructor (mb : MalBlkRecord) (n v : nat) :
  let s := run n (loopInit mb (replicate (vtop mb) Coercion_zero)) in
  CandidateRecorded (ls_coerce s) v →
  candidate (ls_mb s) (ls_i s) (ls_coerce s) v.
Proof.
  intros s. apply loop_keeps_recorded; [simpl; lia|].
  simpl. intros u Hu. unfold CandidateRecorded in Hu. by rewrite zero_table_lookup in Hu.
Qed.

(** *** The rest of a run *)

Local Abbreviation after s :=
  (mkLoop (ls_mb (body s)) (S (ls_i (body s))) (ls_coerce (body s))
     (ls_actions (body s))).

Lemma run_stuck (n : nat) (s : LoopState) :
  ¬ (ls_i s < stop (ls_mb s)) → run n s = s.
Proof.
  intros H. destruct n; [done|]. rewrite loop_S. by rewrite bool_decide_eq_false_2.
Qed.

Lemma run_add (n m : nat) (s : LoopState) : run (n + m) s = run m (run n s).
Proof.
  revert s. induction n as [|n IH]; intros s; [done|].
  change (S n + m) with (S (n + m)). rewrite !loop_S.
  case_bool_decide as H; [apply IH|]. by rewrite run_stuck.
Qed.

Lemma run_one (s : LoopState) :
  ls_i s < stop (ls_mb s) → run 1 s = after s.
Proof. intros H. rewrite loop_S. by rewrite bool_decide_eq_true_2. Qed.

Lemma rounds_left (n : nat) (s : LoopState) :
  1 ≤ ls_i s → ls_i s ≤ stop (ls_mb s) → n ≤ stop (ls_mb s) - ls_i s →
  1 ≤ ls_i (run n s)
  ∧ ls_i (run n s) + (stop (ls_mb s) - ls_i s - n) = stop (ls_mb (run n s)).
Proof.
  revert s. induction n as [|n IH]; intros s Hi Hle Hn.
  - simpl. lia.
  - rewrite loop_S. rewrite bool_decide_eq_true_2 by lia.
    destruct (round_advances s Hi ltac:(lia)) as (Ha & Hb & Hc).
    destruct (IH _ Ha Hb ltac:(lia)) as (Hd & He).
    split; [done|]. rewrite <- He. rewrite Hc. lia.
Qed.

Lemma run_enough (k : nat) (s : LoopState) :
  1 ≤ ls_i s → ls_i s ≤ stop (ls_mb s) → stop (ls_mb s) - ls_i s ≤ k →
  run k s = run (stop (ls_mb s) - ls_i s) s.
Proof.
  intros Hi Hle Hk.
  replace k with ((stop (ls_mb s) - ls_i s) + (k - (stop (ls_mb s) - ls_i s))) at 1 by lia.
  rewrite run_add. apply run_stuck.
  destruct (rounds_left (stop (ls_mb s) - ls_i s) s Hi Hle ltac:(lia)) as [_ H]. lia.
Qed.

(** Whatever the number of rounds made, the run of the pass ends in the
    state in which enough further rounds end. *)
Lemma run_final (mb : MalBlkRecord) (T : list Coercion) (n k : nat) :
  let s := run n (loopInit mb T) in
  stop (ls_mb s) - ls_i s ≤ k →
  run (stop mb) (loopInit mb T) = run k s.
Proof.
  intros s Hk.
  destruct (decide (stop mb = 0)) as [H0|H0].
  { assert (∀ m, run m (loopInit mb T) = loopInit mb T) as Hst.
    { intros m. apply run_stuck. simpl. lia. }
    unfold s. by rewrite !Hst. }
  set (s0 := loopInit mb T) in *.
  assert (1 ≤ ls_i s0) as Hi0 by (simpl; lia).
  assert (ls_i s0 ≤ stop (ls_mb s0)) as Hle0 by (simpl; lia).
  destruct (decide (n ≤ stop mb - 1)) as [Hn|Hn].
  - destruct (rounds_left n s0 Hi0 Hle0 ltac:(simpl; lia)) as [Ha Hb].
    fold s in Ha, Hb. simpl in Hb.
    replace (stop mb) with (n + (stop mb - n)) at 1 by lia.
    rewrite run_add. fold s.
    rewrite (run_enough (stop mb - n) s) by lia.
    by rewrite (run_enough k s) by lia.
  - destruct (rounds_left (stop mb - 1) s0 Hi0 Hle0 ltac:(simpl; lia)) as [Ha Hb].
    simpl in Hb.
    set (se := run (stop mb - 1) s0) in *.
    assert (∀ m, run m se = se) as Hst by (intros m; apply run_stuck; lia).
    assert (s = se) as Hs.
    { unfold s. replace n with ((stop mb - 1) + (n - (stop mb - 1))) by lia.
      rewrite run_add. apply Hst. }
    rewrite Hs, Hst.
    replace (stop mb) with ((stop mb - 1) + 1) at 1 by lia.
    rewrite run_add. apply Hst.
Qed.

Lemma OPT_run (mb : MalBlkRecord) (n k : nat) :
  let s := run n (loopInit mb (replicate (vtop mb) Coercion_zero)) in
  stop (ls_mb s) - ls_i s ≤ k →
  OPT true mb = (ls_mb (run k s), ls_actions (run k s)).
Proof.
  intros s Hk. unfold OPTcoercionImplementation, GDKzalloc.
  by rewrite (run_final mb _ n k Hk).
Qed.

Lemma run_keeps (n : nat) (s : LoopState) :
  1 ≤ ls_i s →
  1 ≤ ls_i (run n s) ∧ var (ls_mb (run n s)) = var (ls_mb s).
Proof.
  intros Hi.
  apply (run_invariant (λ s', 1 ≤ ls_i s' ∧ var (ls_mb s') = var (ls_mb s))); [|done].
  clear. intros [[st vars] i T acts] (Hi & Hv) Hlt.
  cbn [ls_mb ls_i ls_coerce ls_actions] in *. unfold stop in Hlt. simpl in Hlt.
  destruct (lookup_lt_is_Some_2 st i Hlt) as [p Hp].
  pose proof (take_drop_middle _ _ _ Hp) as Hsplit.
  assert (length (take i st) = i) as Hlen by (rewrite length_take; lia).
  pose proof (loopBody_split (take i st) (drop (S i) st) p vars T acts) as HB.
  rewrite Hlen, Hsplit in HB. cbv zeta in HB. rewrite HB. clear HB.
  destruct (getModuleId p); [destruct (identity _ _)|];
    cbn [ls_mb ls_i ls_coerce ls_actions var]; (split; [lia|done]).
Qed.

(** The rounds from a state in which the loop stands at the end of [pre]
    leave [pre] alone and make of the rest what [sweep] makes of it. *)
Lemma run_sweep (k i : nat) (pre rest : list InstrRecord) (vars : list VarRecord)
    (T : list Coercion) (acts : nat) :
  length pre = i → pre ≠ [] → length rest ≤ k →
  ∃ out T' c,
    sweeps k i (mkMalBlk [] vars) T rest = (out, T', c)
    ∧ run k (mkLoop (mkMalBlk (pre ++ rest) vars) i T acts)
      = mkLoop (mkMalBlk (pre ++ out) vars) (length (pre ++ out)) T' (acts + c)
    ∧ length out + c = length rest.
Proof.
  intros <- Hpre Hk.
  destruct (sweeps k (length pre) (mkMalBlk [] vars) T rest) as [[out T'] c] eqn:Hw.
  exists out, T', c. split; [done|].
  destruct (loop_sweep k pre rest vars T acts (mkMalBlk [] vars) _ out T' c
              eq_refl Hpre eq_refl Hw) as (H1 & H2 & H3 & H4).
  split; [|by apply sweep_length in Hw].
  destruct (run k _) as [m j t ac]. simpl in *. rewrite H4 by done. by subst.
Qed.

(** A round that counts a removal: the instruction at the current index is
    an identity coercion, [coercionOptimizerStep] returns 1, and the loop
    goes on at the same index of the block in which the instruction is
    gone and the operands of the later ones are renamed. *)
Lemma removal_round (st : list InstrRecord) (vars : list VarRecord) (i : nat)
    (T : list Coercion) (acts : nat) :
  let mb := mkMalBlk st vars in
  let s := mkLoop mb i T acts in
  let p := getInstrPtr mb i in
  let mb' := mkMalBlk (take i st
                       ++ (substOperands (getArg p 0) (getArg p 1) <$> drop (S i) st))
               vars in
  1 ≤ i → i < length st → ls_actions (body s) = S acts →
  stmt mb = take i st ++ p :: drop (S i) st
  ∧ isRef (getModuleId p) calcRef = true ∧ argc p = 2
  ∧ Step mb i p = (mb', 1)
  ∧ after s = mkLoop mb' i T (acts + 1).
Proof.
  intros mb s p mb' Hi Hlt Hact.
  assert (st !! i = Some p) as Hp by (by apply list_lookup_lookup_total_lt).
  pose proof (take_drop_middle _ _ _ Hp) as Hsplit.
  assert (length (take i st) = i) as Hlen by (rewrite length_take; lia).
  pose proof (loopBody_split (take i st) (drop (S i) st) p vars T acts) as HB.
  pose proof (coercionOptimizerStep_split (take i st) (drop (S i) st) p vars) as HS.
  rewrite Hlen, Hsplit in HB, HS. cbv zeta in HB, HS. fold mb in HB, HS.
  fold s in HB. rewrite HB in Hact |- *. clear HB.
  split; [done|].
  destruct (getModuleId p) eqn:Hmod; [|simpl in Hact; lia].
  set (T1 := record mb i p T) in *. set (p1 := narrow mb T1 p) in *.
  destruct (identity mb p1) eqn:Hid; [|simpl in Hact; lia].
  assert (isRef (getModuleId p) calcRef = true) as Hcalc.
  { apply identity_calc in Hid.
    destruct (narrow_shape mb T1 p) as (Hsh & _). fold p1 in Hsh.
    unfold getModuleId in *. by rewrite <- Hsh. }
  assert (T1 = T) as HT1 by (by apply record_calc).
  assert (p1 = p) as Hp1
    by (apply narrow_not_batcalc; by apply isRef_calc_not_batcalc).
  rewrite Hp1 in Hid |- *. rewrite HT1.
  unfold isIdentityCoercion in Hid. rewrite !andb_true_iff in Hid.
  destruct Hid as [[[_ Hc] Ht] Hn]. apply bool_decide_eq_true in Hc.
  split; [by rewrite Hmod in Hcalc|]. split; [done|]. split.
  - rewrite HS, Ht, Hn. done.
  - cbn [ls_mb ls_i ls_coerce ls_actions]. by replace (S (i - 1)) with i by lia.
Qed.

(** *** Removals within a run *)

Lemma substOperands_fresh (a b : nat) (q : InstrRecord) :
  a ≠ b → ¬ inResultSlot a q → a ∉ argv (substOperands a b q).
Proof.
  intros Hab Hres Hin. apply list_elem_of_lookup_1 in Hin as [k Hk].
  rewrite substOperands_lookup in Hk. case_bool_decide as Hr.
  - destruct (argv q !! k) as [u|]; simplify_eq/=.
    unfold renameVar in Hk. case_bool_decide; congruence.
  - apply Hres. exists k. split; [lia|done].
Qed.

Lemma candidate_source (mb : MalBlkRecord) (i : nat) (T : list Coercion) (v : nat) :
  candidate mb i T v →
  ∃ j, j < i ∧ src (T !!! v) ∈ argv (getInstrPtr mb j).
Proof.
  intros (_ & Hpc & Hc & _ & Hs & _). exists (pc (T !!! v)). split; [done|].
  rewrite <- Hs. apply getArg_elem_of.
  unfold isHgeConstructor in Hc. rewrite !andb_true_iff in Hc.
  destruct Hc as [[[_ Hc] _] _]. apply bool_decide_eq_true in Hc. lia.
Qed.

(** C2, amended.  Let a round of the pass count a removal, at index [i],
    of an instruction with result variable [a] and operand variable [b].
    Then the instruction is a two-argument [calc] instruction on which
    [coercionOptimizerStep] returns 1.  Right after the removal the
    instructions before [i] are unchanged; every later instruction has
    moved down by one, keeps its opcode, its shape and its result slots,
    and has [b] in every operand slot that named [a]; and [a] is in no
    result slot, provided that no other instruction had [a] in a result
    slot.  After the pass the instructions before [i] are still the same,
    and [a] is in no slot of the block at all, provided that [a] is not
    [b], that no instruction before [i] names [a] and that no instruction
    after [i] has [a] in a result slot. *)
Theorem identity_removal_rewrites_suffix (mb : MalBlkRecord) (n : nat) :
  let s := run n (loopInit mb (replicate (vtop mb) Coercion_zero)) in
  let mbn := ls_mb s in
  let i := ls_i s in
  let p := getInstrPtr mbn i in
  let a := getArg p 0 in
  let b := getArg p 1 in
  let mb' := ls_mb (body s) in
  let mbF := (OPT true mb).1 in
  i < stop mbn →
  ls_actions (body s) = S (ls_actions s) →
  (isRef (getModuleId p) calcRef = true ∧ argc p = 2 ∧ Step mbn i p = (mb', 1))
  ∧ (var mb' = var mbn ∧ stop mb' = stop mbn - 1
     ∧ (∀ j, j < i → getInstrPtr mb' j = getInstrPtr mbn j)
     ∧ (∀ j, i ≤ j → j < stop mb' →
          let q := getInstrPtr mbn (S j) in
          let q' := getInstrPtr mb' j in
          getModuleId q' = getModuleId q ∧ getFunctionId q' = getFunctionId q
          ∧ retc q' = retc q ∧ argc q' = argc q
          ∧ ∀ k, k < argc q →
              getArg q' k =
              if bool_decide (retc q ≤ k ∧ getArg q k = a) then b else getArg q k)
     ∧ ((∀ j, j ≠ i → ¬ inResultSlot a (getInstrPtr mbn j)) →
        ∀ j, ¬ inResultSlot a (getInstrPtr mb' j)))
  ∧ ((∀ j, j < i → getInstrPtr mbF j = getInstrPtr mbn j)
     ∧ (a ≠ b →
        (∀ j, j < i → a ∉ argv (getInstrPtr mbn j)) →
        (∀ j, i < j → ¬ inResultSlot a (getInstrPtr mbn j)) →
        ¬ occursIn mbF a)).
Proof.
  set (s0 := loopInit mb (replicate (vtop mb) Coercion_zero)).
  assert (∀ v, src (ls_coerce (run n s0) !!! v) ≠ 0 →
               candidate (ls_mb (run n s0)) (ls_i (run n s0)) (ls_coerce (run n s0)) v)
    as HC.
  { apply loop_keeps_candidates; [simpl; lia|].
    simpl. intros u Hu. by rewrite zero_table_lookup in Hu. }
  destruct (run_keeps n s0) as [Hpos _]; [simpl; lia|].
  pose proof (OPT_run mb (n + 1)) as HF. fold s0 in HF. rewrite run_add in HF.
  destruct (run n s0) as [[st vars] i T acts] eqn:Hs.
  cbv zeta. cbn [ls_mb ls_i ls_coerce ls_actions] in *.
  unfold stop at 1. cbn [stmt]. intros Hlt Hact.
  destruct (removal_round st vars i T acts Hpos Hlt Hact)
    as (Hsplit & Hcalc & Hargc & HStep & Hafter).
  cbv zeta in Hsplit, Hcalc, Hargc, HStep, Hafter. cbn [stmt] in Hsplit.
  set (mbn := mkMalBlk st vars) in *.
  set (p := getInstrPtr mbn i) in *.
  set (a := getArg p 0) in *. set (b := getArg p 1) in *.
  set (pre := take i st) in *.
  set (rest' := substOperands a b <$> drop (S i) st) in *.
  assert (length pre = i) as Hlen by (unfold pre; rewrite length_take; lia).
  assert (ls_mb (body (mkLoop mbn i T acts)) = mkMalBlk (pre ++ rest') vars) as Hmb'
    by (by injection Hafter).
  rewrite Hmb'.
  split; [done|]. split.
  { apply (Step_effect mbn _ i); [done|exact HStep]. }
  rewrite run_one in HF by (cbn [ls_mb ls_i]; unfold stop; simpl; lia).
  rewrite Hafter in HF.
  destruct (run_sweep (length rest') i pre rest' vars T (acts + 1) Hlen)
    as (out & T' & c & Hw & Hout & _); [by destruct pre; [simpl in Hlen; lia|]|done|].
  specialize (HF (length rest')). cbv zeta in HF.
  rewrite HF by (cbn [ls_mb ls_i]; unfold stop; simpl; rewrite length_app; lia).
  cbn [fst]. rewrite Hout. cbn [ls_mb].
  split.
  - intros j Hj. unfold getInstrPtr, mbn. cbn [stmt].
    rewrite lookup_total_app_l by lia. unfold pre. by rewrite lookup_total_take_lt.
  - intros Hab Hbefore Hafter' (q & Hq & Ha). cbn [stmt] in Hq.
    assert (ArgsIn (λ v, v ≠ a) (pre ++ out)) as HA; [|by apply (HA q a Hq Ha)].
    intros q0 v Hq0 Hv. apply elem_of_app in Hq0 as [Hq0|Hq0].
    + apply list_elem_of_lookup_1 in Hq0 as [j Hj].
      assert (j < i) as Hji by (apply lookup_lt_Some in Hj; lia).
      intros ->. apply (Hbefore j Hji).
      unfold getInstrPtr, mbn. cbn [stmt].
      unfold pre in Hj. rewrite lookup_take_lt in Hj by done.
      by rewrite (list_lookup_total_correct _ _ _ Hj).
    + revert q0 v Hq0 Hv.
      refine (sweep_args (λ v, v ≠ a) _ _ i T rest' out T' c _ _ Hw).
      * intros v Hv E. destruct (candidate_source _ _ _ _ (HC v Hv)) as (j & Hj & Hin).
        apply (Hbefore j Hj). by rewrite <- E.
      * intros q1 v Hq1 Hv ->. unfold rest' in Hq1.
        apply list_elem_of_fmap in Hq1 as (q2 & -> & Hq2).
        apply list_elem_of_lookup_1 in Hq2 as [j Hj]. rewrite lookup_drop in Hj.
        apply (substOperands_fresh a b q2 Hab); [|done].
        specialize (Hafter' (S i + j) ltac:(lia)).
        unfold getInstrPtr, mbn in Hafter'. cbn [stmt] in Hafter'.
        by rewrite (list_lookup_total_correct _ _ _ Hj) in Hafter'.
Qed.

(** *** Chains of identity casts within a run *)





End Properties.

(** ** The two builds *)

Lemma sweep_builds (getColumnType : Z → Z) (ATOMname : Z → string) (TYPE_hge : Z)
    (h1 h2 : bool) (mb0 : MalBlkRecord) (n : nat) :
  ∀ (i : nat) (T : list Coercion) (rest : list InstrRecord),
    Forall (λ q, isHgeCall q = false) rest →
    sweep getColumnType ATOMname TYPE_hge h1 n i mb0 T rest
    = sweep getColumnType ATOMname TYPE_hge h2 n i mb0 T rest.
Proof.
  induction n as [|n IH]; intros i T rest HF; [done|].
  destruct HF as [|p rest Hp HF]; [done|].
  rewrite !sweep_cons. destruct (getModuleId p); [|by rewrite IH].
  cbv zeta. rewrite !record_not_hge by done.
  destruct (isIdentityCoercion ATOMname mb0 _).
  - rewrite IH; [done|]. by apply Forall_fmap, (Forall_impl _ _ _ HF).
  - by rewrite IH.
Qed.

(** X10.  On a block without a call of [batcalc.hge] the build with
    [HAVE_HGE] and the build without it do the same: the pass returns the
    same block and the same number. *)
Theorem builds_agree_without_hge_calls (getColumnType : Z → Z) (ATOMname : Z → string)
    (TYPE_hge : Z) (succeeds : bool) (mb : MalBlkRecord) :
  existsb isHgeCall (body_of mb) = false →
  OPTcoercionImplementation getColumnType ATOMname TYPE_hge true succeeds mb
  = OPTcoercionImplementation getColumnType ATOMname TYPE_hge false succeeds mb.
Proof.
  intros Hno. destruct succeeds; [|done].
  destruct mb as [[|sig rest] vars]; [done|].
  rewrite !OPT_sweep_eq.
  rewrite (sweep_builds _ _ _ true false); [done|].
  apply Forall_forall. intros q Hq.
  destruct (isHgeCall q) eqn:E; [|done].
  assert (existsb isHgeCall rest = true) as Hex.
  { apply existsb_exists. exists q. split; [by apply list_elem_of_In|done]. }
  unfold body_of in Hno. simpl in Hno. rewrite drop_0 in Hno. congruence.
Qed.

(** ** The scenarios *)

(** The blocks of the scenarios are well formed. *)
Lemma scenarios_wf :
  wf_MalBlk (Gdk.wideProg (Gdk.newBatType Gdk.TYPE_lng)) = true
  ∧ wf_MalBlk (Gdk.wideProg (Gdk.newBatType Gdk.TYPE_hge)) = true
  ∧ wf_MalBlk Gdk.castProg = true
  ∧ wf_MalBlk Gdk.chainProg = true
  ∧ wf_MalBlk Gdk.reassignProg = true
  ∧ wf_MalBlk Gdk.twoResultProg = true.
Proof. by vm_compute. Qed.

(** Scenario 1: the identity cast is removed and the addition reads [x]. *)
Example identity_cast_removed :
  Gdk.pass true Gdk.castProg
  = (mkMalBlk [Gdk.sig; mkInstr (Some "calc") (Some "+") 1 [3; 1; 4]] Gdk.intVars, 1).
Proof. by vm_compute. Qed.

Lemma further_scenarios_wf :
  wf_MalBlk Gdk.zeroSrcProg = true
  ∧ wf_MalBlk Gdk.castWideProg = true
  ∧ wf_MalBlk Gdk.lateChainProg = true.
Proof. by vm_compute. Qed.

(** Scenario 4: both casts are removed and the addition reads [x] twice. *)
Example chained_casts_scenario :
  Gdk.pass true Gdk.chainProg
  = (mkMalBlk [Gdk.sig; mkInstr (Some "calc") (Some "+") 1 [4; 1; 1]] Gdk.intVars, 2).
Proof. by vm_compute. Qed.

(** C1, on the addition of scenario 3 with the candidate of [w] in the
    table: both operand slots are eligible and both receive [x]. *)
Lemma narrowing_rewrites_exactly_eligible_witness :
  let mb := Gdk.wideProg (Gdk.newBatType Gdk.TYPE_hge) in
  isCalcFamily (getInstrPtr mb 2) = true
  ∧ getArg (getInstrPtr (coercionOptimizerCalcStep Gdk.getColumnType mb 2 Gdk.wideTable) 2) 1 = 1
  ∧ getArg (getInstrPtr (coercionOptimizerCalcStep Gdk.getColumnType mb 2 Gdk.wideTable) 2) 2 = 1.
Proof.
  intros mb.
  destruct (narrowing_rewrites_exactly_eligible Gdk.getColumnType mb 2 Gdk.wideTable eq_refl)
    as (H & _).
  assert (NarrowingEligible Gdk.getColumnType mb Gdk.wideTable 3 2) as HE.
  { unfold NarrowingEligible, ClaimedEligible, CandidateRecorded.
    vm_compute. repeat split; congruence. }
  split; [reflexivity|].
  split; [apply (H 1 (or_introl eq_refl)) | apply (H 2 (or_intror eq_refl))]; exact HE.
Defined.

(** C1 as stated fails: on [zeroSrcProg] the constructor at index 1 records
    a candidate for [w] whose source is variable 0.  When the loop stands
    at the addition, the operand [w] has the base type of the result, a
    candidate is recorded for it and the recorded source type, [lng], is
    below [hge]; the Narrowing Rewriter keeps [w] in the slot all the same,
    and the pass hands the block back as it was. *)
Lemma zero_source_candidate_not_applied :
  let mb := Gdk.zeroSrcProg in
  let s := loop Gdk.getColumnType Gdk.ATOMname Gdk.TYPE_hge true 1
             (loopInit mb (replicate (vtop mb) Coercion_zero)) in
  let p := getInstrPtr (ls_mb s) 2 in
  (ls_i s = 2 ∧ ls_mb s = mb
   ∧ ls_coerce s !!! 2 = mkCoercion 1 Gdk.TYPE_lng Gdk.TYPE_hge 0 18 2)
  ∧ isCalcFamily p = true
  ∧ ClaimedEligible Gdk.getColumnType (ls_mb s) (ls_coerce s) (getArg p 0) (getArg p 1)
  ∧ getArg (getInstrPtr
              (coercionOptimizerCalcStep Gdk.getColumnType (ls_mb s) 2 (ls_coerce s)) 2) 1
    = getArg p 1
  ∧ getArg p 1 ≠ src (ls_coerce s !!! getArg p 1)
  ∧ Gdk.pass true mb = (mb, 0).
Proof.
  split; [by vm_compute|]. split; [by vm_compute|].
  split; [|by vm_compute].
  unfold ClaimedEligible, CandidateRecorded. vm_compute. repeat split; congruence.
Qed.

(** C2 as stated fails after the pass, in two ways.  On [reassignProg] the
    pass removes [y := calc.int(x)] at index 1, and [y] is still the result
    of the instruction that follows.  On [castWideProg] the pass removes
    [a := calc.hge(w)] at index 2 and puts [w] in the operand slots of the
    addition that named [a]; when the scan comes to the addition, the
    Narrowing Rewriter replaces [w] by [x], so that after the pass these
    slots name [x], not the operand [w] of the removed instruction. *)
Lemma removed_variable_after_pass :
  ((coercionOptimizerStep Gdk.ATOMname Gdk.reassignProg 1
      (getInstrPtr Gdk.reassignProg 1)).2 = 1
   ∧ ¬ (∀ j, ¬ inResultSlot 2 (getInstrPtr (Gdk.pass true Gdk.reassignProg).1 j)))
  ∧ (let mb := Gdk.castWideProg in
     let s := loop Gdk.getColumnType Gdk.ATOMname Gdk.TYPE_hge true 1
                (loopInit mb (replicate (vtop mb) Coercion_zero)) in
     (ls_i s = 2 ∧ ls_mb s = mb)
     ∧ getInstrPtr mb 2 = castInstr "hge" 3 2
     ∧ argv (getInstrPtr mb 3) = [4; 3; 3]
     ∧ coercionOptimizerStep Gdk.ATOMname mb 2 (getInstrPtr mb 2)
       = (mkMalBlk [Gdk.sig; hgeCons 2 5 1 6 7; addInstr 4 2 2] Gdk.castWideVars, 1)
     ∧ Gdk.pass true mb
       = (mkMalBlk [Gdk.sig; hgeCons 2 5 1 6 7; addInstr 4 1 1] Gdk.castWideVars, 1)).
Proof.
  split; [split; [by vm_compute|]|by vm_compute].
  intros H. apply (H 1). exists 0. by vm_compute.
Qed.

(** C2 on [castWideProg]: the second round of the pass removes
    [a := calc.hge(w)]; [a] is variable 3, and it is in no slot of the block
    that the pass returns. *)
Lemma identity_removal_rewrites_suffix_witness :
  let mb := Gdk.castWideProg in
  let s := loop Gdk.getColumnType Gdk.ATOMname Gdk.TYPE_hge true 1
             (loopInit mb (replicate (vtop mb) Coercion_zero)) in
  let s' := loopBody Gdk.getColumnType Gdk.ATOMname Gdk.TYPE_hge true s in
  (ls_i s < stop (ls_mb s) ∧ ls_actions s' = S (ls_actions s))
  ∧ stop (ls_mb s') = stop (ls_mb s) - 1
  ∧ ¬ occursIn (Gdk.pass true mb).1 3.
Proof.
  intros mb s s'.
  assert (ls_i s < stop (ls_mb s)) as H1 by (vm_compute; lia).
  assert (ls_actions s' = S (ls_actions s)) as H2 by reflexivity.
  destruct (identity_removal_rewrites_suffix Gdk.getColumnType Gdk.ATOMname
              Gdk.TYPE_hge true mb 1 H1 H2) as (_ & (_ & Hstop & _) & _ & Hfree).
  split; [by split|]. split; [exact Hstop|].
  apply Hfree.
  - vm_compute. lia.
  - intros j Hj. vm_compute in Hj.
    destruct j as [|[|j]]; [| |lia];
      apply (bool_decide_eq_true_1 _); vm_compute; reflexivity.
  - intros j Hj (k & Hk & Hv). vm_compute in Hj.
    destruct j as [|[|[|[|j]]]]; vm_compute in Hk, Hv;
      first [lia | congruence | (destruct k as [|k]; [congruence|lia])].
Defined.

(** C3 as stated fails: with [r] a column of [lng], the type of [x], the
    pass does not produce [r := batcalc.+(x, x)]. *)
Lemma narrow_result_not_rewritten :
  stmt (Gdk.pass true (Gdk.wideProg (Gdk.newBatType Gdk.TYPE_lng))).1
  ≠ [Gdk.sig; Gdk.wideCons; addInstr 3 1 1].
Proof. by vm_compute. Qed.

Lemma narrow_result_blocks_rewrite_witness :
  let mb := Gdk.wideProg (Gdk.newBatType Gdk.TYPE_lng) in
  Gdk.getColumnType (getVarType mb 1) = Gdk.getColumnType (getVarType mb 3)
  ∧ Gdk.pass true mb = (mb, 0).
Proof.
  intros mb. split; [reflexivity|].
  apply (narrow_result_blocks_rewrite Gdk.getColumnType Gdk.ATOMname Gdk.TYPE_hge true
           true Gdk.sig (Gdk.wideVars (Gdk.newBatType Gdk.TYPE_lng)) 1 2 3 4 5 6).
  reflexivity.
Defined.

(** C4 as stated fails: with [r] a column of the wide type, both operand
    slots of the addition are rewritten from [w] to [x]. *)
Lemma wide_result_is_rewritten :
  let mb := Gdk.wideProg (Gdk.newBatType Gdk.TYPE_hge) in
  argv (getInstrPtr mb 2) = [3; 2; 2]
  ∧ argv (getInstrPtr (Gdk.pass true mb).1 2) = [3; 1; 1].
Proof. by vm_compute. Qed.

Lemma wide_result_allows_rewrite_witness :
  let mb := Gdk.wideProg (Gdk.newBatType Gdk.TYPE_hge) in
  (2 < vtop mb ∧ 1 ≠ 0 ∧ isVarConstant mb 5 = true ∧ isVarConstant mb 6 = true
   ∧ Gdk.getColumnType (getVarType mb 2) = Gdk.TYPE_hge
   ∧ Gdk.getColumnType (getVarType mb 3) = Gdk.TYPE_hge
   ∧ (Gdk.getColumnType (getVarType mb 1) < Gdk.TYPE_hge)%Z)
  ∧ Gdk.pass true mb
    = (mkMalBlk [Gdk.sig; Gdk.wideCons; addInstr 3 1 1]
         (Gdk.wideVars (Gdk.newBatType Gdk.TYPE_hge)), 0).
Proof.
  intros mb.
  assert (2 < vtop mb) as H1 by (vm_compute; lia).
  assert (1 ≠ 0) as H2 by lia.
  assert ((Gdk.getColumnType (getVarType mb 1) < Gdk.TYPE_hge)%Z) as H3
    by (vm_compute; reflexivity).
  split; [by repeat split|].
  apply (wide_result_allows_rewrite Gdk.getColumnType Gdk.ATOMname Gdk.TYPE_hge true
           Gdk.sig (Gdk.wideVars (Gdk.newBatType Gdk.TYPE_hge)) 1 2 3 4 5 6
           eq_refl H1 H2 eq_refl eq_refl eq_refl eq_refl H3).
Defined.

(** C6 as stated fails: on scenario 3 the Narrowing Rewriter rewrites both
    operand slots of the addition, and the pass returns 0. *)
Lemma narrowing_is_not_counted :
  let mb := Gdk.wideProg (Gdk.newBatType Gdk.TYPE_hge) in
  getArg (getInstrPtr mb 2) 1 = 2
  ∧ getArg (getInstrPtr (Gdk.pass true mb).1 2) 1 = 1
  ∧ (Gdk.pass true mb).2 = 0.
Proof. by vm_compute. Qed.

(** C7, the code at the failing input: the instruction [(x, y) :=
    calc.int()] has two arguments and no operand; the driver hands it to
    [coercionOptimizerStep], which removes it and renames the later operand
    [x] to [y]. *)
Theorem two_result_instruction_removed :
  wf_MalBlk Gdk.twoResultProg = true
  ∧ retc (getInstrPtr Gdk.twoResultProg 1) = 2
  ∧ argc (getInstrPtr Gdk.twoResultProg 1) = 2
  ∧ Gdk.pass true Gdk.twoResultProg
    = (mkMalBlk [Gdk.sig; mkInstr (Some "user") (Some "f") 1 [3; 2]] Gdk.intVars, 1).
Proof. by vm_compute. Qed.


Lemma absent_candidate_is_never_applied_witness :
  let mb := Gdk.wideProg (Gdk.newBatType Gdk.TYPE_hge) in
  neverHgeResult 1 mb = true
  ∧ (∀ n, src (ls_coerce (loop Gdk.getColumnType Gdk.ATOMname Gdk.TYPE_hge true n
                            (loopInit mb (replicate (vtop mb) Coercion_zero))) !!! 1) = 0)
  ∧ getArg (getInstrPtr
              (coercionOptimizerCalcStep Gdk.getColumnType mb 2 (replicate 7 Coercion_zero)) 2) 1
    = 2.
Proof.
  intros mb.
  destruct (absent_candidate_is_never_applied Gdk.getColumnType Gdk.ATOMname
              Gdk.TYPE_hge true mb 1 eq_refl) as [H1 H2].
  split; [reflexivity|]. split.
  - intros n. apply (H1 n).
  - apply (H2 mb 2 (replicate 7 Coercion_zero) 1 (or_introl eq_refl)). reflexivity.
Defined.

(** ** The further properties on the scenarios *)

Lemma loop_makes_stop_minus_one_rounds_witness :
  let mb := Gdk.chainProg in
  let s := loop Gdk.getColumnType Gdk.ATOMname Gdk.TYPE_hge true 3
             (loopInit mb (replicate (vtop mb) Coercion_zero)) in
  (1 ≤ stop mb ∧ 3 ≤ stop mb - 1) ∧ ls_i s = stop (ls_mb s).
Proof.
  intros mb s.
  assert (1 ≤ stop mb) as H1 by (vm_compute; lia).
  assert (3 ≤ stop mb - 1) as H2 by (vm_compute; lia).
  split; [done|].
  destruct (loop_makes_stop_minus_one_rounds Gdk.getColumnType Gdk.ATOMname
              Gdk.TYPE_hge true mb (replicate (vtop mb) Coercion_zero) 3 H1 H2)
    as [_ H].
  fold s in H. rewrite <- H. vm_compute. reflexivity.
Defined.

Lemma wideTable_sound :
  coerce_sound Gdk.getColumnType (Gdk.wideProg (Gdk.newBatType Gdk.TYPE_hge))
    Gdk.wideTable.
Proof.
  intros v Hv.
  do 8 (destruct v as [|v]; [vm_compute in Hv |- *; congruence|]).
  by vm_compute in Hv.
Defined.

Lemma calcstep_twice_witness :
  let mb := Gdk.wideProg (Gdk.newBatType Gdk.TYPE_hge) in
  let mb1 := coercionOptimizerCalcStep Gdk.getColumnType mb 2 Gdk.wideTable in
  argv (getInstrPtr mb1 2) = [3; 1; 1]
  ∧ coercionOptimizerCalcStep Gdk.getColumnType mb1 2 Gdk.wideTable = mb1.
Proof.
  intros mb mb1. split; [reflexivity|].
  apply (calcstep_twice Gdk.getColumnType mb 2 Gdk.wideTable wideTable_sound).
Defined.

Lemma build_without_hge_keeps_types_witness :
  let mb := Gdk.wideProg (Gdk.newBatType Gdk.TYPE_hge) in
  signature mb <$> body_of
    (OPTcoercionImplementation Gdk.getColumnType Gdk.ATOMname Gdk.TYPE_hge false true mb).1
  = signature mb <$> body_of mb.
Proof.
  intros mb.
  apply (build_without_hge_keeps_types Gdk.getColumnType Gdk.ATOMname Gdk.TYPE_hge
           false mb eq_refl).
Defined.

Lemma pass_introduces_no_variable_witness :
  occursIn (Gdk.pass true Gdk.chainProg).1 1 ∧ occursIn Gdk.chainProg 1.
Proof.
  assert (occursIn (Gdk.pass true Gdk.chainProg).1 1) as H.
  { exists (mkInstr (Some "calc") (Some "+") 1 [4; 1; 1]).
    split; vm_compute; [right; left|right; left]. }
  split; [exact H|].
  exact (pass_introduces_no_variable Gdk.getColumnType Gdk.ATOMname Gdk.TYPE_hge true
           true Gdk.chainProg 1 H).
Defined.

Lemma pass_keeps_block_well_formed_witness :
  let mb := Gdk.wideProg (Gdk.newBatType Gdk.TYPE_hge) in
  wf_MalBlk mb = true ∧ wf_MalBlk (Gdk.pass true mb).1 = true.
Proof.
  intros mb. split; [reflexivity|].
  exact (pass_keeps_block_well_formed Gdk.getColumnType Gdk.ATOMname Gdk.TYPE_hge true
           true mb eq_refl).
Defined.

Lemma candidates_describe_passed_constructors_witness :
  let mb := Gdk.wideProg (Gdk.newBatType Gdk.TYPE_hge) in
  let s := loop Gdk.getColumnType Gdk.ATOMname Gdk.TYPE_hge true 2
             (loopInit mb (replicate (vtop mb) Coercion_zero)) in
  src (ls_coerce s !!! 2) ≠ 0
  ∧ CandidateOf Gdk.getColumnType Gdk.TYPE_hge (ls_mb s) (ls_i s) (ls_coerce s) 2.
Proof.
  intros mb s.
  assert (src (ls_coerce s !!! 2) ≠ 0) as H by (vm_compute; lia).
  split; [exact H|].
  exact (candidates_describe_passed_constructors Gdk.getColumnType Gdk.ATOMname
           Gdk.TYPE_hge true mb 2 2 H).
Defined.

Lemma builds_agree_without_hge_calls_witness :
  existsb isHgeCall (body_of Gdk.chainProg) = false
  ∧ OPTcoercionImplementation Gdk.getColumnType Gdk.ATOMname Gdk.TYPE_hge false true
      Gdk.chainProg
    = Gdk.pass true Gdk.chainProg.
Proof.
  split; [reflexivity|]. symmetry.
  exact (builds_agree_without_hge_calls Gdk.getColumnType Gdk.ATOMname Gdk.TYPE_hge
           true Gdk.chainProg eq_refl).
Defined.

(** ** Properties of the function checker of Pathfinder *)

Module PathfinderFacts.

Import Pathfinder.

Section Facts.

Set Default Proof Using "Type".

Variables PFqname_t PFty_t PFloc_t PFenv_t : Type.
Variable PFPNODE_MAXCHILD : nat.
Variable PFty_untyped : PFty_t.
Variable PFenv_lookup : PFenv_t → PFqname_t → option (list (PFfun_t PFqname_t PFty_t)).
Variable PFenv_bind :
  PFenv_t → PFqname_t → PFfun_t PFqname_t PFty_t → PFenv_t * bool.

Local Abbreviation node := (PFpnode_t PFqname_t PFty_t PFloc_t).
Local Abbreviation formal := (formal_args PFqname_t PFty_t PFloc_t).
Local Abbreviation actual := (actual_args PFqname_t PFty_t PFloc_t).
Local Abbreviation check :=
  (check_fun_usage PFqname_t PFty_t PFloc_t PFenv_t PFPNODE_MAXCHILD PFenv_lookup).
Local Abbreviation checks :=
  (check_children PFqname_t PFty_t PFloc_t PFenv_t PFPNODE_MAXCHILD PFenv_lookup).
Local Abbreviation check1 := (check_node PFqname_t PFty_t PFloc_t PFenv_t PFenv_lookup).
Local Abbreviation seen := (visited PFqname_t PFty_t PFloc_t PFPNODE_MAXCHILD).
Local Abbreviation seen_below :=
  (visited_below PFqname_t PFty_t PFloc_t PFPNODE_MAXCHILD).
Local Abbreviation chain := (Chain PFqname_t PFty_t PFloc_t).
Local Abbreviation resolved := (Resolved PFqname_t PFty_t PFloc_t PFPNODE_MAXCHILD).
Local Abbreviation refBound := (RefBound PFqname_t PFty_t PFloc_t PFenv_t PFenv_lookup).
Local Abbreviation declBound := (DeclBound PFqname_t PFty_t PFloc_t PFenv_t PFenv_lookup).

(** *** Counting parameters and arguments *)

Lemma succ_mod (k : nat) :
  ((1 + Z.of_nat k mod UINT_MOD) mod UINT_MOD = Z.of_nat (S k) mod UINT_MOD)%Z.
Proof.
  rewrite Nat2Z.inj_succ. unfold UINT_MOD.
  rewrite Zplus_mod_idemp_r. f_equal. lia.
Qed.

(** X11.  [formal_args] returns a number exactly on the chains of [p_params]
    nodes closed by a [p_nil] node, and the number is the length of the
    chain as an [unsigned int]. *)
Theorem formal_args_counts_chains (n : node) (m : Z) :
  formal n = Ok m ↔ ∃ k, chain p_params k n ∧ m = (Z.of_nat k mod UINT_MOD)%Z.
Proof.
  split.
  - revert m. induction n as [kd s ch l IH] using PFpnode_ind. intros m Hm.
    destruct kd; simpl in Hm; try discriminate.
    + exists 0. split; [constructor|]. by injection Hm as <-.
    + destruct ch as [|c0 [|[c|] cs]]; try discriminate.
      apply Forall_cons in IH as [_ IH]. apply Forall_cons in IH as [IHc _].
      simpl in IHc.
      destruct (formal_args _ _ _ c) as [r| | |] eqn:E; try discriminate.
      injection Hm as <-. destruct (IHc r eq_refl) as (k & Hk & ->).
      exists (S k). split; [by constructor|]. apply succ_mod.
  - intros (k & Hk & ->). induction Hk as [|k s c0 c cs l Hne Hk IH]; [done|].
    simpl. rewrite IH. f_equal. apply succ_mod.
Qed.

(** X12.  [actual_args] returns a number exactly on the chains of [p_args]
    nodes closed by a [p_nil] node, and the number is the length of the
    chain as an [unsigned int]. *)
Theorem actual_args_counts_chains (n : node) (m : Z) :
  actual n = Ok m ↔ ∃ k, chain p_args k n ∧ m = (Z.of_nat k mod UINT_MOD)%Z.
Proof.
  split.
  - revert m. induction n as [kd s ch l IH] using PFpnode_ind. intros m Hm.
    destruct kd; simpl in Hm; try discriminate.
    + exists 0. split; [constructor|]. by injection Hm as <-.
    + destruct ch as [|c0 [|[c|] cs]]; try discriminate.
      apply Forall_cons in IH as [_ IH]. apply Forall_cons in IH as [IHc _].
      simpl in IHc.
      destruct (actual_args _ _ _ c) as [r| | |] eqn:E; try discriminate.
      injection Hm as <-. destruct (IHc r eq_refl) as (k & Hk & ->).
      exists (S k). split; [by constructor|]. apply succ_mod.
  - intros (k & Hk & ->). induction Hk as [|k s c0 c cs l Hne Hk IH]; [done|].
    simpl. rewrite IH. f_equal. apply succ_mod.
Qed.

(** *** The tree walk *)

Lemma check_fun_usage_unfold (env : PFenv_t) (k : PFptype_t)
    (s : PFpsem_t PFqname_t PFty_t) (ch : list (option node)) (l : PFloc_t) :
  check env (PNode k s ch l) = (ch' <- checks env PFPNODE_MAXCHILD ch ;; check1 env k s ch' l).
Proof.
  simpl. unfold andThen.
  match goal with
  | |- match ?F PFPNODE_MAXCHILD ch with _ => _ end = _ =>
      assert (∀ i cs, F i cs = checks env i cs) as Hfix
  end.
  { intros i cs. revert i. induction cs as [|[c|] cs IH]; intros [|i]; try done.
    simpl. rewrite IH. unfold andThen. by destruct (check_fun_usage _ _ _ _ _ _ env c). }
  by rewrite Hfix.
Qed.

Lemma visited_unfold (k : PFptype_t) (s : PFpsem_t PFqname_t PFty_t)
    (ch : list (option node)) (l : PFloc_t) :
  seen (PNode k s ch l) = seen_below PFPNODE_MAXCHILD ch ++ [PNode k s ch l].
Proof.
  simpl. f_equal.
  match goal with
  | |- ?F PFPNODE_MAXCHILD ch = _ =>
      assert (∀ i cs, F i cs = seen_below i cs) as Hfix
  end.
  { intros i cs. revert i. induction cs as [|[c|] cs IH]; intros [|i]; try done.
    simpl. by rewrite IH. }
  by rewrite Hfix.
Qed.

Lemma check_node_shape (env : PFenv_t) (k : PFptype_t) (s : PFpsem_t PFqname_t PFty_t)
    (ch : list (option node)) (l : PFloc_t) (n' : node) :
  check1 env k s ch l = Ok n' →
  child _ _ _ n' = ch ∧ loc _ _ _ n' = l
  ∧ kind _ _ _ n' = resolved_kind k
  ∧ (k ≠ p_fun_ref → k ≠ p_fun_decl → n' = PNode k s ch l).
Proof.
  unfold check_node, andThen. intros H.
  destruct k; simplify_eq/=; try done.
  - destruct (sem_read_qname _ _ s) as [q| | |]; try discriminate.
    destruct (PFenv_lookup env q) as [funs|]; try discriminate.
    destruct (PFarray_at0 _ _ funs) as [f| | |]; try discriminate.
    by simplify_eq.
  - destruct (sem_read_qname _ _ s) as [q| | |]; try discriminate.
    destruct (PFenv_lookup env q) as [funs|]; try discriminate.
    destruct (PFarray_at0 _ _ funs) as [f| | |]; try discriminate.
    destruct ch as [|[c0|] cs]; try discriminate.
    destruct (actual_args _ _ _ c0) as [ar| | |]; try discriminate.
    case_bool_decide; by simplify_eq.
Qed.

Lemma check_children_inv (env : PFenv_t) (i : nat) (cs cs' : list (option node)) :
  checks env i cs = Ok cs' →
  (cs' = cs ∧ seen_below i cs = [])
  ∨ ∃ i' c t c' t',
      i = S i' ∧ cs = Some c :: t ∧ cs' = Some c' :: t'
      ∧ check env c = Ok c' ∧ checks env i' t = Ok t'.
Proof.
  destruct i as [|i], cs as [|[c|] t]; simpl; intros H; simplify_eq; try (by left).
  right. unfold andThen in H.
  destruct (check_fun_usage _ _ _ _ _ _ env c) as [c'| | |] eqn:Ec; try discriminate.
  destruct (check_children _ _ _ _ _ _ env i t) as [t'| | |] eqn:Et; try discriminate.
  simplify_eq. by exists i, c, t, c', t'.
Qed.

(** Every child is handed back as it was or as the walk left it. *)
Lemma check_children_rel (env : PFenv_t) (i : nat) (cs cs' : list (option node)) :
  checks env i cs = Ok cs' →
  Forall2 (λ oc oc', oc' = oc
                     ∨ ∃ d d', oc = Some d ∧ oc' = Some d' ∧ check env d = Ok d')
    cs cs'.
Proof.
  revert i cs'. induction cs as [|oc cs IH]; intros i cs' H.
  - destruct i; simpl in H; simplify_eq; constructor.
  - destruct (check_children_inv env i _ _ H)
      as [[-> _]|(i' & c & t & c' & t' & -> & Hc & -> & Hcc & Ht)].
    + apply Forall_Forall2_diag, Forall_forall. intros x _. by left.
    + simplify_eq. constructor; [right; by exists c, c'|]. by apply (IH i').
Qed.

Lemma actual_args_kind (n : node) :
  kind _ _ _ n ≠ p_nil → kind _ _ _ n ≠ p_args → actual n = Oops OOPS_FATAL.
Proof. destruct n as [[] s ch l]; simpl; done. Qed.

(** The walk does not change what [actual_args] finds. *)
Lemma actual_args_check (env : PFenv_t) (c c' : node) :
  check env c = Ok c' → actual c' = actual c.
Proof.
  revert c'. induction c as [k s ch l IH] using PFpnode_ind. intros c' H.
  rewrite check_fun_usage_unfold in H. unfold andThen in H.
  destruct (checks env PFPNODE_MAXCHILD ch) as [ch'| | |] eqn:Ech; try discriminate.
  destruct (check_node_shape env k s ch' l c' H) as (Hch & Hl & Hk & Hsame).
  destruct (decide (k = p_nil)) as [->|Hnil].
  { rewrite Hsame by done. done. }
  destruct (decide (k = p_args)) as [->|Hargs].
  2:{ rewrite (actual_args_kind (PNode k s ch l)) by done.
      apply actual_args_kind; rewrite Hk; by destruct k. }
  rewrite Hsame by done. simpl.
  pose proof (check_children_rel env _ _ _ Ech) as HF.
  destruct HF as [|c0 c0' cs cs' _ HF]; [done|].
  destruct HF as [|c1 c1' cs cs' H1 _]; [done|].
  apply Forall_cons in IH as [_ IH]. apply Forall_cons in IH as [IH1 _].
  destruct H1 as [->|(d & d' & -> & -> & Hdd)]; [done|].
  simpl in IH1. by rewrite (IH1 d' Hdd).
Qed.

Local Abbreviation walk :=
  (Walk PFqname_t PFty_t PFloc_t PFenv_t PFPNODE_MAXCHILD PFenv_lookup).

(** Induction on a successful walk. *)
Lemma check_fun_usage_walk (env : PFenv_t) (R : node → node → Prop) :
  (∀ k s ch l ch' n',
     checks env PFPNODE_MAXCHILD ch = Ok ch' →
     walk env R PFPNODE_MAXCHILD ch ch' →
     check1 env k s ch' l = Ok n' → R (PNode k s ch l) n') →
  ∀ n n', check env n = Ok n' → R n n'.
Proof.
  intros Hstep n. induction n as [k s ch l IH] using PFpnode_ind. intros n' H.
  rewrite check_fun_usage_unfold in H. unfold andThen in H.
  destruct (checks env PFPNODE_MAXCHILD ch) as [ch'| | |] eqn:Ech; try discriminate.
  apply (Hstep k s ch l ch' n'); [done| |done].
  assert (∀ i cs cs',
            Forall (OnChild _ _ _ (λ n, ∀ n', check env n = Ok n' → R n n')) cs →
            checks env i cs = Ok cs' → walk env R i cs cs') as Hall; [|by apply Hall].
  clear. intros i cs. revert i.
  induction cs as [|oc cs IHcs]; intros i cs' IH Ech.
  - destruct i; simpl in Ech; simplify_eq; by constructor.
  - apply Forall_cons in IH as [IHc IH].
    destruct (check_children_inv env i _ _ Ech)
      as [[-> Hs]|(i' & c & t & c' & t' & -> & Hc & -> & Hcc & Ht)].
    + by constructor.
    + simplify_eq. constructor; [done|by apply IHc|by apply IHcs].
Qed.

Lemma walk_seen_below (env : PFenv_t) (R : node → node → Prop) (i : nat)
    (cs cs' : list (option node)) (Q : node → Prop) :
  walk env R i cs cs' →
  (∀ c c', R c c' → ∀ m, m ∈ seen c → Q m) →
  ∀ m, m ∈ seen_below i cs → Q m.
Proof.
  intros HW HR. induction HW as [i cs Hs|i c t c' t' Hc HRc HW IH]; intros m Hm.
  - rewrite Hs in Hm. by apply elem_of_nil in Hm.
  - simpl in Hm. apply elem_of_app in Hm as [Hm|Hm]; [by apply (HR c c')|by apply IH].
Qed.

Lemma walk_seen_below' (env : PFenv_t) (R : node → node → Prop) (i : nat)
    (cs cs' : list (option node)) (Q : node → Prop) :
  walk env R i cs cs' →
  (∀ c c', R c c' → ∀ m, m ∈ seen c' → Q m) →
  ∀ m, m ∈ seen_below i cs' → Q m.
Proof.
  intros HW HR. induction HW as [i cs Hs|i c t c' t' Hc HRc HW IH]; intros m Hm.
  - rewrite Hs in Hm. by apply elem_of_nil in Hm.
  - simpl in Hm. apply elem_of_app in Hm as [Hm|Hm]; [by apply (HR c c')|by apply IH].
Qed.

Lemma walk_head (env : PFenv_t) (R : node → node → Prop) (i : nat)
    (cs t' : list (option node)) (c0' : node) :
  walk env R i cs (Some c0' :: t') →
  ∃ c0 t, cs = Some c0 :: t ∧ actual c0 = actual c0'.
Proof.
  inversion 1 as [? ? Hs|? c ? ? ? Hc _ _]; subst.
  - by exists c0', t'.
  - exists c, t. split; [done|]. symmetry. by apply (actual_args_check env).
Qed.

Lemma check_bound (env : PFenv_t) (n n' : node) :
  check env n = Ok n' →
  ∀ m, m ∈ seen n →
       (kind _ _ _ m = p_fun_ref → refBound env m)
       ∧ (kind _ _ _ m = p_fun_decl → declBound env m).
Proof.
  revert n n'.
  apply (check_fun_usage_walk env
           (λ n _, ∀ m, m ∈ seen n →
              (kind _ _ _ m = p_fun_ref → refBound env m)
              ∧ (kind _ _ _ m = p_fun_decl → declBound env m))).
  intros k s ch l ch' n' Hch HW H1 m Hm.
  rewrite visited_unfold in Hm. apply elem_of_app in Hm as [Hm|Hm].
  { revert m Hm. apply (walk_seen_below env _ _ _ _ _ HW). by intros c c' Hc. }
  apply list_elem_of_singleton in Hm as ->. simpl.
  unfold check_node, andThen in H1.
  split; intros ->.
  - destruct (sem_read_qname _ _ s) as [q| | |] eqn:Es; try discriminate.
    destruct (PFenv_lookup env q) as [funs|] eqn:El; try discriminate.
    destruct funs as [|f funs]; try discriminate. simpl in H1.
    destruct ch' as [|[c0'|] t']; try discriminate.
    destruct (actual_args _ _ _ c0') as [ar| | |] eqn:Ea; try discriminate.
    case_bool_decide as Har; try discriminate.
    destruct (walk_head env _ _ _ _ _ HW) as (c0 & t & -> & Hact).
    assert (actual c0 = Ok (arity _ _ f)) as Hfin by (rewrite Hact, Ea; by f_equal).
    exists q, f, funs, c0, t. by destruct s; simplify_eq/=.
  - destruct (sem_read_qname _ _ s) as [q| | |] eqn:Es; try discriminate.
    destruct (PFenv_lookup env q) as [funs|] eqn:El; try discriminate.
    destruct funs as [|f funs]; try discriminate.
    exists q, f, funs. by destruct s; simplify_eq/=.
Qed.

(** X13.  When [check_fun_usage] returns, every reference to a function
    that it has visited names a function bound in the environment whose
    first descriptor has as many parameters as the reference has arguments,
    and every declaration that it has visited names a bound function. *)
Theorem checked_references_are_bound (env : PFenv_t) (n n' : node) :
  check_fun_usage _ _ _ _ PFPNODE_MAXCHILD PFenv_lookup env n = Ok n' →
  ∀ m, m ∈ visited _ _ _ PFPNODE_MAXCHILD n →
       (kind _ _ _ m = p_fun_ref → RefBound _ _ _ _ PFenv_lookup env m)
       ∧ (kind _ _ _ m = p_fun_decl → DeclBound _ _ _ _ PFenv_lookup env m).
Proof. apply check_bound. Qed.

Lemma check_resolved (env : PFenv_t) (n n' : node) :
  check env n = Ok n' → resolved n'.
Proof.
  revert n n'. apply (check_fun_usage_walk env (λ _ n', resolved n')).
  intros k s ch l ch' n' Hch HW H1 m Hm.
  destruct (check_node_shape env k s ch' l n' H1) as (Hc & Hl & Hk & _).
  destruct n' as [k' s' ch'' l']. simpl in Hc, Hk. subst ch''.
  rewrite visited_unfold in Hm. apply elem_of_app in Hm as [Hm|Hm].
  { revert m Hm. apply (walk_seen_below' env _ _ _ _ _ HW).
    intros c c' Hc m Hm. by apply Hc. }
  apply list_elem_of_singleton in Hm as ->. simpl. rewrite Hk. by destruct k.
Qed.

Local Abbreviation tag := (walk_tag PFqname_t PFty_t PFloc_t).
Local Abbreviation PFcheck :=
  (PFfun_check PFqname_t PFty_t PFloc_t PFenv_t PFPNODE_MAXCHILD PFty_untyped
     PFenv_lookup PFenv_bind).

Lemma check_node_plain (env : PFenv_t) (k : PFptype_t) (s : PFpsem_t PFqname_t PFty_t)
    (ch : list (option node)) (l : PFloc_t) :
  k ≠ p_fun_ref → k ≠ p_fun_decl → check1 env k s ch l = Ok (PNode k s ch l).
Proof. by destruct k. Qed.

Lemma visited_unfold_resolved (k : PFptype_t) (s : PFpsem_t PFqname_t PFty_t)
    (ch : list (option node)) (l : PFloc_t) :
  resolved (PNode k s ch l) ↔
  (∀ m, m ∈ seen_below PFPNODE_MAXCHILD ch →
        kind _ _ _ m ≠ p_fun_ref ∧ kind _ _ _ m ≠ p_fun_decl)
  ∧ (k ≠ p_fun_ref ∧ k ≠ p_fun_decl).
Proof.
  unfold Resolved. setoid_rewrite visited_unfold. split.
  - intros H. split; [intros m Hm; apply H, elem_of_app; by left|].
    apply (H (PNode k s ch l)), elem_of_app. right. by apply list_elem_of_singleton.
  - intros [H1 H2] m Hm. apply elem_of_app in Hm as [Hm|Hm]; [by apply H1|].
    by apply list_elem_of_singleton in Hm as ->.
Qed.


Lemma resolved_fixed (env : PFenv_t) (n : node) :
  resolved n → check env n = Ok n.
Proof.
  induction n as [k s ch l IH] using PFpnode_ind. intros Hres.
  rewrite check_fun_usage_unfold.
  assert (∀ i cs,
            Forall (OnChild _ _ _ (λ n, resolved n → check env n = Ok n)) cs →
            (∀ m, m ∈ seen_below i cs →
                  kind _ _ _ m ≠ p_fun_ref ∧ kind _ _ _ m ≠ p_fun_decl) →
            checks env i cs = Ok cs) as Hall.
  { clear. intros i cs. revert i.
    induction cs as [|[c|] cs IHcs]; intros [|i] HF Hm; try done.
    apply Forall_cons in HF as [Hc HF]. simpl in Hc, Hm |- *.
    rewrite Hc by (intros m Hin; apply Hm, elem_of_app; by left).
    simpl. rewrite IHcs; [done|done|].
    intros m Hin. apply Hm, elem_of_app. by right. }
  rewrite visited_unfold_resolved in Hres.
  destruct Hres as [Hbelow [Hr Hd]].
  rewrite Hall by done. simpl. by apply check_node_plain.
Qed.

(** X15.  A tree without reference or declaration among the nodes that the
    walk visits is returned as it is, whatever the environment: nothing is
    looked up. *)
Theorem resolved_tree_is_returned (env : PFenv_t) (n : node) :
  Resolved _ _ _ PFPNODE_MAXCHILD n → check_fun_usage _ _ _ _ PFPNODE_MAXCHILD PFenv_lookup env n = Ok n.
Proof. apply resolved_fixed. Qed.

(** X16.  Checking a tree that [check_fun_usage] has returned returns it
    again, in any environment. *)
Theorem second_check_returns_the_tree (env env2 : PFenv_t) (n n' : node) :
  check_fun_usage _ _ _ _ PFPNODE_MAXCHILD PFenv_lookup env n = Ok n' →
  check_fun_usage _ _ _ _ PFPNODE_MAXCHILD PFenv_lookup env2 n' = Ok n'.
Proof.
  intros H. apply resolved_fixed. by apply (check_resolved env n).
Qed.



(** X18.  When [PFfun_check] returns, the root was there, with a first
    child (the prolog) and a second child of that one (the declarations);
    the environment that it leaves is the one that [add_ufuns] has made of
    the given environment on the declarations; the tree that it leaves is
    the tree that [check_fun_usage] makes of the root in that environment;
    that tree has no reference or declaration left among the nodes visited,
    and every reference visited in the root names a function bound in that
    environment with as many parameters as the reference has arguments. *)
Theorem PFfun_check_resolves (env env' : PFenv_t) (root : option node) (r' : node) :
  PFfun_check _ _ _ _ PFPNODE_MAXCHILD PFty_untyped PFenv_lookup PFenv_bind env root
  = Ok (env', r') →
  ∃ r prolog decls,
    root = Some r
    ∧ child _ _ _ r !! 0 = Some (Some prolog)
    ∧ child _ _ _ prolog !! 1 = Some (Some decls)
    ∧ add_ufuns _ _ _ _ PFty_untyped PFenv_bind env decls = Ok env'
    ∧ check_fun_usage _ _ _ _ PFPNODE_MAXCHILD PFenv_lookup env' r = Ok r'
    ∧ Resolved _ _ _ PFPNODE_MAXCHILD r'
    ∧ ∀ m, m ∈ visited _ _ _ PFPNODE_MAXCHILD r →
           kind _ _ _ m = p_fun_ref → RefBound _ _ _ _ PFenv_lookup env' m.
Proof.
  unfold PFfun_check, andThen. intros H.
  destruct root as [r|]; [|done].
  destruct (child _ _ _ r) as [|[prolog|] ?] eqn:Hr; try done.
  destruct (child _ _ _ prolog) as [|? [|[decls|] ?]] eqn:Hp; try done.
  exists r, prolog, decls.
  destruct (add_ufuns _ _ _ _ _ _ env decls) as [e| | |] eqn:Ea; try done.
  destruct (check_fun_usage _ _ _ _ _ _ e r) as [r1| | |] eqn:Er; try done.
  simplify_eq. rewrite Hr, Hp.
  split; [done|]. split; [done|]. split; [done|]. split; [done|]. split; [done|].
  split; [by apply (check_resolved env' r)|].
  intros m Hm Hk. by apply (check_bound env' r r' Er m Hm).
Qed.

End Facts.

(** *** The example query *)

Import Pathfinder.Example.

(** The checker on the query: [f] is registered with one parameter, its
    declaration becomes a function node and the call an application. *)
Example PFfun_check_query :
  ∃ r', PFfun_check_ex [] (Some query) = Ok (env_f, r')
        ∧ walk_tag _ _ _ <$> visited _ _ _ 2 r'
          = [(p_nil, 2); (p_other 7, 11); (p_nil, 12); (p_params, 10); (p_other 8, 13);
             (p_fun, 9); (p_nil, 14); (p_fun_decls, 8); (p_other 1, 1);
             (p_other 9, 21); (p_nil, 22); (p_args, 20); (p_apply, 19); (p_other 0, 0)].
Proof. eexists. split; reflexivity. Qed.

(** A call with two arguments of the function declared with one. *)
Example PFfun_check_wrong_arity :
  check_fun_usage_ex env_f
    (PNode p_fun_ref (sem_qname "f")
       [Some (PNode p_args (sem_other 0) [Some (leaf (p_other 9) 21); Some args1] 23);
        None] 19)
  = Oops OOPS_APPLYERROR.
Proof. reflexivity. Qed.

Lemma checked_references_are_bound_witness :
  (∃ r', check_fun_usage_ex env_f query = Ok r')
  ∧ RefBound string nat nat env_t lookup env_f call_f.
Proof.
  destruct (check_fun_usage_ex env_f query) as [r'| | |] eqn:E;
    try (vm_compute in E; discriminate).
  split; [by exists r'|].
  refine (proj1 (checked_references_are_bound string nat nat env_t 2 lookup env_f
                   query r' E call_f _) eq_refl).
  apply list_elem_of_In. vm_compute. do 12 right. left. reflexivity.
Defined.


Lemma args1_resolved : Resolved string nat nat 2 args1.
Proof.
  intros m Hm. apply list_elem_of_In in Hm. vm_compute in Hm.
  destruct Hm as [<-|[<-|[<-|[]]]]; by vm_compute.
Defined.

Lemma resolved_tree_is_returned_witness :
  Resolved string nat nat 2 args1 ∧ check_fun_usage_ex [] args1 = Ok args1.
Proof.
  split; [exact args1_resolved|].
  exact (resolved_tree_is_returned string nat nat env_t 2 lookup [] args1 args1_resolved).
Defined.

Lemma second_check_returns_the_tree_witness :
  ∃ r', check_fun_usage_ex env_f query = Ok r' ∧ check_fun_usage_ex [] r' = Ok r'.
Proof.
  destruct (check_fun_usage_ex env_f query) as [r'| | |] eqn:E;
    try (vm_compute in E; discriminate).
  exists r'. split; [done|].
  exact (second_check_returns_the_tree string nat nat env_t 2 lookup env_f [] query r' E).
Defined.


Lemma PFfun_check_resolves_witness :
  ∃ r', PFfun_check_ex [] (Some query) = Ok (env_f, r')
        ∧ add_ufuns string nat nat env_t 0 bind [] decls = Ok env_f
        ∧ Resolved string nat nat 2 r'.
Proof.
  destruct (PFfun_check_ex [] (Some query)) as [[e r']| | |] eqn:E;
    try (vm_compute in E; discriminate).
  assert (e = env_f) as ->
    by (pose proof E as E'; vm_compute in E'; injection E' as <- _; reflexivity).
  exists r'. split; [done|].
  destruct (PFfun_check_resolves string nat nat env_t 2 0 lookup bind [] env_f
              (Some query) r' E) as (r & pr & ds & Hroot & Hr & Hp & Ha & _ & Hres & _).
  split; [reflexivity|exact Hres].
Defined.

End PathfinderFacts.
